(** * json-xsd-to-xml: schema walker, mapping engine, validator and
      include/import resolution, embedded from the TypeScript sources.

    Conventions of the embedding
    - A JS object is the list of its own enumerable properties in
      enumeration order ([Object.keys] is [map fst]); [obj[key]] is the
      first binding, [undefined] when there is none.  The prototype chain is
      not modelled: [js_get] is [obj[key]] for every key but the member
      names of [Object.prototype].
    - A JS [Map] is an insertion-ordered association list with unique keys
      ([Map_set] replaces in place or appends).
    - A JS [Set<string>] is a [gset string].
    - Strings are byte strings; [toLowerCase] folds the ASCII letters, and
      is JavaScript's [toLowerCase] on ASCII text.
    - The xmlbuilder2 calls [ele], [att] and [txt] are embedded by their
      effect on a node tree for a name xmlbuilder2 accepts and takes
      literally; its own errors for other names are not modelled.
    - A JSON number carries its [String(n)] rendering, the only thing the
      code ever does with it.
    - Recursion over the JSON value is driven by fuel; the wrappers pick the
      depth of the value, and the fuel lemmas show this is always enough.
    The section "Names on which the embedding is exact" defines the inputs
    on which the three restricted built-ins are the real ones. *)

From Stdlib Require Import Ascii String ZArith.
From stdpp Require Import base decidable option list strings pretty gmap.

Set Warnings "-register-all,-clear-no-such-hyp".
Open Scope string_scope.
Open Scope list_scope.

(* ===================================================================== *)
(** ** JavaScript values and the built-ins the code relies on             *)
(* ===================================================================== *)

(** src/types.ts: [JsonValue = JsonPrimitive | JsonObject | JsonArray].
    [JUndefined] is added because every consumer tests [=== undefined]
    on looked-up properties and on array items. *)
Inductive JsonValue : Type :=
| JUndefined
| JNull
| JBool (b : bool)
| JNumber (repr : string)
| JString (s : string)
| JArray (items : list JsonValue)
| JObject (props : list (string * JsonValue)).

Definition JsonObject : Type := list (string * JsonValue).

#[global] Instance JsonValue_inhabited : Inhabited JsonValue := populate JUndefined.

(** [obj[key]] for a key that is an own property or is found nowhere:
    every key but the member names of [Object.prototype] (see [ownRead]). *)
Fixpoint js_get (obj : JsonObject) (key : string) : JsonValue :=
  match obj with
  | [] => JUndefined
  | (k, v) :: rest => if bool_decide (k = key) then v else js_get rest key
  end.

(** [Object.prototype.hasOwnProperty.call(obj, key)] *)
Fixpoint hasOwnProperty (obj : JsonObject) (key : string) : bool :=
  match obj with
  | [] => false
  | (k, _) :: rest => bool_decide (k = key) || hasOwnProperty rest key
  end.

Definition Object_keys (obj : JsonObject) : list string := map fst obj.

Definition isArray (v : JsonValue) : bool :=
  match v with JArray _ => true | _ => false end.

Definition isUndefined (v : JsonValue) : bool :=
  match v with JUndefined => true | _ => false end.

(** [v === null || v === undefined] *)
Definition isNullish (v : JsonValue) : bool :=
  match v with JUndefined | JNull => true | _ => false end.

(** [String(v)]; an array renders as its items joined by commas, [null]
    and [undefined] items rendering as the empty string. *)
Fixpoint js_String (v : JsonValue) : string :=
  match v with
  | JUndefined => "undefined"
  | JNull => "null"
  | JBool true => "true"
  | JBool false => "false"
  | JNumber r => r
  | JString s => s
  | JObject _ => "[object Object]"
  | JArray items =>
      (fix join (l : list JsonValue) : string :=
         match l with
         | [] => ""
         | x :: rest =>
             (match x with JUndefined | JNull => "" | _ => js_String x end)
             +:+ (match rest with [] => "" | _ :: _ => "," +:+ join rest end)
         end) items
  end.

Definition dquote : string := String (ascii_of_nat 34) EmptyString.

Definition lowerAscii (c : ascii) : ascii :=
  let n := nat_of_ascii c in
  if (65 <=? n)%nat && (n <=? 90)%nat then ascii_of_nat (n + 32) else c.

(** [s.toLowerCase()] on ASCII text; other bytes are left as they are
    (see [isAsciiText]). *)
Fixpoint toLowerCase (s : string) : string :=
  match s with
  | EmptyString => EmptyString
  | String c r => String (lowerAscii c) (toLowerCase r)
  end.

(** [s.startsWith(p)] *)
Definition startsWith (s p : string) : bool := String.prefix p s.

(** [s.slice(n)] *)
Fixpoint slice (s : string) (n : nat) : string :=
  match n, s with
  | O, _ => s
  | S n', String _ r => slice r n'
  | S _, EmptyString => EmptyString
  end.

Definition hexDigit (n : nat) : ascii :=
  ascii_of_nat (if (n <? 10)%nat then 48 + n else 87 + n).

(** The escape [JSON.stringify] writes for one character of a string. *)
Definition jsonEscape (c : ascii) : string :=
  let n := nat_of_ascii c in
  if (n =? 34)%nat then String (ascii_of_nat 92) dquote
  else if (n =? 92)%nat then String (ascii_of_nat 92) (String (ascii_of_nat 92) EmptyString)
  else if (n =? 8)%nat then String (ascii_of_nat 92) "b"
  else if (n =? 9)%nat then String (ascii_of_nat 92) "t"
  else if (n =? 10)%nat then String (ascii_of_nat 92) "n"
  else if (n =? 12)%nat then String (ascii_of_nat 92) "f"
  else if (n =? 13)%nat then String (ascii_of_nat 92) "r"
  else if (n <? 32)%nat then
    String (ascii_of_nat 92)
      ("u00" +:+ String (hexDigit (n / 16)) (String (hexDigit (n mod 16)) EmptyString))
  else String c EmptyString.

Fixpoint jsonEscapeAll (s : string) : string :=
  match s with
  | EmptyString => EmptyString
  | String c r => jsonEscape c +:+ jsonEscapeAll r
  end.

Definition jsonQuote (s : string) : string := dquote +:+ jsonEscapeAll s +:+ dquote.

(** [JSON.stringify(v)] without indentation.  An [undefined] array item is
    written [null]; an object property whose value is [undefined] is left
    out.  The builder only calls it on arrays. *)
Fixpoint JSON_stringify (v : JsonValue) : string :=
  match v with
  | JUndefined => "null"
  | JNull => "null"
  | JBool true => "true"
  | JBool false => "false"
  | JNumber r => r
  | JString s => jsonQuote s
  | JArray items =>
      "[" +:+
      (fix join (l : list JsonValue) : string :=
         match l with
         | [] => ""
         | x :: rest =>
             JSON_stringify x
             +:+ (match rest with [] => "" | _ :: _ => "," +:+ join rest end)
         end) items
      +:+ "]"
  | JObject props =>
      "{" +:+
      (fix join (first : bool) (l : list (string * JsonValue)) : string :=
         match l with
         | [] => ""
         | (k, x) :: rest =>
             match x with
             | JUndefined => join first rest
             | _ =>
                 (if first then "" else ",") +:+ jsonQuote k +:+ ":"
                 +:+ JSON_stringify x +:+ join false rest
             end
         end) true props
      +:+ "}"
  end.

(** Nesting depth of a JSON value: the fuel its traversal needs. *)
Fixpoint json_depth (v : JsonValue) : nat :=
  match v with
  | JArray items =>
      S ((fix go (l : list JsonValue) : nat :=
            match l with [] => 0 | x :: r => Nat.max (json_depth x) (go r) end) items)
  | JObject props =>
      S ((fix go (l : list (string * JsonValue)) : nat :=
            match l with [] => 0 | (_, x) :: r => Nat.max (json_depth x) (go r) end) props)
  | _ => 0
  end.

(** JS truthiness of an optional string: [undefined] and [''] are falsy. *)
Definition truthy (s : option string) : option string :=
  match s with
  | Some "" => None
  | other => other
  end.

(* ===================================================================== *)
(** ** Insertion-ordered maps (JS [Map<string, V>])                       *)
(* ===================================================================== *)

Section JsMap.
Context {V : Type}.

Definition JsMap : Type := list (string * V).

Fixpoint Map_get (m : JsMap) (k : string) : option V :=
  match m with
  | [] => None
  | (k', v) :: rest => if bool_decide (k' = k) then Some v else Map_get rest k
  end.

Definition Map_has (m : JsMap) (k : string) : bool :=
  match Map_get m k with Some _ => true | None => false end.

(** [m.set(k, v)]: an existing key keeps its position. *)
Fixpoint Map_set (m : JsMap) (k : string) (v : V) : JsMap :=
  match m with
  | [] => [(k, v)]
  | (k', v') :: rest =>
      if bool_decide (k' = k) then (k', v) :: rest else (k', v') :: Map_set rest k v
  end.

Definition Map_keys (m : JsMap) : list string := map fst m.
Definition Map_values (m : JsMap) : list V := map snd m.
End JsMap.

Arguments JsMap V : clear implicits.

(* ===================================================================== *)
(** ** Schema model (src/xsd/types.ts)                                    *)
(* ===================================================================== *)

Inductive AttrUse : Type := required | optional | prohibited.

Record AttributeDef : Type := mkAttributeDef {
  attr_name : string;
  attr_type : string;
  attr_use : AttrUse;
  attr_default : option string;
  attr_fixed : option string;
}.

Inductive Occurs : Type := occursN (n : Z) | unbounded.

Inductive Compositor : Type := c_sequence | c_all | c_choice.

Inductive ElementDef : Type := mkElementDef {
  el_name : string;
  el_typeName : option string;
  el_inlineComplexType : option ComplexTypeDef;
  el_minOccurs : Z;
  el_maxOccurs : Occurs;
  el_attributes : list AttributeDef;
  el_children : list ElementDef;
  el_namespace : option string;
  el_isArray : bool;
}
with ComplexTypeDef : Type := mkComplexTypeDef {
  ct_name : string;
  ct_compositor : Compositor;
  ct_elements : list ElementDef;
  ct_attributes : list AttributeDef;
  ct_hasTextContent : bool;
  ct_extends : option string;
  ct_hasWildcard : option bool;
}.

Record SimpleTypeDef : Type := mkSimpleTypeDef {
  st_name : string;
  st_base : string;
}.

Record SchemaModel : Type := mkSchemaModel {
  rootElement : string;
  elements : JsMap ElementDef;
  complexTypes : JsMap ComplexTypeDef;
  simpleTypes : JsMap SimpleTypeDef;
  targetNamespace : option string;
}.

(** parser: [isUnboundedOrMany], from which [isArray] is derived. *)
Definition isUnboundedOrMany (max : Occurs) : bool :=
  match max with
  | unbounded => true
  | occursN n => (1 <? n)%Z
  end.

(* ===================================================================== *)
(** ** Schema walker (src/xsd/walker.ts)                                  *)
(* ===================================================================== *)

Definition XS_SIMPLE_TYPES : list string :=
  [ "xs:string"; "xs:integer"; "xs:int"; "xs:long"; "xs:short"; "xs:decimal";
    "xs:float"; "xs:double"; "xs:boolean"; "xs:date"; "xs:time"; "xs:dateTime";
    "xs:duration"; "xs:anyURI"; "xs:base64Binary"; "xs:hexBinary"; "xs:token";
    "xs:normalizedString"; "xs:positiveInteger"; "xs:nonNegativeInteger";
    "xs:negativeInteger"; "xs:nonPositiveInteger"; "xs:unsignedInt";
    "xs:unsignedLong"; "xs:unsignedShort"; "xs:byte"; "xs:unsignedByte";
    "xs:ID"; "xs:IDREF"; "xs:NMTOKEN"; "xs:Name"; "xs:QName"; "xs:anyType" ].

Record SchemaWalker : Type := mkSchemaWalker { schema : SchemaModel }.

Definition lookupElement (w : SchemaWalker) (name : string) : option ElementDef :=
  Map_get (elements (schema w)) name.

Definition lookupComplexType (w : SchemaWalker) (name : string) : option ComplexTypeDef :=
  Map_get (complexTypes (schema w)) name.

Definition resolveComplexTypeForElement (w : SchemaWalker) (el : ElementDef)
  : option ComplexTypeDef :=
  match el_inlineComplexType el with
  | Some ct => Some ct
  | None =>
      match truthy (el_typeName el) with
      | Some tn => Map_get (complexTypes (schema w)) tn
      | None => None
      end
  end.

Definition isSimpleType (w : SchemaWalker) (typeName : option string) : bool :=
  match truthy typeName with
  | None => true
  | Some tn =>
      if bool_decide (tn ∈ XS_SIMPLE_TYPES) then true
      else Map_has (simpleTypes (schema w)) tn
  end.

(** [resolveAllElements(ct, visited)]; [None] only when the fuel runs out. *)
Fixpoint resolveAllElements_fuel (fuel : nat) (w : SchemaWalker)
    (ct : ComplexTypeDef) (visited : gset string) : option (list ElementDef) :=
  match fuel with
  | O => None
  | S fuel' =>
      if bool_decide (ct_name ct ∈ visited) then Some (ct_elements ct)
      else
        let visited' := {[ ct_name ct ]} ∪ visited in
        match truthy (ct_extends ct) with
        | None => Some (ct_elements ct)
        | Some base =>
            match Map_get (complexTypes (schema w)) base with
            | None => Some (ct_elements ct)
            | Some baseCt =>
                match resolveAllElements_fuel fuel' w baseCt visited' with
                | Some inherited => Some (inherited ++ ct_elements ct)
                | None => None
                end
            end
        end
  end.

(** [resolveAllAttributes(ct, visited)] *)
Fixpoint resolveAllAttributes_fuel (fuel : nat) (w : SchemaWalker)
    (ct : ComplexTypeDef) (visited : gset string) : option (list AttributeDef) :=
  match fuel with
  | O => None
  | S fuel' =>
      if bool_decide (ct_name ct ∈ visited) then Some (ct_attributes ct)
      else
        let visited' := {[ ct_name ct ]} ∪ visited in
        match truthy (ct_extends ct) with
        | None => Some (ct_attributes ct)
        | Some base =>
            match Map_get (complexTypes (schema w)) base with
            | None => Some (ct_attributes ct)
            | Some baseCt =>
                match resolveAllAttributes_fuel fuel' w baseCt visited' with
                | Some inherited => Some (inherited ++ ct_attributes ct)
                | None => None
                end
            end
        end
  end.

(** [resolveHasWildcard(ct, visited)] *)
Fixpoint resolveHasWildcard_fuel (fuel : nat) (w : SchemaWalker)
    (ct : ComplexTypeDef) (visited : gset string) : option bool :=
  match fuel with
  | O => None
  | S fuel' =>
      match ct_hasWildcard ct with
      | Some true => Some true
      | _ =>
          match truthy (ct_extends ct) with
          | None => Some false
          | Some base =>
              if bool_decide (ct_name ct ∈ visited) then Some false
              else
                let visited' := {[ ct_name ct ]} ∪ visited in
                match Map_get (complexTypes (schema w)) base with
                | Some baseCt => resolveHasWildcard_fuel fuel' w baseCt visited'
                | None => Some false
                end
          end
      end
  end.

(** The names of the registered complex types: every recursive call of the
    resolvers marks one of them as visited, so their number bounds the
    recursion depth. *)
Definition typeNames (w : SchemaWalker) : gset string :=
  list_to_set (map ct_name (Map_values (complexTypes (schema w)))).

Definition walkerFuel (w : SchemaWalker) : nat := S (S (size (typeNames w))).

Definition resolveAllElements (w : SchemaWalker) (ct : ComplexTypeDef) : list ElementDef :=
  default [] (resolveAllElements_fuel (walkerFuel w) w ct ∅).

Definition resolveAllAttributes (w : SchemaWalker) (ct : ComplexTypeDef) : list AttributeDef :=
  default [] (resolveAllAttributes_fuel (walkerFuel w) w ct ∅).

Definition resolveHasWildcard (w : SchemaWalker) (ct : ComplexTypeDef) : bool :=
  default false (resolveHasWildcard_fuel (walkerFuel w) w ct ∅).

Definition getAttributesForElement (w : SchemaWalker) (el : ElementDef) : list AttributeDef :=
  match resolveComplexTypeForElement w el with
  | None => el_attributes el
  | Some ct => resolveAllAttributes w ct
  end.

Definition getChildElementsForElement (w : SchemaWalker) (el : ElementDef) : list ElementDef :=
  match resolveComplexTypeForElement w el with
  | None => el_children el
  | Some ct => resolveAllElements w ct
  end.

Definition hasWildcardForElement (w : SchemaWalker) (el : ElementDef) : bool :=
  match resolveComplexTypeForElement w el with
  | None => false
  | Some ct => resolveHasWildcard w ct
  end.

(** The types reachable from a complex type along registered [extends]
    links. *)
Inductive extendsReach (w : SchemaWalker) : ComplexTypeDef -> ComplexTypeDef -> Prop :=
| reach_here ct : extendsReach w ct ct
| reach_base ct base baseCt ct' :
    truthy (ct_extends ct) = Some base ->
    lookupComplexType w base = Some baseCt ->
    extendsReach w baseCt ct' ->
    extendsReach w ct ct'.

(* ===================================================================== *)
(** ** Errors and completions                                             *)
(* ===================================================================== *)

(** src/validation/errors.ts *)
Record ValidationIssue : Type := mkIssue {
  issue_path : string;
  issue_message : string;
}.

Record XsdValidationError : Type := mkXsdValidationError {
  issues : list ValidationIssue;
}.

Record XsdMappingError : Type := mkXsdMappingError {
  err_path : string;
  err_message : string;
}.

(** How a call ends: it returns, it throws, or the model ran out of fuel
    (which the fuel lemmas exclude for the wrappers). *)
Inductive Completion (E A : Type) : Type :=
| Returned (a : A)
| Thrown (e : E)
| OutOfFuel.

Arguments Returned {E A} a.
Arguments Thrown {E A} e.
Arguments OutOfFuel {E A}.

Definition andThen {E A B} (c : Completion E A) (k : A -> Completion E B)
  : Completion E B :=
  match c with
  | Returned a => k a
  | Thrown e => Thrown e
  | OutOfFuel => OutOfFuel
  end.

Notation "'let*' x ':=' c 'in' k" := (andThen c (fun x => k))
  (at level 10, x name, c at level 100, k at level 200).

(* ===================================================================== *)
(** ** Case-insensitive lookup (src/utils.ts)                             *)
(* ===================================================================== *)

Fixpoint lookupCI_scan (obj : JsonObject) (lower : string) (keys : list string)
  : JsonValue :=
  match keys with
  | [] => JUndefined
  | key :: rest =>
      if bool_decide (toLowerCase key = lower) then js_get obj key
      else lookupCI_scan obj lower rest
  end.

Definition lookupCI (obj : JsonObject) (name : string) : JsonValue :=
  if hasOwnProperty obj name then js_get obj name
  else lookupCI_scan obj (toLowerCase name) (Object_keys obj).

Definition lowerSet (names : list string) : gset string :=
  list_to_set (map toLowerCase names).

(* ===================================================================== *)
(** ** XML node tree (the xmlbuilder2 boundary)                           *)
(* ===================================================================== *)

Inductive XmlNode : Type :=
| XText (s : string)
| XElem (tag : string) (atts : list (string * string)) (content : list XmlNode).

(** An element under construction: what an [XMLBuilder] handle points to.
    Its tag is fixed by the [ele] call that created it. *)
Record XMLBuilder : Type := mkXMLBuilder {
  b_atts : list (string * string);
  b_content : list XmlNode;
}.

Definition newNode (atts : list (string * string)) : XMLBuilder := mkXMLBuilder atts [].

(** [node.txt(s)] *)
Definition txt (node : XMLBuilder) (s : string) : XMLBuilder :=
  mkXMLBuilder (b_atts node) (b_content node ++ [XText s]).

(** [node.att(name, value)]: sets the attribute, replacing a previous value
    (for a name xmlbuilder2 accepts, see [isPlainName]). *)
Definition att (node : XMLBuilder) (name value : string) : XMLBuilder :=
  mkXMLBuilder (Map_set (b_atts node) name value) (b_content node).

(** [node.ele(name)] together with everything written through the returned
    handle: the finished child is the next item of the parent's content.
    This is what xmlbuilder2 does for a name it accepts and takes literally
    (see [isPlainName]); for another text it throws or parses it. *)
Definition ele (node : XMLBuilder) (name : string) (child : XMLBuilder) : XMLBuilder :=
  mkXMLBuilder (b_atts node)
    (b_content node ++ [XElem name (b_atts child) (b_content child)]).

(* ===================================================================== *)
(** ** Mapping engine (src/xml/builder.ts)                                *)
(* ===================================================================== *)

Record BuildOptions : Type := mkBuildOptions {
  prettyPrint : bool;
  xmlDeclaration : bool;
  encoding : string;
  attributePrefix : string;
  textNodeKey : string;
  opt_targetNamespace : option string;
}.

(** [buildWildcardValue(node, value, path, attributePrefix, textNodeKey)].
    The [path] argument of the source is only passed along and never read,
    so it is left out. *)
Fixpoint buildWildcardValue (attributePrefix textNodeKey : string)
    (node : XMLBuilder) (value : JsonValue) : XMLBuilder :=
  match value with
  | JUndefined | JNull => node
  | JArray _ => txt node (JSON_stringify value)
  | JObject obj =>
      (fix entries (l : list (string * JsonValue)) (node : XMLBuilder) : XMLBuilder :=
         match l with
         | [] => node
         | (key, val) :: rest =>
             entries rest
               (match val with
                | JUndefined | JNull => node
                | _ =>
                    if bool_decide (key = textNodeKey) then txt node (js_String val)
                    else if startsWith key attributePrefix then
                      att node (slice key (String.length attributePrefix)) (js_String val)
                    else
                      match val with
                      | JArray items =>
                          (fix each (l : list JsonValue) (node : XMLBuilder) : XMLBuilder :=
                             match l with
                             | [] => node
                             | item :: more =>
                                 each more
                                   (ele node key
                                      (buildWildcardValue attributePrefix textNodeKey
                                         (newNode []) item))
                             end) items node
                      | _ =>
                          ele node key
                            (buildWildcardValue attributePrefix textNodeKey (newNode []) val)
                      end
                end)
         end) obj node
  | _ => txt node (js_String value)
  end.

(** The attribute loop of [buildElement]. *)
Fixpoint applyAttributes (o : BuildOptions) (attrs : list AttributeDef)
    (obj : JsonObject) (node : XMLBuilder) : XMLBuilder :=
  match attrs with
  | [] => node
  | attrDef :: rest =>
      let key := attributePrefix o +:+ attr_name attrDef in
      let attrValue := lookupCI obj key in
      applyAttributes o rest obj
        (if negb (isNullish attrValue) then
           att node (attr_name attrDef) (js_String attrValue)
         else
           match attr_default attrDef with
           | Some d => att node (attr_name attrDef) d
           | None => node
           end)
  end.

(** The wildcard pass-through loop of [buildElement], over [Object.keys]. *)
Fixpoint wildcardPass (o : BuildOptions) (knownChildNames : gset string)
    (obj : JsonObject) (keys : list string) (node : XMLBuilder) : XMLBuilder :=
  match keys with
  | [] => node
  | key :: rest =>
      wildcardPass o knownChildNames obj rest
        (if bool_decide (key = textNodeKey o) then node
         else if startsWith key (attributePrefix o) then node
         else if bool_decide (toLowerCase key ∈ knownChildNames) then node
         else
           let wildcardValue := js_get obj key in
           match wildcardValue with
           | JUndefined | JNull => node
           | JArray items =>
               fold_left
                 (fun nd item =>
                    ele nd key
                      (buildWildcardValue (attributePrefix o) (textNodeKey o)
                         (newNode []) item))
                 items node
           | _ =>
               ele node key
                 (buildWildcardValue (attributePrefix o) (textNodeKey o)
                    (newNode []) wildcardValue)
           end)
  end.

Definition unexpectedArray (path name : string) : XsdMappingError :=
  mkXsdMappingError path
    ("Unexpected array passed to buildElement for " +:+ dquote +:+ name +:+ dquote
     +:+ ". Arrays should be handled by the parent.").

Definition rootNotFound (rootName : string) : string :=
  "Root element " +:+ dquote +:+ rootName +:+ dquote +:+ " not found in schema.".

Section BuildLoops.
(** The recursive call [buildElement(childNode, childEl, item, ..., path)]. *)
Variable rec : XMLBuilder -> ElementDef -> JsonValue -> string
               -> Completion XsdMappingError XMLBuilder.

(** [for (let i = 0; i < childValue.length; i++)]: one child per item. *)
Fixpoint buildItems (childEl : ElementDef) (items : list JsonValue) (i : nat)
    (path : string) (node : XMLBuilder) : Completion XsdMappingError XMLBuilder :=
  match items with
  | [] => Returned node
  | item :: rest =>
      let* child := rec (newNode []) childEl item
                 (path +:+ "." +:+ el_name childEl +:+ "[" +:+ pretty i +:+ "]") in
      buildItems childEl rest (S i) path (ele node (el_name childEl) child)
  end.

(** [for (const childEl of resolvedChildren)] *)
Fixpoint buildChildren (resolvedChildren : list ElementDef) (obj : JsonObject)
    (path : string) (node : XMLBuilder) : Completion XsdMappingError XMLBuilder :=
  match resolvedChildren with
  | [] => Returned node
  | childEl :: rest =>
      let childValue := lookupCI obj (el_name childEl) in
      match childValue with
      | JUndefined | JNull => buildChildren rest obj path node
      | JArray items =>
          let* node' := buildItems childEl items 0 path node in
          buildChildren rest obj path node'
      | _ =>
          let* child := rec (newNode []) childEl childValue
                     (path +:+ "." +:+ el_name childEl) in
          buildChildren rest obj path (ele node (el_name childEl) child)
      end
  end.
End BuildLoops.

(** The body of [buildElement], with its recursive call as a parameter. *)
Definition buildElementWith
    (rec : XMLBuilder -> ElementDef -> JsonValue -> string
           -> Completion XsdMappingError XMLBuilder)
    (w : SchemaWalker) (o : BuildOptions)
    (node : XMLBuilder) (el : ElementDef) (value : JsonValue) (path : string)
  : Completion XsdMappingError XMLBuilder :=
  match value with
  | JArray _ => Thrown (unexpectedArray path (el_name el))
  | JUndefined | JNull => Returned node
  | _ =>
      match resolveComplexTypeForElement w el with
      | None => Returned (txt node (js_String value))
      | Some ct =>
          match value with
          | JObject obj =>
              let node1 := applyAttributes o (getAttributesForElement w el) obj node in
              if ct_hasTextContent ct && negb (isUndefined (js_get obj (textNodeKey o)))
              then Returned (txt node1 (js_String (js_get obj (textNodeKey o))))
              else
                let resolvedChildren := getChildElementsForElement w el in
                let knownChildNames := lowerSet (map el_name resolvedChildren) in
                let* node2 := buildChildren rec resolvedChildren obj path node1 in
                Returned
                  (if hasWildcardForElement w el
                   then wildcardPass o knownChildNames obj (Object_keys obj) node2
                   else node2)
          | _ => Returned (txt node (js_String value))
          end
      end
  end.

Fixpoint buildElement_fuel (fuel : nat) (w : SchemaWalker) (o : BuildOptions)
  : XMLBuilder -> ElementDef -> JsonValue -> string
    -> Completion XsdMappingError XMLBuilder :=
  match fuel with
  | O => fun _ _ _ _ => OutOfFuel
  | S fuel' => buildElementWith (buildElement_fuel fuel' w o) w o
  end.

(** [buildElement]: the fuel is the depth of the value plus one. *)
Definition buildElement (w : SchemaWalker) (o : BuildOptions) (node : XMLBuilder)
    (el : ElementDef) (value : JsonValue) (path : string)
  : Completion XsdMappingError XMLBuilder :=
  buildElement_fuel (S (json_depth value)) w o node el value path.

(** [typeof value !== 'object'] for a value that is not [undefined]. *)
Definition isScalar (v : JsonValue) : bool :=
  match v with JBool _ | JNumber _ | JString _ => true | _ => false end.

(** [lookupCI(json, rootName) !== undefined ? lookupCI(json, rootName)! : json] *)
Definition rootValueOf (json : JsonObject) (rootName : string) : JsonValue :=
  if negb (isUndefined (lookupCI json rootName)) then lookupCI json rootName
  else JObject json.

(** [buildXml], up to the final [doc.end] rendering, which belongs to
    xmlbuilder2: the result is the root element. *)
Definition buildXml (json : JsonObject) (w : SchemaWalker) (o : BuildOptions)
  : Completion XsdMappingError XmlNode :=
  let rootName := rootElement (schema w) in
  match lookupElement w rootName with
  | None => Thrown (mkXsdMappingError "$" (rootNotFound rootName))
  | Some rootEl =>
      let rootValue := rootValueOf json rootName in
      let root :=
        match truthy (opt_targetNamespace o) with
        | Some ns => newNode [("xmlns", ns)]
        | None => newNode []
        end in
      let* built := buildElement w o root rootEl rootValue ("$." +:+ rootName) in
      Returned (XElem rootName (b_atts built) (b_content built))
  end.

(** The positions at which an array value is handed to [buildElement]: the
    value itself is an array, or the traversal of an object of complex type
    (not cut short by its text content) reaches such a position below a
    declared child, through the child's own value or through one item of
    the child's array value. *)
Inductive arrayReaches (w : SchemaWalker) (o : BuildOptions)
  : ElementDef -> JsonValue -> Prop :=
| reaches_array el items : arrayReaches w o el (JArray items)
| reaches_child el ct obj childEl :
    resolveComplexTypeForElement w el = Some ct ->
    ct_hasTextContent ct && negb (isUndefined (js_get obj (textNodeKey o))) = false ->
    In childEl (getChildElementsForElement w el) ->
    isArray (lookupCI obj (el_name childEl)) = false ->
    arrayReaches w o childEl (lookupCI obj (el_name childEl)) ->
    arrayReaches w o el (JObject obj)
| reaches_item el ct obj childEl items item :
    resolveComplexTypeForElement w el = Some ct ->
    ct_hasTextContent ct && negb (isUndefined (js_get obj (textNodeKey o))) = false ->
    In childEl (getChildElementsForElement w el) ->
    lookupCI obj (el_name childEl) = JArray items ->
    In item items ->
    arrayReaches w o childEl item ->
    arrayReaches w o el (JObject obj).

(* ===================================================================== *)
(** ** Strict-mode validator (src/validation/json-validator.ts)           *)
(* ===================================================================== *)

Definition notMultiple (path name : string) : ValidationIssue :=
  mkIssue path
    ("Element " +:+ dquote +:+ name +:+ dquote
     +:+ " does not allow multiple occurrences (maxOccurs=1), but an array was provided.").

Definition simpleButObject (path name : string) : ValidationIssue :=
  mkIssue path
    ("Element " +:+ dquote +:+ name +:+ dquote
     +:+ " is a simple type but received an object.").

Definition requiredIsNull (path name : string) : ValidationIssue :=
  mkIssue path
    ("Required element " +:+ dquote +:+ name +:+ dquote +:+ " is null/undefined.").

Definition expectsObject (path name : string) : ValidationIssue :=
  mkIssue path
    ("Element " +:+ dquote +:+ name +:+ dquote
     +:+ " expects an object (complexType) but received a scalar/array.").

Definition missingAttribute (path key name : string) : ValidationIssue :=
  mkIssue (path +:+ "." +:+ key)
    ("Required attribute " +:+ dquote +:+ name +:+ dquote +:+ " is missing.").

Definition missingElement (path name : string) (minOccurs : Z) : ValidationIssue :=
  mkIssue (path +:+ "." +:+ name)
    ("Required element " +:+ dquote +:+ name +:+ dquote
     +:+ " (minOccurs=" +:+ pretty minOccurs +:+ ") is missing.").

Definition unknownProperty (path key name : string) : ValidationIssue :=
  mkIssue (path +:+ "." +:+ key)
    ("Unknown property " +:+ dquote +:+ key +:+ dquote
     +:+ " not declared in schema for element " +:+ dquote +:+ name +:+ dquote +:+ ".").

(** The required-attribute loop of [validateElement]; [issues.push] appends. *)
Fixpoint checkRequiredAttributes (attributePrefix : string) (attrs : list AttributeDef)
    (obj : JsonObject) (path : string) (issues : list ValidationIssue)
  : list ValidationIssue :=
  match attrs with
  | [] => issues
  | attrDef :: rest =>
      checkRequiredAttributes attributePrefix rest obj path
        (match attr_use attrDef with
         | required =>
             let key := attributePrefix +:+ attr_name attrDef in
             if isUndefined (js_get obj key)
             then issues ++ [missingAttribute path key (attr_name attrDef)]
             else issues
         | _ => issues
         end)
  end.

(** The unknown-key loop of [validateElement], over [Object.keys]. *)
Fixpoint checkUnknownKeys (textNodeKey : string) (knownChildren knownAttrs : gset string)
    (elementHasWildcard : bool) (elName : string) (keys : list string) (path : string)
    (issues : list ValidationIssue) : list ValidationIssue :=
  match keys with
  | [] => issues
  | key :: rest =>
      checkUnknownKeys textNodeKey knownChildren knownAttrs elementHasWildcard elName
        rest path
        (if bool_decide (key = textNodeKey) then issues
         else if bool_decide (key ∈ knownChildren) || bool_decide (key ∈ knownAttrs)
         then issues
         else if elementHasWildcard then issues
         else issues ++ [unknownProperty path key elName])
  end.

Section ValidateLoops.
(** The recursive call [validateElement(el, value, path, ..., issues)]:
    it returns the issue list as it stands afterwards. *)
Variable rec : ElementDef -> JsonValue -> string -> list ValidationIssue
               -> option (list ValidationIssue).

Fixpoint validateItems (el : ElementDef) (items : list JsonValue) (i : nat)
    (path : string) (issues : list ValidationIssue) : option (list ValidationIssue) :=
  match items with
  | [] => Some issues
  | item :: rest =>
      match rec el item (path +:+ "[" +:+ pretty i +:+ "]") issues with
      | Some issues' => validateItems el rest (S i) path issues'
      | None => None
      end
  end.

Fixpoint validateChildren (resolvedChildren : list ElementDef) (obj : JsonObject)
    (path : string) (issues : list ValidationIssue) : option (list ValidationIssue) :=
  match resolvedChildren with
  | [] => Some issues
  | childEl :: rest =>
      let childValue := js_get obj (el_name childEl) in
      if (0 <? el_minOccurs childEl)%Z && isNullish childValue then
        validateChildren rest obj path
          (issues ++ [missingElement path (el_name childEl) (el_minOccurs childEl)])
      else if negb (isNullish childValue) then
        match rec childEl childValue (path +:+ "." +:+ el_name childEl) issues with
        | Some issues' => validateChildren rest obj path issues'
        | None => None
        end
      else validateChildren rest obj path issues
  end.
End ValidateLoops.

(** The body of [validateElement], with its recursive call as a parameter. *)
Definition validateElementWith
    (rec : ElementDef -> JsonValue -> string -> list ValidationIssue
           -> option (list ValidationIssue))
    (w : SchemaWalker) (attributePrefix textNodeKey : string)
    (el : ElementDef) (value : JsonValue) (path : string)
    (issues : list ValidationIssue) : option (list ValidationIssue) :=
  match value with
  | JArray items =>
      if negb (el_isArray el) then Some (issues ++ [notMultiple path (el_name el)])
      else validateItems rec el items 0 path issues
  | _ =>
      match resolveComplexTypeForElement w el with
      | None =>
          match value with
          | JObject _ => Some (issues ++ [simpleButObject path (el_name el)])
          | _ => Some issues
          end
      | Some ct =>
          match value with
          | JUndefined | JNull =>
              if (0 <? el_minOccurs el)%Z
              then Some (issues ++ [requiredIsNull path (el_name el)])
              else Some issues
          | JObject obj =>
              let attrs := getAttributesForElement w el in
              let issues1 :=
                checkRequiredAttributes attributePrefix attrs obj path issues in
              let resolvedChildren := getChildElementsForElement w el in
              match validateChildren rec resolvedChildren obj path issues1 with
              | None => None
              | Some issues2 =>
                  let knownChildren : gset string :=
                    list_to_set (map el_name resolvedChildren) in
                  let knownAttrs : gset string :=
                    list_to_set
                      (map (fun a => attributePrefix +:+ attr_name a) attrs) in
                  Some
                    (checkUnknownKeys textNodeKey knownChildren knownAttrs
                       (hasWildcardForElement w el) (el_name el)
                       (Object_keys obj) path issues2)
              end
          | _ => Some (issues ++ [expectsObject path (el_name el)])
          end
      end
  end.

Fixpoint validateElement_fuel (fuel : nat) (w : SchemaWalker)
    (attributePrefix textNodeKey : string)
  : ElementDef -> JsonValue -> string -> list ValidationIssue
    -> option (list ValidationIssue) :=
  match fuel with
  | O => fun _ _ _ _ => None
  | S fuel' =>
      validateElementWith (validateElement_fuel fuel' w attributePrefix textNodeKey)
        w attributePrefix textNodeKey
  end.

(** [validateElement]: the fuel is the depth of the value plus one. *)
Definition validateElement (w : SchemaWalker) (attributePrefix textNodeKey : string)
    (el : ElementDef) (value : JsonValue) (path : string)
    (issues : list ValidationIssue) : option (list ValidationIssue) :=
  validateElement_fuel (S (json_depth value)) w attributePrefix textNodeKey
    el value path issues.

(** [(json[rootName] !== undefined ? json : { [rootName]: json })[rootName]] *)
Definition validatedValue (json : JsonObject) (rootName : string) : JsonValue :=
  if negb (isUndefined (js_get json rootName)) then js_get json rootName
  else JObject json.

(** [validateJson]: returns, or throws one [XsdValidationError]. *)
Definition validateJson (json : JsonObject) (w : SchemaWalker)
    (attributePrefix textNodeKey : string) : Completion XsdValidationError unit :=
  let rootName := rootElement (schema w) in
  match lookupElement w rootName with
  | None => Thrown (mkXsdValidationError [mkIssue "$" (rootNotFound rootName)])
  | Some rootEl =>
      let value := validatedValue json rootName in
      match
        validateElement w attributePrefix textNodeKey rootEl value ("$." +:+ rootName) []
      with
      | None => OutOfFuel
      | Some found =>
          if (0 <? length found)%nat then Thrown (mkXsdValidationError found)
          else Returned tt
      end
  end.

(* ===================================================================== *)
(** ** The complete issue list of one pass (specification side)           *)
(* ===================================================================== *)

(** The issues of every check of one validation pass, as a plain list in
    traversal order, without any accumulator.  This is what "every issue
    discovered in the pass" means; [validateElement] is compared with it. *)

Definition requiredAttributeIssues (attributePrefix : string) (attrs : list AttributeDef)
    (obj : JsonObject) (path : string) : list ValidationIssue :=
  flat_map
    (fun attrDef =>
       match attr_use attrDef with
       | required =>
           if isUndefined (js_get obj (attributePrefix +:+ attr_name attrDef))
           then [missingAttribute path (attributePrefix +:+ attr_name attrDef)
                   (attr_name attrDef)]
           else []
       | _ => []
       end)
    attrs.

Definition unknownKeyIssues (textNodeKey : string) (knownChildren knownAttrs : gset string)
    (elementHasWildcard : bool) (elName : string) (keys : list string) (path : string)
  : list ValidationIssue :=
  flat_map
    (fun key =>
       if bool_decide (key = textNodeKey) then []
       else if bool_decide (key ∈ knownChildren) || bool_decide (key ∈ knownAttrs) then []
       else if elementHasWildcard then []
       else [unknownProperty path key elName])
    keys.

Section AllIssues.
Variable issuesOf : ElementDef -> JsonValue -> string -> list ValidationIssue.

Fixpoint itemIssues (el : ElementDef) (items : list JsonValue) (i : nat) (path : string)
  : list ValidationIssue :=
  match items with
  | [] => []
  | item :: rest =>
      issuesOf el item (path +:+ "[" +:+ pretty i +:+ "]") ++ itemIssues el rest (S i) path
  end.

Definition childIssues (obj : JsonObject) (path : string) (childEl : ElementDef)
  : list ValidationIssue :=
  let childValue := js_get obj (el_name childEl) in
  if (0 <? el_minOccurs childEl)%Z && isNullish childValue then
    [missingElement path (el_name childEl) (el_minOccurs childEl)]
  else if negb (isNullish childValue) then
    issuesOf childEl childValue (path +:+ "." +:+ el_name childEl)
  else [].

Definition allIssuesWith (w : SchemaWalker) (attributePrefix textNodeKey : string)
    (el : ElementDef) (value : JsonValue) (path : string) : list ValidationIssue :=
  match value with
  | JArray items =>
      if negb (el_isArray el) then [notMultiple path (el_name el)]
      else itemIssues el items 0 path
  | _ =>
      match resolveComplexTypeForElement w el with
      | None =>
          match value with
          | JObject _ => [simpleButObject path (el_name el)]
          | _ => []
          end
      | Some ct =>
          match value with
          | JUndefined | JNull =>
              if (0 <? el_minOccurs el)%Z then [requiredIsNull path (el_name el)] else []
          | JObject obj =>
              let attrs := getAttributesForElement w el in
              let resolvedChildren := getChildElementsForElement w el in
              requiredAttributeIssues attributePrefix attrs obj path
              ++ flat_map (childIssues obj path) resolvedChildren
              ++ unknownKeyIssues textNodeKey
                   (list_to_set (map el_name resolvedChildren))
                   (list_to_set (map (fun a => attributePrefix +:+ attr_name a) attrs))
                   (hasWildcardForElement w el) (el_name el) (Object_keys obj) path
          | _ => [expectsObject path (el_name el)]
          end
      end
  end.
End AllIssues.

Fixpoint allIssues_fuel (fuel : nat) (w : SchemaWalker) (attributePrefix textNodeKey : string)
  : ElementDef -> JsonValue -> string -> list ValidationIssue :=
  match fuel with
  | O => fun _ _ _ => []
  | S fuel' =>
      allIssuesWith (allIssues_fuel fuel' w attributePrefix textNodeKey)
        w attributePrefix textNodeKey
  end.

Definition allIssues (w : SchemaWalker) (attributePrefix textNodeKey : string)
    (el : ElementDef) (value : JsonValue) (path : string) : list ValidationIssue :=
  allIssues_fuel (S (json_depth value)) w attributePrefix textNodeKey el value path.

(* ===================================================================== *)
(** ** Include/import resolution (src/xsd/parser.ts, [parseXsdInternal])  *)
(* ===================================================================== *)

Record XsdParseError : Type := mkXsdParseError { parse_message : string }.

(** One schema document after tokenizing and after [parseElement],
    [parseComplexType] and the simple-type scan have been applied to its
    top-level declarations, each list in document order.  A declaration
    without [name] attribute carries the empty name. *)
Record RawSchema : Type := mkRawSchema {
  raw_targetNamespace : option string;
  (** the [xmlns:prefix="uri"] attributes of [xs:schema] *)
  raw_xmlns : list (string * string);
  raw_elements : list ElementDef;
  raw_complexTypes : list ComplexTypeDef;
  raw_simpleTypes : list SimpleTypeDef;
  (** [schemaLocation] of each [xs:include], [''] when absent *)
  raw_includes : list string;
  (** [namespace] and [schemaLocation] of each [xs:import] *)
  raw_imports : list (string * string);
}.

(** What reading and tokenizing a readable file leads to. *)
Inductive FileContent : Type :=
| Malformed
| WsdlWithoutSchema
| NoSchemaRoot
| SchemaDoc (raw : RawSchema).

(** The three registries [parseXsdInternal] fills. *)
Record Registries : Type := mkRegistries {
  reg_elements : JsMap ElementDef;
  reg_complexTypes : JsMap ComplexTypeDef;
  reg_simpleTypes : JsMap SimpleTypeDef;
}.

Definition emptyModel : SchemaModel := mkSchemaModel "" [] [] [] None.

(** [if (!target.has(k)) target.set(k, v)] *)
Definition setIfAbsent {V} (target : JsMap V) (k : string) (v : V) : JsMap V :=
  if Map_has target k then target else Map_set target k v.

(** [for (const [k, v] of source) if (!target.has(k)) target.set(k, v)] *)
Definition mergeAbsent {V} (target source : JsMap V) : JsMap V :=
  fold_left (fun acc kv => setIfAbsent acc (fst kv) (snd kv)) source target.

(** One round of the import loop over one registry: the bare name, then
    [pfx:name] for every collected prefix. *)
Definition registerPrefixed {V} (prefixes : list string) (acc : JsMap V)
    (kv : string * V) : JsMap V :=
  fold_left (fun a pfx => setIfAbsent a (pfx +:+ ":" +:+ fst kv) (snd kv))
    prefixes (setIfAbsent acc (fst kv) (snd kv)).

Definition mergePrefixed {V} (prefixes : list string) (target source : JsMap V)
  : JsMap V :=
  fold_left (registerPrefixed prefixes) source target.

Definition mergeIncluded (acc : Registries) (included : SchemaModel) : Registries :=
  mkRegistries
    (mergeAbsent (reg_elements acc) (elements included))
    (mergeAbsent (reg_complexTypes acc) (complexTypes included))
    (mergeAbsent (reg_simpleTypes acc) (simpleTypes included)).

Definition mergeImported (prefixes : list string) (acc : Registries)
    (imported : SchemaModel) : Registries :=
  mkRegistries
    (mergeAbsent (reg_elements acc) (elements imported))
    (mergePrefixed prefixes (reg_complexTypes acc) (complexTypes imported))
    (mergePrefixed prefixes (reg_simpleTypes acc) (simpleTypes imported)).

(** [prefixMap]: every declared prefix but [xs]. *)
Definition buildPrefixMap (xmlns : list (string * string)) : JsMap string :=
  fold_left
    (fun acc pu => if bool_decide (fst pu = "xs") then acc else Map_set acc (fst pu) (snd pu))
    xmlns [].

(** [for (const [pfx, uri] of prefixMap) if (uri === importNs) prefixes.push(pfx)] *)
Definition prefixesFor (prefixMap : JsMap string) (importNs : string) : list string :=
  map fst (filter (fun pu => snd pu = importNs) prefixMap).

(** The local collection loops: a later declaration of a name replaces an
    earlier one, and unnamed types are skipped. *)
Definition collectLocal (raw : RawSchema) : Registries :=
  mkRegistries
    (fold_left (fun acc el => Map_set acc (el_name el) el) (raw_elements raw) [])
    (fold_left
       (fun acc ct => if bool_decide (ct_name ct = "") then acc else Map_set acc (ct_name ct) ct)
       (raw_complexTypes raw) [])
    (fold_left
       (fun acc st => if bool_decide (st_name st = "") then acc else Map_set acc (st_name st) st)
       (raw_simpleTypes raw) []).

Definition localRoot (raw : RawSchema) : string :=
  match raw_elements raw with
  | [] => ""
  | first :: _ => el_name first
  end.

(** [rootElement || elements.keys().next().value || ''] *)
Definition effectiveRoot (rootElement : string) (elements : JsMap ElementDef) : string :=
  match truthy (Some rootElement) with
  | Some r => r
  | None => match Map_keys elements with k :: _ => k | [] => "" end
  end.

Section Parser.
(** [resolve] and [dirname] of node:path.  [resolve] receives the base
    directory when it is given and non-empty. *)
Variable path_resolve : option string -> string -> string.
Variable path_dirname : string -> string.
(** The readable files, by resolved path. *)
Variable fs : gmap string FileContent.

Section ParseLoops.
(** The recursive call [parseXsdInternal(schemaLocation, schemaBaseDir,
    visited)]; the visited set is shared, so the call hands it back. *)
Variable rec : string -> option string -> gset string
               -> Completion XsdParseError SchemaModel * gset string.

(** The [xs:include] loop; a throwing include is skipped by the
    [try]/[catch].  [None] only when the fuel ran out. *)
Fixpoint processIncludes (includes : list string) (schemaBaseDir : string)
    (acc : Registries) (visited : gset string) : option (Registries * gset string) :=
  match includes with
  | [] => Some (acc, visited)
  | schemaLocation :: rest =>
      match truthy (Some schemaLocation) with
      | None => processIncludes rest schemaBaseDir acc visited
      | Some loc =>
          match rec loc (Some schemaBaseDir) visited with
          | (Returned includedModel, visited') =>
              processIncludes rest schemaBaseDir (mergeIncluded acc includedModel) visited'
          | (Thrown _, visited') => processIncludes rest schemaBaseDir acc visited'
          | (OutOfFuel, _) => None
          end
      end
  end.

(** The [xs:import] loop. *)
Fixpoint processImports (prefixMap : JsMap string) (imports : list (string * string))
    (schemaBaseDir : string) (acc : Registries) (visited : gset string)
  : option (Registries * gset string) :=
  match imports with
  | [] => Some (acc, visited)
  | (importNs, schemaLocation) :: rest =>
      match truthy (Some schemaLocation) with
      | None => processImports prefixMap rest schemaBaseDir acc visited
      | Some loc =>
          match rec loc (Some schemaBaseDir) visited with
          | (Returned importedModel, visited') =>
              processImports prefixMap rest schemaBaseDir
                (mergeImported (prefixesFor prefixMap importNs) acc importedModel)
                visited'
          | (Thrown _, visited') =>
              processImports prefixMap rest schemaBaseDir acc visited'
          | (OutOfFuel, _) => None
          end
      end
  end.
End ParseLoops.

Definition cannotRead (resolvedPath : string) : XsdParseError :=
  mkXsdParseError ("Cannot read XSD file: " +:+ resolvedPath).
Definition failedToParse (resolvedPath : string) : XsdParseError :=
  mkXsdParseError ("Failed to parse XSD/WSDL content from: " +:+ resolvedPath).
Definition invalidWsdl (resolvedPath : string) : XsdParseError :=
  mkXsdParseError ("Invalid WSDL: no <types>/<schema> element found in " +:+ resolvedPath).
Definition invalidXsd (resolvedPath : string) : XsdParseError :=
  mkXsdParseError ("Invalid XSD: root element <xs:schema> not found in " +:+ resolvedPath).

Fixpoint parseXsdInternal_fuel (fuel : nat) (xsdPath : string) (baseDir : option string)
    (visited : gset string) : Completion XsdParseError SchemaModel * gset string :=
  match fuel with
  | O => (OutOfFuel, visited)
  | S fuel' =>
      let resolvedPath := path_resolve (truthy baseDir) xsdPath in
      if bool_decide (resolvedPath ∈ visited) then (Returned emptyModel, visited)
      else
        let visited1 := {[ resolvedPath ]} ∪ visited in
        match fs !! resolvedPath with
        | None => (Thrown (cannotRead resolvedPath), visited1)
        | Some Malformed => (Thrown (failedToParse resolvedPath), visited1)
        | Some WsdlWithoutSchema => (Thrown (invalidWsdl resolvedPath), visited1)
        | Some NoSchemaRoot => (Thrown (invalidXsd resolvedPath), visited1)
        | Some (SchemaDoc raw) =>
            let prefixMap := buildPrefixMap (raw_xmlns raw) in
            let schemaBaseDir := path_dirname resolvedPath in
            match
              processIncludes (parseXsdInternal_fuel fuel') (raw_includes raw)
                schemaBaseDir (collectLocal raw) visited1
            with
            | None => (OutOfFuel, visited1)
            | Some (acc1, visited2) =>
                match
                  processImports (parseXsdInternal_fuel fuel') prefixMap
                    (raw_imports raw) schemaBaseDir acc1 visited2
                with
                | None => (OutOfFuel, visited2)
                | Some (acc2, visited3) =>
                    (Returned
                       (mkSchemaModel
                          (effectiveRoot (localRoot raw) (reg_elements acc2))
                          (reg_elements acc2) (reg_complexTypes acc2)
                          (reg_simpleTypes acc2) (raw_targetNamespace raw)),
                     visited3)
                end
            end
        end
  end.

(** The locations a schema document refers to, includes first. *)
Definition schemaLocations (raw : RawSchema) : list string :=
  raw_includes raw ++ map snd (raw_imports raw).

(** The file at [self] names, by [xs:include] or [xs:import], a location
    that resolves to [target]. *)
Definition refersTo (self : string) (raw : RawSchema) (target : string) : Prop :=
  exists loc,
    In loc (schemaLocations raw) /\ loc <> "" /\
    path_resolve (truthy (Some (path_dirname self))) loc = target.

(** A name of [names], possibly qualified by namespace prefixes. *)
Inductive qualifiedFrom (names : string -> Prop) : string -> Prop :=
| qualified_bare k : names k -> qualifiedFrom names k
| qualified_prefix pfx k :
    qualifiedFrom names k -> qualifiedFrom names (pfx +:+ ":" +:+ k).

Section RegistryField.
(** One of the three registries, seen through its projections. *)
Context {V : Type}.
Variable regOf : Registries -> JsMap V.
Variable modelOf : SchemaModel -> JsMap V.

(** [v] is a definition declared by a schema document first read between
    the visited sets [before] and [after]. *)
Definition fromNewFile (before after : gset string) (v : V) : Prop :=
  exists p raw,
    p ∈ after /\ (p ∉ before) /\ fs !! p = Some (SchemaDoc raw) /\
    In v (Map_values (regOf (collectLocal raw))).

(** [k] is a name declared by such a document. *)
Definition declaredBetween (before after : gset string) (k : string) : Prop :=
  exists p raw,
    p ∈ after /\ (p ∉ before) /\ fs !! p = Some (SchemaDoc raw) /\
    In k (Map_keys (regOf (collectLocal raw))).

(** What a call leaves behind: a returned model has unique keys, holds
    every name declared by the documents read during the call, and holds
    nothing but their definitions, under their names or prefixed names; a
    throwing call read no document. *)
Definition goodOutcome (before : gset string)
    (r : Completion XsdParseError SchemaModel * gset string) : Prop :=
  match r with
  | (Returned m, after) =>
      NoDup (Map_keys (modelOf m)) /\
      (forall p raw k,
          p ∈ after -> p ∉ before -> fs !! p = Some (SchemaDoc raw) ->
          In k (Map_keys (regOf (collectLocal raw))) -> In k (Map_keys (modelOf m))) /\
      (forall v, In v (Map_values (modelOf m)) -> fromNewFile before after v) /\
      (forall k, In k (Map_keys (modelOf m)) ->
                 qualifiedFrom (declaredBetween before after) k)
  | (Thrown _, after) =>
      forall p raw, p ∈ after -> p ∉ before -> fs !! p <> Some (SchemaDoc raw)
  | (OutOfFuel, _) => True
  end.

(** The same, of a registry being filled while the visited set stands at
    [now]. *)
Definition goodRegistry (before now : gset string) (reg : JsMap V) : Prop :=
  before ⊆ now /\
  NoDup (Map_keys reg) /\
  (forall p raw k,
      p ∈ now -> p ∉ before -> fs !! p = Some (SchemaDoc raw) ->
      In k (Map_keys (regOf (collectLocal raw))) -> In k (Map_keys reg)) /\
  (forall v, In v (Map_values reg) -> fromNewFile before now v) /\
  (forall k, In k (Map_keys reg) -> qualifiedFrom (declaredBetween before now) k).
End RegistryField.

(** Every call that goes past the visited check and finds its file marks
    one more readable file, so the number of readable files bounds the
    nesting of calls. *)
Definition parseFuel (visited : gset string) : nat := S (size (dom fs ∖ visited)).

(** [parseXsd(xsdPath, baseDir)] *)
Definition parseXsd (xsdPath : string) (baseDir : option string)
  : Completion XsdParseError SchemaModel :=
  fst (parseXsdInternal_fuel (parseFuel ∅) xsdPath baseDir ∅).
End Parser.

(* ===================================================================== *)
(** ** Sample schemas                                                     *)
(* ===================================================================== *)

(** What the parser produces for [<xs:element name=n type=ty/>]. *)
Definition typedElement (n ty : string) : ElementDef :=
  mkElementDef n (Some ty) None 1 (occursN 1) [] [] None false.

Definition leafElement (n : string) : ElementDef := typedElement n "xs:string".

(** Two types extending each other. *)
Definition cycT : ComplexTypeDef :=
  mkComplexTypeDef "T" c_sequence [leafElement "t"] [] false (Some "B") None.
Definition cycB : ComplexTypeDef :=
  mkComplexTypeDef "B" c_sequence [leafElement "b"] [] false (Some "T") None.
Definition cyclicWalker : SchemaWalker :=
  mkSchemaWalker
    (mkSchemaModel "r" [("r", typedElement "r" "T")] [("T", cycT); ("B", cycB)] [] None).

(** A derived type over a base type. *)
Definition baseType : ComplexTypeDef :=
  mkComplexTypeDef "Base" c_sequence [leafElement "id"; leafElement "name"] [] false None None.
Definition derivedType : ComplexTypeDef :=
  mkComplexTypeDef "Derived" c_sequence [leafElement "extra"] [] false (Some "Base") None.
Definition derivedWalker : SchemaWalker :=
  mkSchemaWalker
    (mkSchemaModel "d" [("d", typedElement "d" "Derived")]
       [("Base", baseType); ("Derived", derivedType)] [] None).

Definition emptyWalker : SchemaWalker := mkSchemaWalker (mkSchemaModel "" [] [] [] None).







(** A person with a required [id] attribute and one [name] child, declared
    with [maxOccurs] 1. *)
Definition personType : ComplexTypeDef :=
  mkComplexTypeDef "PersonType" c_sequence [leafElement "name"]
    [mkAttributeDef "id" "xs:string" required None None] false None None.

Definition personWalker : SchemaWalker :=
  mkSchemaWalker
    (mkSchemaModel "person" [("person", typedElement "person" "PersonType")]
       [("PersonType", personType)] [] None).

Definition defaultOptions : BuildOptions :=
  mkBuildOptions false true "UTF-8" "@" "#text" None.

(** Two schema documents including each other (the cycle-a / cycle-b test
    fixtures), and a pair tied by an import one way and an include back. *)
Definition namedType (n : string) : ComplexTypeDef :=
  mkComplexTypeDef n c_sequence [] [] false None None.

Definition cycleA : RawSchema :=
  mkRawSchema None [] [typedElement "rootA" "TypeA"] [namedType "TypeA"] []
    ["cycle-b.xsd"] [].

Definition cycleB : RawSchema :=
  mkRawSchema None [] [] [namedType "TypeB"] [] ["cycle-a.xsd"] [].

Definition cycleFiles : gmap string FileContent :=
  <[ "cycle-a.xsd" := SchemaDoc cycleA ]> (<[ "cycle-b.xsd" := SchemaDoc cycleB ]> ∅).

Definition mixedA : RawSchema :=
  mkRawSchema (Some "urn:a") [("xs", "http://www.w3.org/2001/XMLSchema"); ("b", "urn:b")]
    [typedElement "rootA" "TypeA"] [namedType "TypeA"; namedType "Shared"] []
    [] [("urn:b", "mixed-b.xsd")].

Definition mixedB : RawSchema :=
  mkRawSchema (Some "urn:b") [] [] [namedType "TypeB"; namedType "Shared"]
    [mkSimpleTypeDef "Code" "xs:string"] ["mixed-a.xsd"] [].

Definition mixedFiles : gmap string FileContent :=
  <[ "mixed-a.xsd" := SchemaDoc mixedA ]> (<[ "mixed-b.xsd" := SchemaDoc mixedB ]> ∅).





(** Paths as plain names in one directory. *)
Definition flatResolve (baseDir : option string) (p : string) : string := p.
Definition flatDirname (p : string) : string := "".

(** The three registries of a returned model have no duplicate key. *)
Definition keysUnique (r : Completion XsdParseError SchemaModel) : Prop :=
  match r with
  | Returned m =>
      NoDup (Map_keys (elements m)) /\
      NoDup (Map_keys (complexTypes m)) /\
      NoDup (Map_keys (simpleTypes m))
  | _ => True
  end.

(* ===================================================================== *)
(** ** Walker: further lookups, and registries filed by name             *)
(* ===================================================================== *)

(** [findChildElement(children, name)] *)
Definition findChildElement (children : list ElementDef) (name : string)
  : option ElementDef :=
  List.find (fun c => bool_decide (el_name c = name)) children.

(** Every complex type of the registry is filed under its own name; the
    local collection loops of the parser file types this way. *)
Definition keyedByName (w : SchemaWalker) : bool :=
  forallb (fun kv => bool_decide (ct_name (snd kv) = fst kv)) (complexTypes (schema w)).

(** The visited names are closed along [extends] up to [ct]: the registered
    base of a registered, visited type is visited as well, or is [ct]. *)
Definition visitedClosed (w : SchemaWalker) (visited : gset string) (ct : ComplexTypeDef)
  : Prop :=
  forall c base baseCt,
    lookupComplexType w (ct_name c) = Some c ->
    ct_name c ∈ visited ->
    truthy (ct_extends c) = Some base ->
    lookupComplexType w base = Some baseCt ->
    ct_name baseCt ∈ visited \/ baseCt = ct.

(* ===================================================================== *)
(** ** Occurrence bounds (src/xsd/parser.ts, [parseOccurs])               *)
(* ===================================================================== *)

(** [Number.parseInt(s, 10)] on ASCII text: white space is skipped, then an
    optional sign and the longest run of decimal digits are read; without a
    digit the result is NaN, here [None].  Numbers are exact integers;
    JavaScript's agree with them below 2^53. *)
Definition isDigitChar (c : ascii) : bool :=
  let n := nat_of_ascii c in (48 <=? n)%nat && (n <=? 57)%nat.

Definition digitOf (c : ascii) : Z := Z.of_nat (nat_of_ascii c - 48).

Definition isWhiteSpaceChar (c : ascii) : bool :=
  let n := nat_of_ascii c in ((9 <=? n)%nat && (n <=? 13)%nat) || (n =? 32)%nat.

(** The model reads text byte by byte; it stands for [parseInt] on text of
    ASCII characters, where JavaScript's white space is the six characters
    above. *)
Definition isAsciiChar (c : ascii) : bool := (nat_of_ascii c <? 128)%nat.

Fixpoint isAsciiText (s : string) : bool :=
  match s with
  | String c r => isAsciiChar c && isAsciiText r
  | EmptyString => true
  end.

Fixpoint trimStart (s : string) : string :=
  match s with
  | String c r => if isWhiteSpaceChar c then trimStart r else s
  | EmptyString => EmptyString
  end.

(** The value of the longest run of digits at the start of [s], read after
    the digits already summed up in [acc]. *)
Fixpoint digitsValue (s : string) (acc : Z) : Z :=
  match s with
  | String c r => if isDigitChar c then digitsValue r (10 * acc + digitOf c) else acc
  | EmptyString => acc
  end.

Definition startsWithDigit (s : string) : bool :=
  match s with
  | String c _ => isDigitChar c
  | EmptyString => false
  end.

Definition parseInt10 (s : string) : option Z :=
  let trimmed := trimStart s in
  let signed :=
    match trimmed with
    | String c r =>
        if Ascii.eqb c "-" then (-1, r)%Z
        else if Ascii.eqb c "+" then (1, r)%Z
        else (1, trimmed)%Z
    | EmptyString => (1, trimmed)%Z
    end in
  if startsWithDigit (snd signed) then Some (fst signed * digitsValue (snd signed) 0)%Z
  else None.

(** [parseOccurs(value)]; [None] is [undefined]. *)
Definition parseOccurs (value : option string) : Occurs :=
  match value with
  | None => occursN 1
  | Some v =>
      if bool_decide (v = "unbounded") then unbounded
      else match parseInt10 v with
           | Some n => occursN n
           | None => occursN 1
           end
  end.

(* ===================================================================== *)
(** ** Names on which the embedding is exact                              *)
(* ===================================================================== *)

(** Three built-ins are embedded on part of their domain only.
    - [toLowerCase] folds the ASCII letters; JavaScript's folds every
      letter, and is the same function on ASCII text.
    - [js_get] reads own properties; JavaScript's [obj[key]] goes on to
      [Object.prototype], whose members are listed below, and is the same
      read for every other key.
    - [ele] and [att] name the new element or attribute literally;
      xmlbuilder2 does so for a name it accepts, throws its own
      InvalidCharacterError for a text that is no XML name, and reads a
      text starting with an angle bracket, a brace or a bracket as a
      fragment to parse.  The plain names below are names it accepts.
    The predicates of this section say of a schema, an element and a JSON
    value that no call made on them leaves these parts. *)

Definition isLetterChar (c : ascii) : bool :=
  let n := nat_of_ascii c in
  ((65 <=? n)%nat && (n <=? 90)%nat) || ((97 <=? n)%nat && (n <=? 122)%nat).

Definition isNameStartChar (c : ascii) : bool :=
  isLetterChar c || (nat_of_ascii c =? 95)%nat.

Definition isNameChar (c : ascii) : bool :=
  isNameStartChar c || isDigitChar c
  || (nat_of_ascii c =? 45)%nat || (nat_of_ascii c =? 46)%nat.

Fixpoint allChars (p : ascii -> bool) (s : string) : bool :=
  match s with
  | String c r => p c && allChars p r
  | EmptyString => true
  end.

(** An XML name written with ASCII letters, digits, [_], [-] and [.],
    starting with a letter or [_], and outside the names reserved for XML
    itself (those starting with [xml] in any case, [xmlns] among them). *)
Definition isPlainName (s : string) : bool :=
  match s with
  | String c r =>
      isNameStartChar c && allChars isNameChar r
      && negb (startsWith (toLowerCase s) "xml")
  | EmptyString => false
  end.

(** The property names every object inherits from [Object.prototype]. *)
Definition Object_prototype_keys : list string :=
  [ "constructor"; "hasOwnProperty"; "isPrototypeOf"; "propertyIsEnumerable";
    "toLocaleString"; "toString"; "valueOf"; "__defineGetter__";
    "__defineSetter__"; "__lookupGetter__"; "__lookupSetter__"; "__proto__" ].

(** [obj[key]] is a read of an own property whatever [obj] holds. *)
Definition ownRead (key : string) : bool :=
  negb (bool_decide (key ∈ Object_prototype_keys)).

Section SchemaNames.
(** What is asked of an element name and of an attribute name. *)
Variable okElement : string -> bool.
Variable okAttribute : string -> bool.

(** Every name declared by an element, at any depth: its own, those of its
    attributes and children, and those of its inline type. *)
Fixpoint allNamesOfElement (el : ElementDef) : bool :=
  okElement (el_name el)
  && forallb (fun a => okAttribute (attr_name a)) (el_attributes el)
  && forallb allNamesOfElement (el_children el)
  && match el_inlineComplexType el with
     | Some ct => allNamesOfType ct
     | None => true
     end
with allNamesOfType (ct : ComplexTypeDef) : bool :=
  forallb allNamesOfElement (ct_elements ct)
  && forallb (fun a => okAttribute (attr_name a)) (ct_attributes ct).

(** Every name of a schema: the keys and definitions of the element
    registry and the definitions of the complex type registry. *)
Definition allNamesOfSchema (w : SchemaWalker) : bool :=
  forallb (fun kv => okElement (fst kv) && allNamesOfElement (snd kv))
    (elements (schema w))
  && forallb (fun kv => allNamesOfType (snd kv)) (complexTypes (schema w)).
End SchemaNames.

(** The validator reads [obj[childEl.name]], [obj[prefix + attrDef.name]]
    and [json[rootName]]: none of them reaches [Object.prototype]. *)
Definition validatorExact (w : SchemaWalker) (attributePrefix : string) (el : ElementDef)
  : bool :=
  allNamesOfSchema ownRead (fun n => ownRead (attributePrefix +:+ n)) w
  && allNamesOfElement ownRead (fun n => ownRead (attributePrefix +:+ n)) el.

(** A JSON key the builder can meet under [xs:any]: ASCII text, and the
    text key, or a plain name once the attribute prefix is taken off, or a
    plain name. *)
Definition passableKey (attributePrefix textNodeKey key : string) : bool :=
  isAsciiText key
  && (bool_decide (key = textNodeKey)
      || if startsWith key attributePrefix
         then isPlainName (slice key (String.length attributePrefix))
         else isPlainName key).

(** Every key of every object of a JSON value is passable. *)
Fixpoint passableJson (attributePrefix textNodeKey : string) (v : JsonValue) : bool :=
  match v with
  | JArray items => forallb (passableJson attributePrefix textNodeKey) items
  | JObject props =>
      forallb
        (fun kv =>
           passableKey attributePrefix textNodeKey (fst kv)
           && passableJson attributePrefix textNodeKey (snd kv))
        props
  | _ => true
  end.

(** The builder on [el] and [value]: case is folded on ASCII text only, the
    one read through [obj[textNodeKey]] is an own read, and every name handed
    to xmlbuilder2 is a plain name. *)
Definition builderExact (w : SchemaWalker) (o : BuildOptions) (el : ElementDef)
    (value : JsonValue) : bool :=
  isAsciiText (attributePrefix o)
  && ownRead (textNodeKey o)
  && allNamesOfSchema isPlainName isPlainName w
  && allNamesOfElement isPlainName isPlainName el
  && passableJson (attributePrefix o) (textNodeKey o) value.

(* ===================================================================== *)
(** ** Converter (src/converter.ts)                                       *)
(* ===================================================================== *)

(** [ConverterOptions]: every option may be left out. *)
Record ConverterOptions : Type := mkConverterOptions {
  co_prettyPrint : option bool;
  co_xmlDeclaration : option bool;
  co_xsdBaseDir : option string;
  co_encoding : option string;
  co_attributePrefix : option string;
  co_textNodeKey : option string;
  co_strict : option bool;
  co_rootElement : option string;
}.

(** The three errors [convertJsonToXml] is documented to throw. *)
Inductive ConvertError : Type :=
| ParseFailed (e : XsdParseError)
| ValidationFailed (e : XsdValidationError)
| MappingFailed (e : XsdMappingError).

Definition mapThrown {E E' A} (f : E -> E') (c : Completion E A) : Completion E' A :=
  match c with
  | Returned a => Returned a
  | Thrown e => Thrown (f e)
  | OutOfFuel => OutOfFuel
  end.

(** [{ ...rawModel, rootElement: name }] *)
Definition withRoot (rawModel : SchemaModel) (name : string) : SchemaModel :=
  mkSchemaModel name (elements rawModel) (complexTypes rawModel) (simpleTypes rawModel)
    (targetNamespace rawModel).

(** The choice of the effective root element in [convertJsonToXml]:
    the explicit option when it names a known element, else the single key
    of the JSON when it names a known element, else the schema's default. *)
Definition selectRoot (rawModel : SchemaModel) (json : JsonObject)
    (rootElementOverride : option string) : SchemaModel :=
  let jsonKeys := Object_keys json in
  let fromJson :=
    match jsonKeys with
    | [key] =>
        if Map_has (elements rawModel) key
           && negb (bool_decide (key = rootElement rawModel))
        then withRoot rawModel key
        else rawModel
    | _ => rawModel
    end in
  match truthy rootElementOverride with
  | Some override =>
      if Map_has (elements rawModel) override then
        if negb (bool_decide (override = rootElement rawModel))
        then withRoot rawModel override
        else rawModel
      else fromJson
  | None => fromJson
  end.

Section Converter.
Variable path_resolve : option string -> string -> string.
Variable path_dirname : string -> string.
Variable fs : gmap string FileContent.

(** [convertJsonToXml(json, xsdPath, options)], up to the rendering of the
    document. *)
Definition convertJsonToXml (json : JsonObject) (xsdPath : string)
    (options : ConverterOptions) : Completion ConvertError XmlNode :=
  let prettyPrint := default false (co_prettyPrint options) in
  let xmlDeclaration := default true (co_xmlDeclaration options) in
  let encoding := default "UTF-8" (co_encoding options) in
  let attributePrefix := default "@" (co_attributePrefix options) in
  let textNodeKey := default "#text" (co_textNodeKey options) in
  let strict := default false (co_strict options) in
  let* rawModel :=
    mapThrown ParseFailed
      (parseXsd path_resolve path_dirname fs xsdPath (co_xsdBaseDir options)) in
  let schemaModel := selectRoot rawModel json (co_rootElement options) in
  let walker := mkSchemaWalker schemaModel in
  let* _ :=
    (if strict
     then mapThrown ValidationFailed (validateJson json walker attributePrefix textNodeKey)
     else Returned tt) in
  mapThrown MappingFailed
    (buildXml json walker
       (mkBuildOptions prettyPrint xmlDeclaration encoding attributePrefix textNodeKey
          (targetNamespace schemaModel))).
End Converter.

(** [{ ...options, strict }] *)
Definition withStrict (options : ConverterOptions) (strict : bool) : ConverterOptions :=
  mkConverterOptions (co_prettyPrint options) (co_xmlDeclaration options)
    (co_xsdBaseDir options) (co_encoding options) (co_attributePrefix options)
    (co_textNodeKey options) (Some strict) (co_rootElement options).

Definition noOptions : ConverterOptions :=
  mkConverterOptions None None None None None None None None.

(* ===================================================================== *)
(** ** Further sample schemas and files                                   *)
(* ===================================================================== *)

(** An employee extends the person: one more attribute, with a default,
    and one more child. *)
Definition employeeType : ComplexTypeDef :=
  mkComplexTypeDef "EmployeeType" c_sequence [leafElement "role"]
    [mkAttributeDef "badge" "xs:string" optional (Some "none") None]
    false (Some "PersonType") None.

Definition employeeWalker : SchemaWalker :=
  mkSchemaWalker
    (mkSchemaModel "employee"
       [("employee", typedElement "employee" "EmployeeType");
        ("person", typedElement "person" "PersonType")]
       [("PersonType", personType); ("EmployeeType", employeeType)] [] None).

(** An envelope accepting any content, and a type derived from it. *)
Definition envelopeType : ComplexTypeDef :=
  mkComplexTypeDef "EnvelopeType" c_sequence [leafElement "header"] [] false None (Some true).

Definition signedEnvelopeType : ComplexTypeDef :=
  mkComplexTypeDef "SignedEnvelopeType" c_sequence [leafElement "signature"] [] false
    (Some "EnvelopeType") None.

Definition envelopeWalker : SchemaWalker :=
  mkSchemaWalker
    (mkSchemaModel "envelope"
       [("envelope", typedElement "envelope" "SignedEnvelopeType")]
       [("EnvelopeType", envelopeType); ("SignedEnvelopeType", signedEnvelopeType)] [] None).

(** A price: text content with a [currency] attribute defaulting to EUR
    (an [xs:simpleContent] extension). *)
Definition priceType : ComplexTypeDef :=
  mkComplexTypeDef "PriceType" c_sequence []
    [mkAttributeDef "currency" "xs:string" optional (Some "EUR") None] true None None.

Definition priceWalker : SchemaWalker :=
  mkSchemaWalker
    (mkSchemaModel "price" [("price", typedElement "price" "PriceType")]
       [("PriceType", priceType)] [] None).

(** A schema file declaring the person, and a type library without any
    element. *)
Definition personSchema : RawSchema :=
  mkRawSchema None [] [typedElement "person" "PersonType"; typedElement "guest" "PersonType"]
    [personType] [] ["missing.xsd"] [].

Definition typesOnlySchema : RawSchema :=
  mkRawSchema None [] [] [personType] [] [] [].

Definition personFiles : gmap string FileContent :=
  <[ "person.xsd" := SchemaDoc personSchema ]>
    (<[ "types.xsd" := SchemaDoc typesOnlySchema ]>
       (<[ "broken.xsd" := Malformed ]> ∅)).

(** A schema file declaring the element [item] twice, and including a file
    that declares it once more. *)
Definition twiceSchema : RawSchema :=
  mkRawSchema None [] [typedElement "item" "xs:string"; typedElement "item" "xs:int"]
    [] [] ["once.xsd"] [].

Definition onceSchema : RawSchema :=
  mkRawSchema None [] [typedElement "item" "xs:date"; typedElement "other" "xs:date"]
    [] [] [] [].

Definition twiceFiles : gmap string FileContent :=
  <[ "twice.xsd" := SchemaDoc twiceSchema ]> (<[ "once.xsd" := SchemaDoc onceSchema ]> ∅).

(* ********************************************************************* *)
(** * Properties                                                          *)
(* ********************************************************************* *)

(* ===================================================================== *)
(** ** Walker: the resolvers always return                                *)
(* ===================================================================== *)

Section WalkerFacts.
Variable w : SchemaWalker.

Lemma Map_get_In {V} (m : JsMap V) k v : Map_get m k = Some v -> In (k, v) m.
Proof.
  induction m as [|[k' v'] m IH]; simpl; [discriminate|].
  case_bool_decide as Hk; intros Hget.
  - injection Hget as ->. subst. now left.
  - right. auto.
Qed.

Lemma typeNames_registered base ct :
  Map_get (complexTypes (schema w)) base = Some ct -> ct_name ct ∈ typeNames w.
Proof.
  intros H. apply Map_get_In in H. unfold typeNames, Map_values.
  apply elem_of_list_to_set, list_elem_of_In, in_map_iff.
  exists ct. split; [reflexivity|].
  apply in_map_iff. exists (base, ct). auto.
Qed.

Lemma unvisited_shrinks (n : string) (visited : gset string) :
  n ∈ typeNames w -> n ∉ visited ->
  size (typeNames w ∖ ({[ n ]} ∪ visited)) < size (typeNames w ∖ visited).
Proof.
  intros Hin Hnot. apply subset_size. set_solver.
Qed.

Lemma resolveAllElements_fuel_S fuel ct visited :
  resolveAllElements_fuel (S fuel) w ct visited =
  if bool_decide (ct_name ct ∈ visited) then Some (ct_elements ct)
  else match truthy (ct_extends ct) with
       | None => Some (ct_elements ct)
       | Some base =>
           match Map_get (complexTypes (schema w)) base with
           | None => Some (ct_elements ct)
           | Some baseCt =>
               match resolveAllElements_fuel fuel w baseCt ({[ ct_name ct ]} ∪ visited) with
               | Some inherited => Some (inherited ++ ct_elements ct)
               | None => None
               end
           end
       end.
Proof. reflexivity. Qed.

Lemma resolveAllAttributes_fuel_S fuel ct visited :
  resolveAllAttributes_fuel (S fuel) w ct visited =
  if bool_decide (ct_name ct ∈ visited) then Some (ct_attributes ct)
  else match truthy (ct_extends ct) with
       | None => Some (ct_attributes ct)
       | Some base =>
           match Map_get (complexTypes (schema w)) base with
           | None => Some (ct_attributes ct)
           | Some baseCt =>
               match resolveAllAttributes_fuel fuel w baseCt ({[ ct_name ct ]} ∪ visited) with
               | Some inherited => Some (inherited ++ ct_attributes ct)
               | None => None
               end
           end
       end.
Proof. reflexivity. Qed.

Lemma resolveHasWildcard_fuel_S fuel ct visited :
  resolveHasWildcard_fuel (S fuel) w ct visited =
  match ct_hasWildcard ct with
  | Some true => Some true
  | _ =>
      match truthy (ct_extends ct) with
      | None => Some false
      | Some base =>
          if bool_decide (ct_name ct ∈ visited) then Some false
          else match Map_get (complexTypes (schema w)) base with
               | Some baseCt =>
                   resolveHasWildcard_fuel fuel w baseCt ({[ ct_name ct ]} ∪ visited)
               | None => Some false
               end
      end
  end.
Proof. reflexivity. Qed.

Lemma resolveAllElements_fuel_enough fuel ct visited :
  ct_name ct ∈ typeNames w ->
  size (typeNames w ∖ visited) < fuel ->
  is_Some (resolveAllElements_fuel fuel w ct visited).
Proof.
  revert ct visited. induction fuel as [|fuel IH]; intros ct visited Hin Hlt; [lia|].
  simpl. case_bool_decide as Hv; [eauto|].
  destruct (truthy (ct_extends ct)) as [base|]; [|eauto].
  destruct (Map_get _ base) as [baseCt|] eqn:Hb; [|eauto].
  destruct (IH baseCt ({[ct_name ct]} ∪ visited)) as [l Hl].
  - eapply typeNames_registered; eauto.
  - pose proof (unvisited_shrinks (ct_name ct) visited Hin Hv). lia.
  - rewrite Hl. eauto.
Qed.

Lemma resolveAllElements_fuel_mono fuel fuel' ct visited l :
  resolveAllElements_fuel fuel w ct visited = Some l ->
  fuel <= fuel' ->
  resolveAllElements_fuel fuel' w ct visited = Some l.
Proof.
  revert fuel' ct visited l.
  induction fuel as [|fuel IH]; intros fuel' ct visited l H Hle; [discriminate|].
  destruct fuel' as [|fuel']; [lia|]. simpl in *.
  case_bool_decide; [assumption|].
  destruct (truthy (ct_extends ct)) as [base|]; [|assumption].
  destruct (Map_get _ base) as [baseCt|]; [|assumption].
  destruct (resolveAllElements_fuel fuel w baseCt _) as [inh|] eqn:E; [|discriminate].
  rewrite (IH fuel' _ _ inh E) by lia. assumption.
Qed.

(** The top-level call may start from an inline type, whose name need not
    be registered: it costs one extra unit of fuel. *)
Lemma resolveAllElements_returns ct :
  is_Some (resolveAllElements_fuel (walkerFuel w) w ct ∅).
Proof.
  unfold walkerFuel. rewrite resolveAllElements_fuel_S. case_bool_decide; [eauto|].
  destruct (truthy (ct_extends ct)) as [base|]; [|eauto].
  destruct (Map_get _ base) as [baseCt|] eqn:Hb; [|eauto].
  destruct (resolveAllElements_fuel_enough (S (size (typeNames w))) baseCt
              ({[ct_name ct]} ∪ ∅)) as [l Hl].
  - eapply typeNames_registered; eauto.
  - assert (size (typeNames w ∖ ({[ct_name ct]} ∪ ∅)) <= size (typeNames w)); [|lia].
    apply subseteq_size. set_solver.
  - rewrite Hl. eauto.
Qed.

Lemma resolveAllAttributes_fuel_enough fuel ct visited :
  ct_name ct ∈ typeNames w ->
  size (typeNames w ∖ visited) < fuel ->
  is_Some (resolveAllAttributes_fuel fuel w ct visited).
Proof.
  revert ct visited. induction fuel as [|fuel IH]; intros ct visited Hin Hlt; [lia|].
  simpl. case_bool_decide as Hv; [eauto|].
  destruct (truthy (ct_extends ct)) as [base|]; [|eauto].
  destruct (Map_get _ base) as [baseCt|] eqn:Hb; [|eauto].
  destruct (IH baseCt ({[ct_name ct]} ∪ visited)) as [l Hl].
  - eapply typeNames_registered; eauto.
  - pose proof (unvisited_shrinks (ct_name ct) visited Hin Hv). lia.
  - rewrite Hl. eauto.
Qed.

Lemma resolveAllAttributes_returns ct :
  is_Some (resolveAllAttributes_fuel (walkerFuel w) w ct ∅).
Proof.
  unfold walkerFuel. rewrite resolveAllAttributes_fuel_S. case_bool_decide; [eauto|].
  destruct (truthy (ct_extends ct)) as [base|]; [|eauto].
  destruct (Map_get _ base) as [baseCt|] eqn:Hb; [|eauto].
  destruct (resolveAllAttributes_fuel_enough (S (size (typeNames w))) baseCt
              ({[ct_name ct]} ∪ ∅)) as [l Hl].
  - eapply typeNames_registered; eauto.
  - assert (size (typeNames w ∖ ({[ct_name ct]} ∪ ∅)) <= size (typeNames w)); [|lia].
    apply subseteq_size. set_solver.
  - rewrite Hl. eauto.
Qed.

Lemma resolveHasWildcard_fuel_enough fuel ct visited :
  ct_name ct ∈ typeNames w ->
  size (typeNames w ∖ visited) < fuel ->
  is_Some (resolveHasWildcard_fuel fuel w ct visited).
Proof.
  revert ct visited. induction fuel as [|fuel IH]; intros ct visited Hin Hlt; [lia|].
  simpl. destruct (ct_hasWildcard ct) as [[|]|]; eauto.
  all: destruct (truthy (ct_extends ct)) as [base|]; [|eauto].
  all: case_bool_decide as Hv; [eauto|].
  all: destruct (Map_get _ base) as [baseCt|] eqn:Hb; [|eauto].
  all: apply IH; [eapply typeNames_registered; eauto|].
  all: pose proof (unvisited_shrinks (ct_name ct) visited Hin Hv); lia.
Qed.

Lemma resolveHasWildcard_returns ct :
  is_Some (resolveHasWildcard_fuel (walkerFuel w) w ct ∅).
Proof.
  unfold walkerFuel. rewrite resolveHasWildcard_fuel_S.
  destruct (ct_hasWildcard ct) as [[|]|]; eauto.
  all: destruct (truthy (ct_extends ct)) as [base|]; [|eauto].
  all: case_bool_decide as Hv; [eauto|].
  all: destruct (Map_get _ base) as [baseCt|] eqn:Hb; [|eauto].
  all: apply resolveHasWildcard_fuel_enough; [eapply typeNames_registered; eauto|].
  all: assert (size (typeNames w ∖ ({[ct_name ct]} ∪ ∅)) <= size (typeNames w)); [|lia].
  all: apply subseteq_size; set_solver.
Qed.

(** A name that no type of the chain carries can be added to or dropped
    from the visited set without changing the resolution. *)
Lemma resolveAllElements_fuel_foreign fuel ct n visited :
  (forall c, extendsReach w ct c -> ct_name c <> n) ->
  resolveAllElements_fuel fuel w ct ({[ n ]} ∪ visited)
  = resolveAllElements_fuel fuel w ct visited.
Proof.
  revert ct visited. induction fuel as [|fuel IH]; intros ct visited Hfar; [reflexivity|].
  simpl. pose proof (Hfar ct (reach_here w ct)) as Hne.
  assert (ct_name ct ∈ {[n]} ∪ visited <-> ct_name ct ∈ visited) as Hiff by set_solver.
  repeat case_bool_decide; try tauto; try reflexivity.
  destruct (truthy (ct_extends ct)) as [base|] eqn:Hext; [|reflexivity].
  destruct (Map_get _ base) as [baseCt|] eqn:Hb; [|reflexivity].
  replace ({[ct_name ct]} ∪ ({[n]} ∪ visited)) with ({[n]} ∪ ({[ct_name ct]} ∪ visited))
    by (apply leibniz_equiv; set_solver).
  rewrite IH; [reflexivity|].
  intros c Hc. apply Hfar. eapply reach_base; eauto.
Qed.
End WalkerFacts.

(* ===================================================================== *)
(** ** Walker: inheritance of child elements                              *)
(* ===================================================================== *)

Example resolve_derived :
  map el_name (getChildElementsForElement derivedWalker (typedElement "d" "Derived"))
  = ["id"; "name"; "extra"].
Proof. vm_compute. reflexivity. Qed.

Example resolve_cyclic :
  map el_name (getChildElementsForElement cyclicWalker (typedElement "x" "T"))
  = ["t"; "b"; "t"].
Proof. vm_compute. reflexivity. Qed.

(** C2, as stated, fails on a cyclic chain: with [T] extending [B] and [B]
    extending [T], the children resolved for an element of type [T] are
    [t; b; t], while those of an element of type [B] followed by [T]'s own
    are [b; t; b; t]. *)
Lemma C2_cyclic_chain_counterexample :
  resolveComplexTypeForElement cyclicWalker (typedElement "x" "T") = Some cycT /\
  truthy (ct_extends cycT) = Some "B" /\
  lookupComplexType cyclicWalker "B" = Some cycB /\
  resolveComplexTypeForElement cyclicWalker (typedElement "y" "B") = Some cycB /\
  getChildElementsForElement cyclicWalker (typedElement "x" "T")
  <> getChildElementsForElement cyclicWalker (typedElement "y" "B") ++ ct_elements cycT.
Proof. repeat split; try reflexivity. vm_compute. discriminate. Qed.

(** C2 (amended): when [T] extends a registered base [B] and no type on
    [B]'s own [extends] chain carries [T]'s name, the children resolved for
    an element of type [T] are those resolved for an element of type [B]
    followed by [T]'s own elements, in declaration order.  The recursion
    stops, returning the type's own elements, at an already visited name, at
    a type without base and at an unregistered base name. *)
Theorem C2_children_base_then_own (w : SchemaWalker) :
  (forall elT elB T B base,
      resolveComplexTypeForElement w elT = Some T ->
      truthy (ct_extends T) = Some base ->
      lookupComplexType w base = Some B ->
      resolveComplexTypeForElement w elB = Some B ->
      (forall c, extendsReach w B c -> ct_name c <> ct_name T) ->
      getChildElementsForElement w elT
      = getChildElementsForElement w elB ++ ct_elements T) /\
  (forall fuel ct visited,
      ct_name ct ∈ visited \/
      truthy (ct_extends ct) = None \/
      (exists base, truthy (ct_extends ct) = Some base /\ lookupComplexType w base = None) ->
      resolveAllElements_fuel (S fuel) w ct visited = Some (ct_elements ct)).
Proof.
  split.
  - intros elT elB T B base HT Hext HB HelB Hfar.
    unfold getChildElementsForElement. rewrite HT, HelB.
    unfold resolveAllElements, walkerFuel, lookupComplexType in *.
    rewrite (resolveAllElements_fuel_S w (S _) T).
    rewrite bool_decide_eq_false_2 by set_solver.
    rewrite Hext, HB.
    rewrite resolveAllElements_fuel_foreign by assumption.
    destruct (resolveAllElements_fuel_enough w (S (size (typeNames w))) B ∅) as [l Hl].
    + eapply typeNames_registered; eauto.
    + assert (size (typeNames w ∖ ∅) <= size (typeNames w)); [|lia].
      apply subseteq_size. set_solver.
    + rewrite Hl.
      rewrite (resolveAllElements_fuel_mono w _ (S (S (size (typeNames w)))) _ _ _ Hl) by lia.
      reflexivity.
  - intros fuel ct visited Hstop. rewrite resolveAllElements_fuel_S.
    case_bool_decide as Hv; [reflexivity|].
    destruct Hstop as [Hin | [Hnone | (base & Hsome & Hmiss)]].
    + contradiction.
    + rewrite Hnone. reflexivity.
    + rewrite Hsome. unfold lookupComplexType in Hmiss. rewrite Hmiss. reflexivity.
Qed.

Lemma C2_children_base_then_own_witness :
  getChildElementsForElement derivedWalker (typedElement "d" "Derived")
  = getChildElementsForElement derivedWalker (typedElement "b" "Base")
    ++ ct_elements derivedType.
Proof.
  apply (proj1 (C2_children_base_then_own derivedWalker)
           (typedElement "d" "Derived") (typedElement "b" "Base")
           derivedType baseType "Base"); try reflexivity.
  intros c Hc. inversion Hc; subst.
  - discriminate.
  - discriminate.
Defined.

(* ===================================================================== *)
(** ** Walker: [isSimpleType]                                             *)
(* ===================================================================== *)

(** C8, as stated, fails for an unrecognized name: it is neither absent,
    nor built-in, nor a registered simple type, and the answer is [false]. *)
Lemma C8_unrecognized_name_counterexample :
  ("NoSuchType" ∉ XS_SIMPLE_TYPES) /\
  Map_has (simpleTypes (schema derivedWalker)) "NoSuchType" = false /\
  Map_has (complexTypes (schema derivedWalker)) "NoSuchType" = false /\
  isSimpleType derivedWalker (Some "NoSuchType") = false.
Proof.
  split; [|repeat split; reflexivity].
  intros Hin. apply (bool_decide_pack _) in Hin. vm_compute in Hin. exact Hin.
Qed.

(** C8 (amended): [isSimpleType] answers [true] exactly when the name is
    absent or empty, is one of the built-in names of [XS_SIMPLE_TYPES], or
    is a registered named simple type; for every other name it answers
    [false]. *)
Theorem C8_isSimpleType_exactly (w : SchemaWalker) (typeName : option string) :
  isSimpleType w typeName = true <->
  (typeName = None \/ typeName = Some "" \/
   exists n, typeName = Some n /\
             (n ∈ XS_SIMPLE_TYPES \/ Map_has (simpleTypes (schema w)) n = true)).
Proof.
  unfold isSimpleType. destruct typeName as [n|]; simpl.
  - destruct n as [|c r]; simpl.
    + split; auto.
    + case_bool_decide as Hin.
      * split; [right; right; eauto | reflexivity].
      * split.
        -- intros; right; right; eauto.
        -- intros [Hx | [Hx | (n & Hn & [Hx | Hx])]]; try discriminate;
             injection Hn as <-; [contradiction | assumption].
  - split; auto.
Qed.

(* ===================================================================== *)
(** ** JSON depth                                                         *)
(* ===================================================================== *)

Lemma depth_array_item items x :
  In x items -> json_depth x < json_depth (JArray items).
Proof.
  simpl. induction items as [|y r IH]; intros Hin; [destruct Hin|].
  destruct Hin as [->|Hin]; [lia|]. specialize (IH Hin). lia.
Qed.

Lemma js_get_depth obj key : json_depth (js_get obj key) < json_depth (JObject obj).
Proof.
  simpl. induction obj as [|[k v] r IH]; simpl; [lia|].
  case_bool_decide; lia.
Qed.

Lemma lookupCI_scan_depth obj lower keys :
  json_depth (lookupCI_scan obj lower keys) < json_depth (JObject obj).
Proof.
  induction keys as [|k r IH]; simpl.
  - lia.
  - case_bool_decide; [apply js_get_depth | exact IH].
Qed.

Lemma lookupCI_depth obj name : json_depth (lookupCI obj name) < json_depth (JObject obj).
Proof.
  unfold lookupCI. destruct (hasOwnProperty obj name);
    [apply js_get_depth | apply lookupCI_scan_depth].
Qed.

(* ===================================================================== *)
(** ** Mapping engine: the fuel is enough                                 *)
(* ===================================================================== *)

Section BuilderFuel.
Variable w : SchemaWalker.
Variable o : BuildOptions.

Lemma buildItems_ext rec1 rec2 d childEl items i path node :
  (forall n e v p, json_depth v < d -> rec1 n e v p = rec2 n e v p) ->
  (forall x, In x items -> json_depth x < d) ->
  buildItems rec1 childEl items i path node = buildItems rec2 childEl items i path node.
Proof.
  intros Hrec. revert i node.
  induction items as [|x r IH]; intros i node Hd; simpl; [reflexivity|].
  rewrite Hrec by (apply Hd; now left).
  destruct (rec2 _ _ _ _); simpl; try reflexivity.
  apply IH. intros y Hy. apply Hd. now right.
Qed.

Lemma buildChildren_ext rec1 rec2 children obj path node :
  (forall n e v p, json_depth v < json_depth (JObject obj) ->
                   rec1 n e v p = rec2 n e v p) ->
  buildChildren rec1 children obj path node = buildChildren rec2 children obj path node.
Proof.
  intros Hrec. revert node.
  induction children as [|c r IH]; intros node; simpl; [reflexivity|].
  pose proof (lookupCI_depth obj (el_name c)) as Hd.
  destruct (lookupCI obj (el_name c)) as [| |b|n|s|items|props] eqn:Hv; try apply IH.
  1-3,5: rewrite Hrec by exact Hd; destruct (rec2 _ _ _ _); simpl; auto.
  rewrite (buildItems_ext rec1 rec2 (json_depth (JObject obj))); [|assumption|].
  - destruct (buildItems rec2 _ _ _ _ _); simpl; auto.
  - intros x Hx. pose proof (depth_array_item items x Hx). lia.
Qed.

Lemma buildElementWith_ext rec1 rec2 node el value path :
  (forall n e v p, json_depth v < json_depth value -> rec1 n e v p = rec2 n e v p) ->
  buildElementWith rec1 w o node el value path
  = buildElementWith rec2 w o node el value path.
Proof.
  intros Hrec. unfold buildElementWith.
  destruct value; try reflexivity.
  destruct (resolveComplexTypeForElement w el); [|reflexivity].
  destruct (_ && _); [reflexivity|].
  rewrite (buildChildren_ext rec1 rec2) by assumption. reflexivity.
Qed.

Lemma buildElement_fuel_stable f1 f2 node el value path :
  json_depth value < f1 -> json_depth value < f2 ->
  buildElement_fuel f1 w o node el value path
  = buildElement_fuel f2 w o node el value path.
Proof.
  revert f2 node el value path.
  induction f1 as [|f1 IH]; intros f2 node el value path H1 H2; [lia|].
  destruct f2 as [|f2]; [lia|]. simpl.
  apply buildElementWith_ext. intros n e v p Hv. apply IH; lia.
Qed.

(** [buildElement] satisfies the recursive equation of the source. *)
Lemma buildElement_unfold node el value path :
  buildElement w o node el value path
  = buildElementWith (buildElement w o) w o node el value path.
Proof.
  unfold buildElement at 1. simpl.
  apply buildElementWith_ext. intros n e v p Hv.
  unfold buildElement. apply buildElement_fuel_stable; lia.
Qed.

Lemma buildItems_completes rec d childEl items i path node :
  (forall n e v p, json_depth v < d -> rec n e v p <> OutOfFuel) ->
  (forall x, In x items -> json_depth x < d) ->
  buildItems rec childEl items i path node <> OutOfFuel.
Proof.
  intros Hrec. revert i node.
  induction items as [|x r IH]; intros i node Hd; simpl; [discriminate|].
  pose proof (Hrec (newNode []) childEl x
                (path +:+ "." +:+ el_name childEl +:+ "[" +:+ pretty i +:+ "]")
                (Hd x (or_introl eq_refl))) as Hx.
  destruct (rec _ _ _ _); simpl; [|discriminate|congruence].
  apply IH. intros y Hy. apply Hd. now right.
Qed.

Lemma buildChildren_completes call children obj path node :
  (forall n e v p, json_depth v < json_depth (JObject obj) -> call n e v p <> OutOfFuel) ->
  buildChildren call children obj path node <> OutOfFuel.
Proof.
  intros Hrec. revert node.
  induction children as [|c r IH]; intros node; simpl; [discriminate|].
  pose proof (lookupCI_depth obj (el_name c)) as Hd.
  destruct (lookupCI obj (el_name c)) as [| |b|n|s|items|props] eqn:Hv; try apply IH.
  1-3,5: match goal with
         | |- context [andThen (?f ?a ?b ?c ?d) _] =>
             pose proof (Hrec a b c d Hd) as Hx; destruct (f a b c d)
         end; simpl; [apply IH|discriminate|congruence].
  pose proof (buildItems_completes call (json_depth (JObject obj)) c items 0 path node Hrec)
    as Hitems.
  destruct (buildItems call c items 0 path node); simpl; [apply IH|discriminate|].
  apply Hitems. intros x Hx. pose proof (depth_array_item items x Hx). lia.
Qed.

Lemma buildElement_fuel_completes fuel node el value path :
  json_depth value < fuel ->
  buildElement_fuel fuel w o node el value path <> OutOfFuel.
Proof.
  revert node el value path.
  induction fuel as [|fuel IH]; intros node el value path Hd; [lia|].
  simpl. unfold buildElementWith.
  destruct value; try discriminate;
    destruct (resolveComplexTypeForElement w el); try discriminate.
  destruct (_ && _); [discriminate|].
  pose proof (buildChildren_completes (buildElement_fuel fuel w o)
                (getChildElementsForElement w el) props path
                (applyAttributes o (getAttributesForElement w el) props node)) as Hc.
  destruct (buildChildren _ _ _ _ _); simpl; [discriminate|discriminate|].
  apply Hc. intros n e v p Hv. apply IH. lia.
Qed.

(** [buildElement] always returns or throws. *)
Lemma buildElement_completes node el value path :
  buildElement w o node el value path <> OutOfFuel.
Proof. apply buildElement_fuel_completes. lia. Qed.
End BuilderFuel.

(* ===================================================================== *)
(** ** Mapping engine: when a mapping error is raised                     *)
(* ===================================================================== *)

Lemma string_app_assoc (a b c : string) : (a +:+ b) +:+ c = a +:+ (b +:+ c).
Proof.
  induction a as [|x a IH]; [reflexivity|].
  unfold String.append; fold String.append. f_equal. exact IH.
Qed.

Lemma string_app_empty (a : string) : a +:+ "" = a.
Proof.
  induction a as [|x a IH]; [reflexivity|].
  unfold String.append; fold String.append. f_equal. exact IH.
Qed.

Section BuilderErrors.
Variable w : SchemaWalker.
Variable o : BuildOptions.

Lemma buildItems_thrown call childEl items i path node err :
  buildItems call childEl items i path node = Thrown err ->
  exists item n p suffix,
    In item items /\ p = path +:+ suffix /\ call n childEl item p = Thrown err.
Proof.
  revert i node. induction items as [|x r IH]; intros i node H; simpl in H; [discriminate|].
  destruct (call _ _ _ _) as [child|e|] eqn:Hx; simpl in H; try discriminate.
  - destruct (IH _ _ H) as (item & n & p & suffix & Hin & Hp & Hcall).
    exists item, n, p, suffix. auto using in_cons.
  - injection H as <-. eexists x, _, _, _. split; [now left|]. split; [reflexivity|].
    exact Hx.
Qed.

Lemma buildChildren_thrown call children obj path node err :
  buildChildren call children obj path node = Thrown err ->
  exists c n p suffix,
    In c children /\ p = path +:+ suffix /\
    ((isArray (lookupCI obj (el_name c)) = false /\
      call n c (lookupCI obj (el_name c)) p = Thrown err) \/
     (exists items item,
         lookupCI obj (el_name c) = JArray items /\ In item items /\
         call n c item p = Thrown err)).
Proof.
  revert node. induction children as [|c r IH]; intros node H; simpl in H; [discriminate|].
  assert (forall nd, buildChildren call r obj path nd = Thrown err ->
            exists c0 n p suffix,
              In c0 (c :: r) /\ p = path +:+ suffix /\
              ((isArray (lookupCI obj (el_name c0)) = false /\
                call n c0 (lookupCI obj (el_name c0)) p = Thrown err) \/
               (exists items item,
                   lookupCI obj (el_name c0) = JArray items /\ In item items /\
                   call n c0 item p = Thrown err))) as Hrest.
  { intros nd Hnd. destruct (IH _ Hnd) as (c0 & n & p & suffix & Hin & Hp & Hc).
    exists c0, n, p, suffix. auto using in_cons. }
  destruct (lookupCI obj (el_name c)) as [| |b|num|str|items|props] eqn:Hv;
    try (now apply Hrest in H).
  1-3,5: match type of H with
         | andThen (?f ?a ?b ?c ?d) _ = _ => destruct (f a b c d) eqn:Hx
         end; simpl in H; try discriminate; try (now apply Hrest in H);
         injection H as <-; eexists c, _, _, _; split; [now left|];
         (split; [reflexivity|]); left; rewrite Hv; split; [reflexivity|exact Hx].
  destruct (buildItems call c items 0 path node) as [nd|e|] eqn:Hx; simpl in H;
    try discriminate; [now apply Hrest in H|].
  injection H as <-.
  destruct (buildItems_thrown _ _ _ _ _ _ _ Hx) as (item & n & p & suffix & Hin & Hp & Hcall).
  exists c, n, p, suffix. split; [now left|]. split; [assumption|].
  right. exists items, item. rewrite Hv. auto.
Qed.

Lemma buildItems_throws call childEl items i path node item :
  (forall n e v p, call n e v p <> OutOfFuel) ->
  In item items ->
  (forall n p, exists err, call n childEl item p = Thrown err) ->
  exists err, buildItems call childEl items i path node = Thrown err.
Proof.
  intros Hfuel Hin Hthrows. revert i node.
  induction items as [|x r IH]; intros i node; [destruct Hin|]. simpl.
  destruct Hin as [->|Hin].
  - destruct (Hthrows (newNode [])
                (path +:+ "." +:+ el_name childEl +:+ "[" +:+ pretty i +:+ "]"))
      as [err Herr].
    rewrite Herr. simpl. eauto.
  - match goal with
    | |- context [andThen (?f ?a ?b ?c ?d) _] =>
        pose proof (Hfuel a b c d); destruct (f a b c d)
    end; simpl; [apply IH; assumption|eauto|congruence].
Qed.

Lemma buildChildren_throws call children obj path node c :
  (forall n e v p, call n e v p <> OutOfFuel) ->
  In c children ->
  (isArray (lookupCI obj (el_name c)) = false /\
   forall n p, exists err, call n c (lookupCI obj (el_name c)) p = Thrown err) \/
  (exists items item,
      lookupCI obj (el_name c) = JArray items /\ In item items /\
      forall n p, exists err, call n c item p = Thrown err) ->
  (forall n p, call n c JNull p = Returned n) ->
  (forall n p, call n c JUndefined p = Returned n) ->
  exists err, buildChildren call children obj path node = Thrown err.
Proof.
  intros Hfuel Hin Hthrows Hnull Hundef. revert node.
  induction children as [|c0 r IH]; intros node; [destruct Hin|]. simpl.
  destruct Hin as [->|Hin].
  - destruct Hthrows as [[Hnot Hthrows] | (items & item & Hv & Hitem & Hthrows)].
    + destruct (Hthrows (newNode []) (path +:+ "." +:+ el_name c)) as [err Herr].
      destruct (lookupCI obj (el_name c)) as [| |b|num|str|items|props] eqn:Hv;
        try discriminate; try (rewrite Herr; simpl; eauto).
      * rewrite Hundef in Herr. discriminate.
      * rewrite Hnull in Herr. discriminate.
    + rewrite Hv.
      destruct (buildItems_throws call c items 0 path node item Hfuel Hitem Hthrows)
        as [err Herr].
      rewrite Herr. simpl. eauto.
  - pose proof (IH Hin) as IH'.
    destruct (lookupCI obj (el_name c0)) as [| |b|num|str|items|props] eqn:Hv;
      try apply IH'.
    1-3,5: match goal with
           | |- context [andThen (?f ?a ?b ?c ?d) _] =>
               pose proof (Hfuel a b c d); destruct (f a b c d)
           end; simpl; [apply IH'|eauto|congruence].
    pose proof (buildItems_completes call (S (json_depth (JArray items))) c0 items 0 path node)
      as Hc.
    destruct (buildItems call c0 items 0 path node); simpl; [apply IH'|eauto|].
    exfalso. apply Hc; [intros; apply Hfuel| |reflexivity].
    intros x Hx. pose proof (depth_array_item items x Hx). lia.
Qed.

(** A thrown error carries the path of the call extended by a suffix, and
    shows that an array reached [buildElement]. *)
Lemma buildElement_thrown_reaches fuel node el value path err :
  json_depth value < fuel ->
  buildElement w o node el value path = Thrown err ->
  arrayReaches w o el value /\ exists suffix, err_path err = path +:+ suffix.
Proof.
  revert node el value path.
  induction fuel as [|fuel IH]; intros node el value path Hd H; [lia|].
  rewrite buildElement_unfold in H. unfold buildElementWith in H.
  destruct value as [| |b|num|str|items|obj]; try discriminate;
    try (destruct (resolveComplexTypeForElement w el); discriminate).
  - injection H as <-. split; [constructor|]. exists "". simpl.
    symmetry. apply string_app_empty.
  - destruct (resolveComplexTypeForElement w el) as [ct|] eqn:Hct; [|discriminate].
    destruct (_ && _) eqn:Htext; [discriminate|].
    destruct (buildChildren _ _ _ _ _) as [nd|e|] eqn:Hc; simpl in H; try discriminate.
    injection H as ->.
    apply buildChildren_thrown in Hc.
    destruct Hc as (c & n & p & suffix & Hin & Hp & [[Hnot Hcall] | (items & item & Hv & Hitem & Hcall)]).
    + pose proof (lookupCI_depth obj (el_name c)) as Hlt.
      destruct (IH n c (lookupCI obj (el_name c)) p ltac:(lia) Hcall)
        as [Hreach [sfx Hsfx]].
      split; [eapply reaches_child; eauto|].
      exists (suffix +:+ sfx). rewrite Hsfx, Hp. apply string_app_assoc.
    + pose proof (lookupCI_depth obj (el_name c)) as Hlt. rewrite Hv in Hlt.
      pose proof (depth_array_item items item Hitem) as Hlt'.
      destruct (IH n c item p ltac:(lia) Hcall) as [Hreach [sfx Hsfx]].
      split; [eapply reaches_item; eauto|].
      exists (suffix +:+ sfx). rewrite Hsfx, Hp. apply string_app_assoc.
Qed.

Lemma buildElement_reaches_throws el value :
  arrayReaches w o el value ->
  forall node path, exists err, buildElement w o node el value path = Thrown err.
Proof.
  induction 1 as [el items | el ct obj c Hct Htext Hin Hnot Hreach IH
                 | el ct obj c items item Hct Htext Hin Hv Hitem Hreach IH];
    intros node path; rewrite buildElement_unfold; unfold buildElementWith.
  - eauto.
  - rewrite Hct, Htext.
    destruct (buildChildren_throws (buildElement w o) (getChildElementsForElement w el)
                obj path (applyAttributes o (getAttributesForElement w el) obj node) c)
      as [err Herr]; auto using buildElement_completes.
    rewrite Herr. simpl. eauto.
  - rewrite Hct, Htext.
    destruct (buildChildren_throws (buildElement w o) (getChildElementsForElement w el)
                obj path (applyAttributes o (getAttributesForElement w el) obj node) c)
      as [err Herr]; auto using buildElement_completes.
    + right. exists items, item. auto.
    + rewrite Herr. simpl. eauto.
Qed.
End BuilderErrors.

(** C1, as stated, fails: the child [name] of [person] is declared with
    [maxOccurs] 1 ([isArray] false), an array arrives at that position, and
    the Builder raises nothing; it emits one element per item. *)
Lemma C1_array_under_single_child_counterexample :
  In (leafElement "name")
     (getChildElementsForElement personWalker (typedElement "person" "PersonType")) /\
  el_isArray (leafElement "name") = false /\
  lookupCI [("name", JArray [JString "a"; JString "b"])] "name"
  = JArray [JString "a"; JString "b"] /\
  buildXml [("name", JArray [JString "a"; JString "b"])] personWalker defaultOptions
  = Returned
      (XElem "person" []
         [XElem "name" [] [XText "a"]; XElem "name" [] [XText "b"]]).
Proof. repeat split; try reflexivity. vm_compute. left. reflexivity. Qed.

(** C1 (amended): [buildXml] raises a MappingError located at [$] when
    the configured root element name is absent from the schema, and
    [buildElement] raises one on every array value it receives, whatever
    the ElementDef (its [isArray] flag is not consulted; the Builder has no
    strict or non-strict mode).  With the root element found, and on the
    inputs of [builderExact] (every name handed to xmlbuilder2 is a plain
    name, otherwise xmlbuilder2's own error may come first; keys and
    attribute prefix are ASCII text; the text key is no inherited
    property), [buildXml] always returns or raises a MappingError, and it
    raises one exactly when an array value is handed to [buildElement] at a
    position the traversal reaches (the root value is an array, or an item
    of an array-valued declared child is itself an array); the error's path
    extends [$.<root>]. *)
Theorem C1_mapping_error_exactly (w : SchemaWalker) (o : BuildOptions) (json : JsonObject) :
  (lookupElement w (rootElement (schema w)) = None ->
   buildXml json w o
   = Thrown (mkXsdMappingError "$" (rootNotFound (rootElement (schema w))))) /\
  (forall node el items path,
      buildElement w o node el (JArray items) path
      = Thrown (unexpectedArray path (el_name el))) /\
  (forall rootEl,
      lookupElement w (rootElement (schema w)) = Some rootEl ->
      builderExact w o rootEl (JObject json) = true ->
      buildXml json w o <> OutOfFuel /\
      ((exists err, buildXml json w o = Thrown err) <->
       arrayReaches w o rootEl (rootValueOf json (rootElement (schema w)))) /\
      (forall err,
          buildXml json w o = Thrown err ->
          exists suffix, err_path err = "$." +:+ rootElement (schema w) +:+ suffix)).
Proof.
  unfold buildXml.
  split; [intros ->; reflexivity|]. split; [reflexivity|].
  intros rootEl H _. rewrite H. split; [|split; [split|]].
  - match goal with
    | |- context [buildElement w o ?n ?e ?v ?p] =>
        pose proof (buildElement_completes w o n e v p); destruct (buildElement w o n e v p)
    end; simpl; congruence.
  - intros [err Herr].
    match type of Herr with
    | context [buildElement w o ?n ?e ?v ?p] =>
        destruct (buildElement w o n e v p) eqn:Hb
    end; simpl in Herr; try discriminate.
    destruct (buildElement_thrown_reaches w o (S (json_depth _)) _ _ _ _ _
                (Nat.lt_succ_diag_r _) Hb) as [Hreach _].
    exact Hreach.
  - intros Hreach.
    match goal with
    | |- context [buildElement w o ?n ?e ?v ?p] =>
        destruct (buildElement_reaches_throws w o _ _ Hreach n p) as [err Herr]
    end.
    rewrite Herr. simpl. eauto.
  - intros err Herr.
    match type of Herr with
    | context [buildElement w o ?n ?e ?v ?p] =>
        destruct (buildElement w o n e v p) eqn:Hb
    end; simpl in Herr; try discriminate.
    injection Herr as ->.
    destruct (buildElement_thrown_reaches w o (S (json_depth _)) _ _ _ _ _
                (Nat.lt_succ_diag_r _) Hb) as [_ [suffix Hs]].
    exists suffix. rewrite Hs. apply string_app_assoc.
Qed.

Lemma C1_mapping_error_exactly_witness :
  builderExact personWalker defaultOptions (typedElement "person" "PersonType")
    (JObject [("person", JArray [JString "a"])]) = true /\
  exists err,
    buildXml [("person", JArray [JString "a"])] personWalker defaultOptions = Thrown err.
Proof.
  split; [reflexivity|].
  apply (proj2 (proj1 (proj2 (proj2 (proj2
           (C1_mapping_error_exactly personWalker defaultOptions
              [("person", JArray [JString "a"])]))
           (typedElement "person" "PersonType") eq_refl eq_refl)))).
  apply reaches_array.
Defined.

(* ===================================================================== *)
(** ** Mapping engine: what is written to a node                          *)
(* ===================================================================== *)

Lemma Map_set_keys {V} (m : JsMap V) k v n :
  In n (Map_keys (Map_set m k v)) -> In n (Map_keys m) \/ n = k.
Proof.
  unfold Map_keys. induction m as [|[k' v'] m IH]; simpl.
  - intros [<-|[]]. now right.
  - case_bool_decide; simpl.
    + intros [<-|Hin]; auto.
    + intros [<-|Hin]; auto. destruct (IH Hin); auto.
Qed.

Section BuilderOutput.
Variable w : SchemaWalker.
Variable o : BuildOptions.

Lemma applyAttributes_content attrs obj node :
  b_content (applyAttributes o attrs obj node) = b_content node.
Proof.
  revert node. induction attrs as [|a r IH]; intros node; simpl; [reflexivity|].
  rewrite IH. destruct (negb _); [reflexivity|]. destruct (attr_default a); reflexivity.
Qed.

Lemma applyAttributes_names attrs obj node n :
  In n (Map_keys (b_atts (applyAttributes o attrs obj node))) ->
  In n (Map_keys (b_atts node)) \/ In n (map attr_name attrs).
Proof.
  revert node. induction attrs as [|a r IH]; intros node; simpl; [auto|].
  intros Hin. apply IH in Hin. destruct Hin as [Hin|Hin]; [|auto].
  destruct (negb _); [|destruct (attr_default a)]; simpl in Hin; auto;
    apply Map_set_keys in Hin; destruct Hin; auto.
Qed.

(** The items loop appends one element per item, each named after the
    schema's child and holding what the recursive call wrote. *)
Lemma buildItems_returned call childEl items i path node node' :
  buildItems call childEl items i path node = Returned node' ->
  b_atts node' = b_atts node /\
  exists emitted,
    b_content node' = b_content node ++ emitted /\
    Forall2
      (fun item x =>
         exists child p,
           call (newNode []) childEl item p = Returned child /\
           x = XElem (el_name childEl) (b_atts child) (b_content child))
      items emitted.
Proof.
  revert i node. induction items as [|item r IH]; intros i node H; simpl in H.
  - injection H as <-. split; [reflexivity|]. exists []. rewrite app_nil_r. auto.
  - destruct (call _ _ _ _) as [child|e|] eqn:Hx; simpl in H; try discriminate.
    destruct (IH _ _ H) as [Ha (emitted & Hc & Hall)].
    split; [exact Ha|].
    exists (XElem (el_name childEl) (b_atts child) (b_content child) :: emitted).
    split.
    + rewrite Hc. simpl. rewrite <- app_assoc. reflexivity.
    + constructor; [eauto|exact Hall].
Qed.

(** The children loop only appends elements named after a resolved child
    whose looked-up value is neither [null] nor [undefined]. *)
Lemma buildChildren_returned call children obj path node node' :
  buildChildren call children obj path node = Returned node' ->
  b_atts node' = b_atts node /\
  exists emitted,
    b_content node' = b_content node ++ emitted /\
    Forall
      (fun x =>
         exists c atts content,
           x = XElem (el_name c) atts content /\ In c children /\
           isNullish (lookupCI obj (el_name c)) = false)
      emitted.
Proof.
  revert node. induction children as [|c r IH]; intros node H; simpl in H.
  - injection H as <-. split; [reflexivity|]. exists []. rewrite app_nil_r. auto.
  - assert (forall nd extra,
               b_atts nd = b_atts node ->
               b_content nd = b_content node ++ extra ->
               Forall (fun x => exists atts content,
                           x = XElem (el_name c) atts content /\
                           isNullish (lookupCI obj (el_name c)) = false) extra ->
               buildChildren call r obj path nd = Returned node' ->
               b_atts node' = b_atts node /\
               exists emitted,
                 b_content node' = b_content node ++ emitted /\
                 Forall
                   (fun x =>
                      exists c0 atts content,
                        x = XElem (el_name c0) atts content /\ In c0 (c :: r) /\
                        isNullish (lookupCI obj (el_name c0)) = false)
                   emitted) as Hstep.
    { intros nd extra Ha Hc Hextra Hrest.
      destruct (IH _ Hrest) as [Ha' (emitted & Hc' & Hall)].
      split; [congruence|]. exists (extra ++ emitted). split.
      - rewrite Hc', Hc, <- app_assoc. reflexivity.
      - apply Forall_app. split.
        + eapply Forall_impl; [exact Hextra|].
          intros x (atts & content & -> & Hn). exists c, atts, content.
          split; [reflexivity|]. split; [now left|exact Hn].
        + eapply Forall_impl; [exact Hall|].
          intros x (c0 & atts & content & -> & Hin & Hn). exists c0, atts, content.
          auto using in_cons. }
    destruct (lookupCI obj (el_name c)) as [| |b|num|str|items|props] eqn:Hv.
    1,2: apply (Hstep node []); auto using app_nil_r.
    1-3,5: match type of H with
           | andThen (?f ?a ?b ?c ?d) _ = _ => destruct (f a b c d) as [child|e|] eqn:Hx
           end; simpl in H; try discriminate;
           apply (Hstep (ele node (el_name c) child)
                    [XElem (el_name c) (b_atts child) (b_content child)]);
           [reflexivity|reflexivity| |exact H];
           constructor; [|constructor]; eauto.
    destruct (buildItems call c items 0 path node) as [nd|e|] eqn:Hx; simpl in H;
      try discriminate.
    destruct (buildItems_returned _ _ _ _ _ _ _ Hx) as [Ha (emitted & Hc & Hall)].
    apply (Hstep nd emitted); auto.
    clear -Hall. induction Hall as [|item x items emitted (child & p & _ & ->) _ IHall];
      constructor; eauto.
Qed.

Lemma wildcardItems_content key (items : list JsonValue) node :
  let step := fun nd item =>
                ele nd key
                  (buildWildcardValue (attributePrefix o) (textNodeKey o) (newNode []) item) in
  b_atts (fold_left step items node) = b_atts node /\
  exists emitted,
    b_content (fold_left step items node) = b_content node ++ emitted /\
    Forall (fun x => exists atts content, x = XElem key atts content) emitted.
Proof.
  intros step. revert node. induction items as [|item r IH]; intros node; simpl.
  - split; [reflexivity|]. exists []. rewrite app_nil_r. auto.
  - destruct (IH (step node item)) as [Ha (emitted & Hc & Hall)].
    split; [exact Ha|]. eexists (_ :: emitted). split.
    + rewrite Hc. simpl. rewrite <- app_assoc. reflexivity.
    + constructor; eauto.
Qed.

(** The wildcard loop only appends elements named after a JSON key that is
    not, case-insensitively, the name of a declared child. *)
Lemma wildcardPass_content known obj keys node :
  b_atts (wildcardPass o known obj keys node) = b_atts node /\
  exists emitted,
    b_content (wildcardPass o known obj keys node) = b_content node ++ emitted /\
    Forall
      (fun x =>
         exists key atts content,
           x = XElem key atts content /\ In key keys /\ toLowerCase key ∉ known)
      emitted.
Proof.
  revert node. induction keys as [|key r IH]; intros node; simpl.
  - split; [reflexivity|]. exists []. rewrite app_nil_r. auto.
  - assert (forall nd extra,
               b_atts nd = b_atts node ->
               b_content nd = b_content node ++ extra ->
               Forall (fun x => exists atts content,
                           x = XElem key atts content /\ toLowerCase key ∉ known) extra ->
               b_atts (wildcardPass o known obj r nd) = b_atts node /\
               exists emitted,
                 b_content (wildcardPass o known obj r nd) = b_content node ++ emitted /\
                 Forall
                   (fun x =>
                      exists key0 atts content,
                        x = XElem key0 atts content /\ In key0 (key :: r) /\
                        toLowerCase key0 ∉ known)
                   emitted) as Hstep.
    { intros nd extra Ha Hc Hextra.
      destruct (IH nd) as [Ha' (emitted & Hc' & Hall)].
      split; [congruence|]. exists (extra ++ emitted). split.
      - rewrite Hc', Hc, <- app_assoc. reflexivity.
      - apply Forall_app. split.
        + eapply Forall_impl; [exact Hextra|].
          intros x (atts & content & -> & Hn). exists key, atts, content.
          split; [reflexivity|]. split; [now left|exact Hn].
        + eapply Forall_impl; [exact Hall|].
          intros x (k0 & atts & content & -> & Hin & Hn). exists k0, atts, content.
          auto using in_cons. }
    case_bool_decide as Htext; [apply (Hstep node []); auto using app_nil_r|].
    destruct (startsWith key (attributePrefix o));
      [apply (Hstep node []); auto using app_nil_r|].
    case_bool_decide as Hknown; [apply (Hstep node []); auto using app_nil_r|].
    destruct (js_get obj key) as [| |b|num|str|items|props] eqn:Hv.
    1,2: apply (Hstep node []); auto using app_nil_r.
    1-3,5: match goal with
           | |- context [wildcardPass _ _ _ _ (ele ?n ?k ?c)] =>
               apply (Hstep (ele n k c) [XElem k (b_atts c) (b_content c)])
           end; [reflexivity|reflexivity|]; constructor; eauto.
    destruct (wildcardItems_content key items node) as [Ha (emitted & Hc & Hall)].
    apply (Hstep _ emitted); auto.
    eapply Forall_impl; [exact Hall|]. intros x (atts & content & ->). eauto.
Qed.

(** What [buildElement] writes for an object of complex type: attribute
    names come from the schema's attribute definitions; element names are
    names of resolved children with a present value, or (under a wildcard)
    JSON keys that match no declared child even ignoring case. *)
Lemma buildElement_object_names node el ct obj path node' :
  resolveComplexTypeForElement w el = Some ct ->
  buildElement w o node el (JObject obj) path = Returned node' ->
  (forall n, In n (Map_keys (b_atts node')) ->
             In n (Map_keys (b_atts node)) \/
             In n (map attr_name (getAttributesForElement w el))) /\
  exists emitted,
    b_content node' = b_content node ++ emitted /\
    forall tag atts content,
      In (XElem tag atts content) emitted ->
      (exists c, In c (getChildElementsForElement w el) /\ tag = el_name c /\
                 isNullish (lookupCI obj tag) = false) \/
      (hasWildcardForElement w el = true /\ In tag (Object_keys obj) /\
       toLowerCase tag ∉ lowerSet (map el_name (getChildElementsForElement w el))).
Proof.
  intros Hct H. rewrite buildElement_unfold in H. unfold buildElementWith in H.
  rewrite Hct in H.
  destruct (_ && _).
  - injection H as <-. simpl. split.
    + intros n Hn.
      exact (applyAttributes_names (getAttributesForElement w el) obj node n Hn).
    + eexists [_]. rewrite applyAttributes_content. split; [reflexivity|].
      intros tag atts content [Hx|[]]. discriminate.
  - destruct (buildChildren _ _ _ _ _) as [node2|e|] eqn:Hc; simpl in H; try discriminate.
    injection H as <-.
    destruct (buildChildren_returned _ _ _ _ _ _ Hc) as [Ha (emitted & Hcont & Hall)].
    rewrite applyAttributes_content in Hcont.
    destruct (hasWildcardForElement w el).
    + destruct (wildcardPass_content
                  (lowerSet (map el_name (getChildElementsForElement w el)))
                  obj (Object_keys obj) node2) as [Ha' (extra & Hcont' & Hall')].
      split.
      * intros n Hn. rewrite Ha', Ha in Hn.
        exact (applyAttributes_names (getAttributesForElement w el) obj node n Hn).
      * exists (emitted ++ extra). split.
        -- rewrite Hcont', Hcont, <- app_assoc. reflexivity.
        -- intros tag atts content Hin. apply in_app_or in Hin. destruct Hin as [Hin|Hin].
           ++ left. rewrite Forall_forall in Hall. apply list_elem_of_In, Hall in Hin.
              destruct Hin as (c & a0 & c0 & Heq & Hin & Hn). injection Heq as -> -> ->.
              eauto.
           ++ right. rewrite Forall_forall in Hall'. apply list_elem_of_In, Hall' in Hin.
              destruct Hin as (k & a0 & c0 & Heq & Hin & Hn). injection Heq as -> -> ->.
              auto.
    + split.
      * intros n Hn. rewrite Ha in Hn.
        exact (applyAttributes_names (getAttributesForElement w el) obj node n Hn).
      * exists emitted. split; [exact Hcont|].
        intros tag atts content Hin. left.
        rewrite Forall_forall in Hall. apply list_elem_of_In, Hall in Hin.
        destruct Hin as (c & a0 & c0 & Heq & Hin & Hn). injection Heq as -> -> ->.
        eauto.
Qed.
End BuilderOutput.

(* ===================================================================== *)
(** ** Mapping engine: null items of an array                             *)
(* ===================================================================== *)

Example null_item_in_array :
  buildXml [("name", JArray [JString "a"; JNull; JString "b"])] personWalker defaultOptions
  = Returned
      (XElem "person" []
         [XElem "name" [] [XText "a"]; XElem "name" [] []; XElem "name" [] [XText "b"]]).
Proof. vm_compute. reflexivity. Qed.

(** What the children loop writes, child by child: nothing for a child
    whose value is [null] or absent, one element per item for an array, one
    element otherwise, each holding what the recursive call wrote. *)
Lemma buildChildren_segments call children obj path node node' :
  buildChildren call children obj path node = Returned node' ->
  exists segments,
    b_content node' = b_content node ++ concat segments /\
    Forall2
      (fun c seg =>
         match lookupCI obj (el_name c) with
         | JUndefined | JNull => seg = []
         | JArray items =>
             Forall2
               (fun item x =>
                  exists child p,
                    call (newNode []) c item p = Returned child /\
                    x = XElem (el_name c) (b_atts child) (b_content child))
               items seg
         | v =>
             exists child p,
               call (newNode []) c v p = Returned child /\
               seg = [XElem (el_name c) (b_atts child) (b_content child)]
         end)
      children segments.
Proof.
  revert node. induction children as [|c r IH]; intros node H; simpl in H.
  - injection H as <-. exists []. simpl. rewrite app_nil_r. auto.
  - set (R := fun c seg =>
                match lookupCI obj (el_name c) with
                | JUndefined | JNull => seg = []
                | JArray items =>
                    Forall2
                      (fun item x =>
                         exists child p,
                           call (newNode []) c item p = Returned child /\
                           x = XElem (el_name c) (b_atts child) (b_content child))
                      items seg
                | v =>
                    exists child p,
                      call (newNode []) c v p = Returned child /\
                      seg = [XElem (el_name c) (b_atts child) (b_content child)]
                end) in *.
    assert (forall nd seg,
               b_content nd = b_content node ++ seg ->
               R c seg ->
               buildChildren call r obj path nd = Returned node' ->
               exists segments,
                 b_content node' = b_content node ++ concat segments /\
                 Forall2 R (c :: r) segments) as Hstep.
    { intros nd seg Hc Hseg Hrest.
      destruct (IH _ Hrest) as (segments & Hc' & Hall).
      exists (seg :: segments). split; [|constructor; assumption].
      simpl. rewrite Hc', Hc, <- app_assoc. reflexivity. }
    unfold R in Hstep at 1.
    destruct (lookupCI obj (el_name c)) as [| |b|num|str|items|props] eqn:Hv.
    1,2: apply (Hstep node []); auto using app_nil_r.
    1-3,5: match type of H with
           | andThen (?f ?a ?b ?c ?d) _ = _ => destruct (f a b c d) as [child|e|] eqn:Hx
           end; simpl in H; try discriminate;
           apply (Hstep (ele node (el_name c) child)
                    [XElem (el_name c) (b_atts child) (b_content child)]);
           [reflexivity|eauto|exact H].
    destruct (buildItems call c items 0 path node) as [nd|e|] eqn:Hx; simpl in H;
      try discriminate.
    destruct (buildItems_returned _ _ _ _ _ _ _ Hx) as [_ (emitted & Hc & Hall)].
    apply (Hstep nd emitted); auto.
Qed.

(** C9: [buildElement] returns at once, adding nothing, on a [null] or
    [undefined] value.  So when it has built an object of complex type (the
    text branch not taken), the content it appended is, for each declared
    child in schema order, the child's own run of elements, followed by
    what the wildcard passed through: for a child whose value is an array
    the run has exactly one element per item, each named after the child,
    and the element at the index of a [null] or [undefined] item is empty;
    for a child whose own value is [null] or absent the run is empty, and
    for any other value it is one element. *)
Theorem C9_null_array_item_emits_empty_element
    (w : SchemaWalker) (o : BuildOptions) (node node' : XMLBuilder) (el : ElementDef)
    (ct : ComplexTypeDef) (obj : JsonObject) (path : string) :
  resolveComplexTypeForElement w el = Some ct ->
  ct_hasTextContent ct && negb (isUndefined (js_get obj (textNodeKey o))) = false ->
  buildElement w o node el (JObject obj) path = Returned node' ->
  (forall nd c item p,
      isNullish item = true -> buildElement w o nd c item p = Returned nd) /\
  exists runs passed,
    b_content node' = b_content node ++ concat runs ++ passed /\
    (hasWildcardForElement w el = false -> passed = []) /\
    Forall2
      (fun c run =>
         match lookupCI obj (el_name c) with
         | JUndefined | JNull => run = []
         | JArray items =>
             length run = length items /\
             Forall (fun x => exists atts content, x = XElem (el_name c) atts content) run /\
             forall (i : nat) (item : JsonValue),
               items !! i = Some item -> isNullish item = true ->
               run !! i = Some (XElem (el_name c) [] [])
         | _ => exists atts content, run = [XElem (el_name c) atts content]
         end)
      (getChildElementsForElement w el) runs.
Proof.
  intros Hct Htext H.
  assert (forall nd c item p,
             isNullish item = true -> buildElement w o nd c item p = Returned nd) as Hnull.
  { intros nd c item p Hn. rewrite buildElement_unfold.
    destruct item; try discriminate; reflexivity. }
  split; [exact Hnull|].
  rewrite buildElement_unfold in H. unfold buildElementWith in H.
  rewrite Hct, Htext in H.
  destruct (buildChildren _ _ _ _ _) as [node2|e|] eqn:Hc; simpl in H; try discriminate.
  injection H as <-.
  destruct (buildChildren_segments _ _ _ _ _ _ Hc) as (runs & Hcont & Hall).
  rewrite applyAttributes_content in Hcont.
  assert (Forall2
            (fun c run =>
               match lookupCI obj (el_name c) with
               | JUndefined | JNull => run = []
               | JArray items =>
                   length run = length items /\
                   Forall (fun x => exists atts content, x = XElem (el_name c) atts content)
                     run /\
                   forall (i : nat) (item : JsonValue),
                     items !! i = Some item -> isNullish item = true ->
                     run !! i = Some (XElem (el_name c) [] [])
               | _ => exists atts content, run = [XElem (el_name c) atts content]
               end)
            (getChildElementsForElement w el) runs) as Hruns.
  { eapply Forall2_impl; [exact Hall|].
    intros c run Hseg. simpl in Hseg.
    destruct (lookupCI obj (el_name c)) as [| |b|num|str|items|props];
      try exact Hseg;
      try (destruct Hseg as (child & p & _ & ->); eauto).
    split; [symmetry; eapply Forall2_length; exact Hseg|]. split.
    - clear -Hseg. induction Hseg as [|item x items run (child & p & _ & ->) _ IHs];
        constructor; eauto.
    - intros i item Hi Hn.
      destruct (Forall2_lookup_l _ _ _ _ _ Hseg Hi) as (x & Hx & child & p & Hcall & ->).
      rewrite Hx. rewrite Hnull in Hcall by exact Hn. injection Hcall as <-. reflexivity. }
  destruct (hasWildcardForElement w el).
  - destruct (wildcardPass_content o
                (lowerSet (map el_name (getChildElementsForElement w el)))
                obj (Object_keys obj) node2) as [_ (passed & Hcont' & _)].
    exists runs, passed. split; [|split; [discriminate|exact Hruns]].
    rewrite Hcont', Hcont, <- app_assoc. reflexivity.
  - exists runs, []. split; [|split; [reflexivity|exact Hruns]].
    rewrite app_nil_r. exact Hcont.
Qed.

Lemma C9_null_array_item_emits_empty_element_witness :
  exists runs passed,
    b_content (mkXMLBuilder []
                 [XElem "name" [] [XText "a"]; XElem "name" [] [];
                  XElem "name" [] [XText "b"]])
    = b_content (newNode []) ++ concat runs ++ passed /\
    (hasWildcardForElement personWalker (typedElement "person" "PersonType") = false ->
     passed = []) /\
    Forall2
      (fun c run =>
         match lookupCI [("name", JArray [JString "a"; JNull; JString "b"])] (el_name c) with
         | JUndefined | JNull => run = []
         | JArray items =>
             length run = length items /\
             Forall (fun x => exists atts content, x = XElem (el_name c) atts content) run /\
             forall (i : nat) (item : JsonValue),
               items !! i = Some item -> isNullish item = true ->
               run !! i = Some (XElem (el_name c) [] [])
         | _ => exists atts content, run = [XElem (el_name c) atts content]
         end)
      (getChildElementsForElement personWalker (typedElement "person" "PersonType")) runs.
Proof.
  apply (proj2 (C9_null_array_item_emits_empty_element personWalker defaultOptions
                  (newNode [])
                  (mkXMLBuilder []
                     [XElem "name" [] [XText "a"]; XElem "name" [] [];
                      XElem "name" [] [XText "b"]])
                  (typedElement "person" "PersonType") personType
                  [("name", JArray [JString "a"; JNull; JString "b"])] "$.person"
                  eq_refl eq_refl eq_refl)).
Defined.

(* ===================================================================== *)
(** ** Mapping engine: choice branches and omitted elements               *)
(* ===================================================================== *)











(* ===================================================================== *)
(** ** Mapping engine: case-insensitive input, schema-cased output        *)
(* ===================================================================== *)

Lemma Map_get_set_eq {V} (m : JsMap V) k v : Map_get (Map_set m k v) k = Some v.
Proof.
  induction m as [|[k' v'] m IH]; simpl.
  - rewrite bool_decide_eq_true_2 by reflexivity. reflexivity.
  - case_bool_decide as Hk; simpl.
    + rewrite bool_decide_eq_true_2 by exact Hk. reflexivity.
    + rewrite bool_decide_eq_false_2 by exact Hk. exact IH.
Qed.

Lemma Map_get_set_ne {V} (m : JsMap V) k k' v :
  k <> k' -> Map_get (Map_set m k v) k' = Map_get m k'.
Proof.
  intros Hne. induction m as [|[k0 v0] m IH]; simpl.
  - rewrite bool_decide_eq_false_2 by exact Hne. reflexivity.
  - case_bool_decide as Hk; simpl.
    + subst k0. rewrite !bool_decide_eq_false_2 by exact Hne. reflexivity.
    + case_bool_decide; [reflexivity|exact IH].
Qed.


Lemma buildElement_scalar w o node el v path :
  isScalar v = true ->
  buildElement w o node el v path = Returned (txt node (js_String v)).
Proof.
  intros Hs. rewrite buildElement_unfold. unfold buildElementWith.
  destruct v; try discriminate; destruct (resolveComplexTypeForElement w el); reflexivity.
Qed.

Section SchemaCasing.
Variable w : SchemaWalker.
Variable o : BuildOptions.


End SchemaCasing.





(* ===================================================================== *)
(** ** Validator: the accumulator holds every issue of the pass           *)
(* ===================================================================== *)

Lemma checkRequiredAttributes_spec prefix attrs obj path issues :
  checkRequiredAttributes prefix attrs obj path issues
  = issues ++ requiredAttributeIssues prefix attrs obj path.
Proof.
  revert issues. induction attrs as [|a r IH]; intros issues; simpl.
  - now rewrite app_nil_r.
  - rewrite IH. unfold requiredAttributeIssues at 2. simpl.
    fold (requiredAttributeIssues prefix r obj path).
    destruct (attr_use a); try reflexivity.
    destruct (isUndefined _); [|reflexivity]. now rewrite <- app_assoc.
Qed.

Lemma checkUnknownKeys_spec textKey knownC knownA wild elName keys path issues :
  checkUnknownKeys textKey knownC knownA wild elName keys path issues
  = issues ++ unknownKeyIssues textKey knownC knownA wild elName keys path.
Proof.
  revert issues. induction keys as [|k r IH]; intros issues; simpl.
  - now rewrite app_nil_r.
  - rewrite IH. unfold unknownKeyIssues at 2. simpl.
    fold (unknownKeyIssues textKey knownC knownA wild elName r path).
    case_bool_decide; [reflexivity|].
    destruct (_ || _); [reflexivity|]. destruct wild; [reflexivity|].
    now rewrite <- app_assoc.
Qed.

Section ValidatorAccumulates.
Variable w : SchemaWalker.
Variables attributePrefix textNodeKey : string.

Lemma validateItems_spec call issuesOf d el items i path issues :
  (forall e v p acc, json_depth v < d -> call e v p acc = Some (acc ++ issuesOf e v p)) ->
  (forall x, In x items -> json_depth x < d) ->
  validateItems call el items i path issues
  = Some (issues ++ itemIssues issuesOf el items i path).
Proof.
  intros Hcall. revert i issues.
  induction items as [|x r IH]; intros i issues Hd; simpl.
  - now rewrite app_nil_r.
  - rewrite Hcall by (apply Hd; now left).
    rewrite IH by (intros y Hy; apply Hd; now right).
    now rewrite <- app_assoc.
Qed.

Lemma validateChildren_spec call issuesOf children obj path issues :
  (forall e v p acc, json_depth v < json_depth (JObject obj) ->
                     call e v p acc = Some (acc ++ issuesOf e v p)) ->
  validateChildren call children obj path issues
  = Some (issues ++ flat_map (childIssues issuesOf obj path) children).
Proof.
  intros Hcall. revert issues.
  induction children as [|c r IH]; intros issues; simpl.
  - now rewrite app_nil_r.
  - unfold childIssues at 1.
    destruct (_ && _).
    + rewrite IH. now rewrite <- app_assoc.
    + destruct (negb _).
      * rewrite Hcall by apply js_get_depth. rewrite IH. now rewrite <- app_assoc.
      * rewrite IH. reflexivity.
Qed.

Lemma validateElement_fuel_spec fuel el value path issues :
  json_depth value < fuel ->
  validateElement_fuel fuel w attributePrefix textNodeKey el value path issues
  = Some (issues ++ allIssues_fuel fuel w attributePrefix textNodeKey el value path).
Proof.
  revert el value path issues.
  induction fuel as [|fuel IH]; intros el value path issues Hd; [lia|].
  simpl. unfold validateElementWith, allIssuesWith.
  destruct value as [| |b|num|str|items|obj].
  1-5: destruct (resolveComplexTypeForElement w el); rewrite ?app_nil_r; try reflexivity;
       destruct (0 <? el_minOccurs el)%Z; rewrite ?app_nil_r; reflexivity.
  - destruct (negb (el_isArray el)); [reflexivity|].
    apply (validateItems_spec _ _ fuel).
    + intros e v p acc Hv. apply IH. exact Hv.
    + intros x Hx. pose proof (depth_array_item items x Hx). lia.
  - destruct (resolveComplexTypeForElement w el); [|reflexivity].
    rewrite checkRequiredAttributes_spec.
    rewrite (validateChildren_spec _
               (allIssues_fuel fuel w attributePrefix textNodeKey)).
    + rewrite checkUnknownKeys_spec. rewrite <- !app_assoc. reflexivity.
    + intros e v p acc Hv. apply IH. lia.
Qed.

Lemma itemIssues_ext f g d el items i path :
  (forall e v p, json_depth v < d -> f e v p = g e v p) ->
  (forall x, In x items -> json_depth x < d) ->
  itemIssues f el items i path = itemIssues g el items i path.
Proof.
  intros Hfg. revert i. induction items as [|x r IH]; intros i Hd; simpl; [reflexivity|].
  rewrite Hfg by (apply Hd; now left).
  rewrite IH by (intros y Hy; apply Hd; now right). reflexivity.
Qed.

Lemma childIssues_ext f g obj path c :
  (forall e v p, json_depth v < json_depth (JObject obj) -> f e v p = g e v p) ->
  childIssues f obj path c = childIssues g obj path c.
Proof.
  intros Hfg. unfold childIssues.
  destruct (_ && _); [reflexivity|]. destruct (negb _); [|reflexivity].
  apply Hfg, js_get_depth.
Qed.

Lemma allIssuesWith_ext f g el value path :
  (forall e v p, json_depth v < json_depth value -> f e v p = g e v p) ->
  allIssuesWith f w attributePrefix textNodeKey el value path
  = allIssuesWith g w attributePrefix textNodeKey el value path.
Proof.
  intros Hfg. unfold allIssuesWith.
  destruct value as [| |b|num|str|items|obj]; try reflexivity.
  - destruct (negb (el_isArray el)); [reflexivity|].
    apply (itemIssues_ext f g (json_depth (JArray items))); [exact Hfg|].
    apply depth_array_item.
  - destruct (resolveComplexTypeForElement w el) as [ct|]; [|reflexivity].
    f_equal. f_equal.
    induction (getChildElementsForElement w el) as [|c r IHr]; simpl; [reflexivity|].
    rewrite IHr. f_equal. apply childIssues_ext. exact Hfg.
Qed.

Lemma allIssues_fuel_stable f1 f2 el value path :
  json_depth value < f1 -> json_depth value < f2 ->
  allIssues_fuel f1 w attributePrefix textNodeKey el value path
  = allIssues_fuel f2 w attributePrefix textNodeKey el value path.
Proof.
  revert f2 el value path.
  induction f1 as [|f1 IH]; intros f2 el value path H1 H2; [lia|].
  destruct f2 as [|f2]; [lia|]. simpl.
  apply allIssuesWith_ext. intros e v p Hv. apply IH; lia.
Qed.

(** [validateElement] hands back the issues it was given followed by all
    the issues of the value. *)
Lemma validateElement_spec el value path issues :
  validateElement w attributePrefix textNodeKey el value path issues
  = Some (issues ++ allIssues w attributePrefix textNodeKey el value path).
Proof. unfold validateElement, allIssues. apply validateElement_fuel_spec. lia. Qed.

(** [allIssues] satisfies the recursive equation of its body. *)
Lemma allIssues_unfold el value path :
  allIssues w attributePrefix textNodeKey el value path
  = allIssuesWith (allIssues w attributePrefix textNodeKey)
      w attributePrefix textNodeKey el value path.
Proof.
  unfold allIssues at 1. simpl.
  apply allIssuesWith_ext. intros e v p Hv.
  unfold allIssues. apply allIssues_fuel_stable; lia.
Qed.
End ValidatorAccumulates.

Example validation_reports_every_issue :
  validateJson [("name", JArray [JString "n"]); ("zzz", JNull)] personWalker "@" "#text"
  = Thrown
      (mkXsdValidationError
         [missingAttribute "$.person" "@id" "id";
          notMultiple "$.person.name" "name";
          unknownProperty "$.person" "zzz" "person"]).
Proof. vm_compute. reflexivity. Qed.

(** C3: when the root element name is not in the schema, [validateJson]
    throws at once with the single root-not-found issue at [$].  Otherwise
    it returns without throwing when the pass finds no issue, and throws one
    error carrying the complete issue list of the pass when it finds any.
    The pass never drops an issue: every call of [validateElement] hands
    back the issues it received followed by all the issues of its value,
    which are the issues of each check and of each item and child in turn. *)
Theorem C3_validation_throws_once_with_all_issues
    (w : SchemaWalker) (attributePrefix textNodeKey : string) (json : JsonObject) :
  (lookupElement w (rootElement (schema w)) = None ->
   validateJson json w attributePrefix textNodeKey
   = Thrown (mkXsdValidationError [mkIssue "$" (rootNotFound (rootElement (schema w)))])) /\
  (forall rootEl,
      lookupElement w (rootElement (schema w)) = Some rootEl ->
      validateJson json w attributePrefix textNodeKey
      = match
          allIssues w attributePrefix textNodeKey rootEl
            (validatedValue json (rootElement (schema w)))
            ("$." +:+ rootElement (schema w))
        with
        | [] => Returned tt
        | found => Thrown (mkXsdValidationError found)
        end) /\
  (forall el value path acc,
      validateElement w attributePrefix textNodeKey el value path acc
      = Some (acc ++ allIssues w attributePrefix textNodeKey el value path)) /\
  (forall el value path,
      allIssues w attributePrefix textNodeKey el value path
      = allIssuesWith (allIssues w attributePrefix textNodeKey)
          w attributePrefix textNodeKey el value path).
Proof.
  split; [|split; [|split]].
  - intros Hroot. unfold validateJson. rewrite Hroot. reflexivity.
  - intros rootEl Hroot. unfold validateJson. rewrite Hroot.
    rewrite validateElement_spec. simpl.
    destruct (allIssues _ _ _ _ _ _); reflexivity.
  - apply validateElement_spec.
  - apply allIssues_unfold.
Qed.

Lemma C3_validation_throws_once_with_all_issues_witness :
  validateJson [("name", JArray [JString "n"]); ("zzz", JNull)] personWalker "@" "#text"
  = match
      allIssues personWalker "@" "#text" (typedElement "person" "PersonType")
        (validatedValue [("name", JArray [JString "n"]); ("zzz", JNull)] "person")
        "$.person"
    with
    | [] => Returned tt
    | found => Thrown (mkXsdValidationError found)
    end.
Proof.
  apply (proj1 (proj2 (C3_validation_throws_once_with_all_issues personWalker "@" "#text"
                         [("name", JArray [JString "n"]); ("zzz", JNull)]))
           (typedElement "person" "PersonType") eq_refl).
Defined.

(* ===================================================================== *)
(** ** A required attribute given as null                                 *)
(* ===================================================================== *)

Example null_required_attribute_passes :
  validateJson [("@id", JNull); ("name", JString "n")] personWalker "@" "#text"
  = Returned tt /\
  buildXml [("@id", JNull); ("name", JString "n")] personWalker defaultOptions
  = Returned (XElem "person" [] [XElem "name" [] [XText "n"]]).
Proof. split; vm_compute; reflexivity. Qed.

Lemma requiredAttributeIssues_In prefix attrs obj path issue :
  In issue (requiredAttributeIssues prefix attrs obj path) <->
  exists a, In a attrs /\ attr_use a = required /\
            js_get obj (prefix +:+ attr_name a) = JUndefined /\
            issue = missingAttribute path (prefix +:+ attr_name a) (attr_name a).
Proof.
  unfold requiredAttributeIssues. rewrite in_flat_map. split.
  - intros (a & Hin & Hissue). exists a.
    destruct (attr_use a) eqn:Huse; simpl in Hissue; [|contradiction..].
    destruct (js_get obj (prefix +:+ attr_name a)) eqn:Hval; simpl in Hissue;
      try contradiction.
    destruct Hissue as [<-|[]]. auto.
  - intros (a & Hin & Huse & Hval & ->). exists a. split; [exact Hin|].
    rewrite Huse, Hval. now left.
Qed.

Lemma js_get_own obj key : js_get obj key <> JUndefined -> hasOwnProperty obj key = true.
Proof.
  induction obj as [|[k v] r IH]; simpl; [congruence|].
  case_bool_decide; [reflexivity|exact IH].
Qed.

(** C10: the required-attribute check reports an attribute exactly when the
    value under its prefixed key is [undefined].  For a [use=required]
    attribute whose key holds an explicit [null], the check adds no issue
    for it, and the Builder's attribute step writes the schema default when
    there is one and no attribute otherwise. *)
Theorem C10_null_required_attribute_passes
    (o : BuildOptions) (attrs : list AttributeDef) (obj : JsonObject)
    (path : string) (acc : list ValidationIssue) (node : XMLBuilder) (a : AttributeDef) :
  In a attrs ->
  attr_use a = required ->
  js_get obj (attributePrefix o +:+ attr_name a) = JNull ->
  checkRequiredAttributes (attributePrefix o) attrs obj path acc
  = acc ++ requiredAttributeIssues (attributePrefix o) attrs obj path /\
  (forall issue,
      In issue (requiredAttributeIssues (attributePrefix o) attrs obj path) <->
      exists a', In a' attrs /\ attr_use a' = required /\
                 js_get obj (attributePrefix o +:+ attr_name a') = JUndefined /\
                 issue = missingAttribute path (attributePrefix o +:+ attr_name a')
                           (attr_name a')) /\
  ~ In (missingAttribute path (attributePrefix o +:+ attr_name a) (attr_name a))
       (requiredAttributeIssues (attributePrefix o) attrs obj path) /\
  applyAttributes o [a] obj node
  = match attr_default a with
    | Some d => att node (attr_name a) d
    | None => node
    end.
Proof.
  intros Hin Huse Hnull. split; [apply checkRequiredAttributes_spec|].
  split; [intros issue; apply requiredAttributeIssues_In|]. split.
  - intros Hissue. apply requiredAttributeIssues_In in Hissue.
    destruct Hissue as (a' & _ & _ & Hundef & Heq).
    unfold missingAttribute in Heq. injection Heq as Hpath _.
    apply String.app_inj in Hpath. apply (String.app_inj ".") in Hpath.
    rewrite <- Hpath, Hnull in Hundef. discriminate.
  - simpl. unfold lookupCI.
    rewrite js_get_own by (rewrite Hnull; discriminate).
    rewrite Hnull. reflexivity.
Qed.

Lemma C10_null_required_attribute_passes_witness :
  checkRequiredAttributes "@" (ct_attributes personType) [("@id", JNull)] "$.person" []
  = [] ++ requiredAttributeIssues "@" (ct_attributes personType) [("@id", JNull)] "$.person" /\
  ~ In (missingAttribute "$.person" "@id" "id")
       (requiredAttributeIssues "@" (ct_attributes personType) [("@id", JNull)] "$.person") /\
  applyAttributes defaultOptions [mkAttributeDef "id" "xs:string" required None None]
    [("@id", JNull)] (newNode [])
  = newNode [].
Proof.
  destruct (C10_null_required_attribute_passes defaultOptions (ct_attributes personType)
              [("@id", JNull)] "$.person" [] (newNode [])
              (mkAttributeDef "id" "xs:string" required None None)
              (or_introl eq_refl) eq_refl eq_refl) as (H1 & _ & H3 & H4).
  exact (conj H1 (conj H3 H4)).
Defined.

(* ===================================================================== *)
(** ** Registries: keys stay unique and the first writer wins             *)
(* ===================================================================== *)

Section MapFacts.
Context {V : Type}.
Implicit Types (m target source : JsMap V) (k : string) (v : V).

Lemma Map_has_keys m k : Map_has m k = true <-> In k (Map_keys m).
Proof.
  unfold Map_has, Map_keys. induction m as [|[k' v'] m IH]; simpl.
  - split; [discriminate|tauto].
  - case_bool_decide as Hk; [split; auto|].
    rewrite IH. split; [auto|]. intros [Heq|Hin]; [contradiction|exact Hin].
Qed.

Lemma Map_get_keys m k v : Map_get m k = Some v -> In k (Map_keys m).
Proof. intros H. apply Map_has_keys. unfold Map_has. now rewrite H. Qed.

Lemma Map_set_keys_fresh m k v :
  ~ In k (Map_keys m) -> Map_keys (Map_set m k v) = Map_keys m ++ [k].
Proof.
  unfold Map_keys. induction m as [|[k' v'] m IH]; simpl; [reflexivity|].
  intros Hnot. rewrite bool_decide_eq_false_2 by tauto. simpl. f_equal. apply IH. tauto.
Qed.

Lemma Map_set_keys_same m k v :
  In k (Map_keys m) -> Map_keys (Map_set m k v) = Map_keys m.
Proof.
  unfold Map_keys. induction m as [|[k' v'] m IH]; simpl; [tauto|].
  intros Hin. case_bool_decide as Hk; simpl; [reflexivity|].
  f_equal. apply IH. destruct Hin; [contradiction|assumption].
Qed.

Lemma Map_set_NoDup m k v : NoDup (Map_keys m) -> NoDup (Map_keys (Map_set m k v)).
Proof.
  intros Hnd. destruct (in_dec string_dec k (Map_keys m)) as [Hin|Hnot].
  - now rewrite Map_set_keys_same.
  - rewrite Map_set_keys_fresh by exact Hnot.
    apply NoDup_app. split; [exact Hnd|]. split.
    + intros x Hx [->|[]]%list_elem_of_In. apply Hnot. now apply list_elem_of_In.
    + apply NoDup_singleton.
Qed.

Lemma Map_set_entries m k v k' v' :
  In (k', v') (Map_set m k v) -> In (k', v') m \/ (k', v') = (k, v).
Proof.
  induction m as [|[k0 v0] m IH]; simpl.
  - intros [H|[]]. right. now symmetry.
  - case_bool_decide as Hk; simpl.
    + intros [H|H]; [right; subst k0; now symmetry|left; now right].
    + intros [H|H]; [left; now left|]. destruct (IH H); auto.
Qed.

Lemma setIfAbsent_NoDup m k v : NoDup (Map_keys m) -> NoDup (Map_keys (setIfAbsent m k v)).
Proof. unfold setIfAbsent. destruct (Map_has m k); [auto|apply Map_set_NoDup]. Qed.

(** An existing binding is never replaced. *)
Lemma setIfAbsent_keeps m k v k' v' :
  Map_get m k' = Some v' -> Map_get (setIfAbsent m k v) k' = Some v'.
Proof.
  intros Hget. unfold setIfAbsent, Map_has.
  destruct (Map_get m k) eqn:Hk; [exact Hget|].
  rewrite Map_get_set_ne; [exact Hget|]. intros ->. congruence.
Qed.

Lemma setIfAbsent_has m k v : In k (Map_keys (setIfAbsent m k v)).
Proof.
  unfold setIfAbsent. destruct (Map_has m k) eqn:Hk.
  - now apply Map_has_keys.
  - eapply Map_get_keys, Map_get_set_eq.
Qed.

Lemma setIfAbsent_keys_mono m k v k' :
  In k' (Map_keys m) -> In k' (Map_keys (setIfAbsent m k v)).
Proof.
  intros Hin. apply Map_has_keys in Hin. unfold Map_has in Hin.
  destruct (Map_get m k') as [v'|] eqn:Hget; [|discriminate].
  eapply Map_get_keys, setIfAbsent_keeps, Hget.
Qed.

Lemma setIfAbsent_entries m k v k' v' :
  In (k', v') (setIfAbsent m k v) -> In (k', v') m \/ (k', v') = (k, v).
Proof. unfold setIfAbsent. destruct (Map_has m k); [auto|apply Map_set_entries]. Qed.

Lemma mergePrefixed_fold prefixes target source :
  mergePrefixed prefixes target source
  = fold_left (registerPrefixed prefixes) source target.
Proof. reflexivity. Qed.

Lemma mergeAbsent_mergePrefixed target source :
  mergeAbsent target source = mergePrefixed [] target source.
Proof. reflexivity. Qed.

(** What holds of one registration step, and so of a whole merge:
    [P] is kept by every [setIfAbsent]. *)
Lemma registerPrefixed_ind (P : JsMap V -> Prop) prefixes (acc : JsMap V)
    (kv : string * V) :
  (forall m k v, P m -> P (setIfAbsent m k v)) ->
  P acc -> P (registerPrefixed prefixes acc kv).
Proof.
  intros Hstep Hacc. unfold registerPrefixed.
  generalize (setIfAbsent acc (fst kv) (snd kv)) (Hstep acc (fst kv) (snd kv) Hacc).
  induction prefixes as [|pfx r IH]; intros m Hm; simpl; [exact Hm|].
  apply IH, Hstep, Hm.
Qed.

Lemma mergePrefixed_ind (P : JsMap V -> Prop) prefixes target source :
  (forall m k v, P m -> P (setIfAbsent m k v)) ->
  P target -> P (mergePrefixed prefixes target source).
Proof.
  intros Hstep. rewrite mergePrefixed_fold. revert target.
  induction source as [|kv r IH]; intros target Ht; simpl; [exact Ht|].
  apply IH, registerPrefixed_ind; assumption.
Qed.

Lemma mergePrefixed_NoDup prefixes target source :
  NoDup (Map_keys target) -> NoDup (Map_keys (mergePrefixed prefixes target source)).
Proof.
  apply (mergePrefixed_ind (fun m : JsMap V => NoDup (Map_keys m))), setIfAbsent_NoDup.
Qed.

Lemma mergePrefixed_keeps prefixes target source k v :
  Map_get target k = Some v -> Map_get (mergePrefixed prefixes target source) k = Some v.
Proof.
  apply (mergePrefixed_ind (fun m : JsMap V => Map_get m k = Some v)).
  intros m k0 v0. apply setIfAbsent_keeps.
Qed.

Lemma mergePrefixed_keys_mono prefixes target source k :
  In k (Map_keys target) -> In k (Map_keys (mergePrefixed prefixes target source)).
Proof.
  apply (mergePrefixed_ind (fun m : JsMap V => In k (Map_keys m))).
  intros m k0 v0. apply setIfAbsent_keys_mono.
Qed.

Lemma registerPrefixed_registers prefixes (acc : JsMap V) (kv : string * V) :
  In (fst kv) (Map_keys (registerPrefixed prefixes acc kv)) /\
  forall pfx, In pfx prefixes ->
              In (pfx +:+ ":" +:+ fst kv) (Map_keys (registerPrefixed prefixes acc kv)).
Proof.
  unfold registerPrefixed.
  generalize (setIfAbsent acc (fst kv) (snd kv)) (setIfAbsent_has acc (fst kv) (snd kv)).
  induction prefixes as [|p r IH]; intros m Hm; simpl.
  - split; [exact Hm|]. intros pfx [].
  - destruct (IH (setIfAbsent m (p +:+ ":" +:+ fst kv) (snd kv))
                (setIfAbsent_keys_mono _ _ _ _ Hm)) as [Hbare Hpfx].
    split; [exact Hbare|]. intros pfx [<-|Hin]; [|auto].
    clear IH Hbare Hpfx.
    generalize (setIfAbsent m (p +:+ ":" +:+ fst kv) (snd kv))
               (setIfAbsent_has m (p +:+ ":" +:+ fst kv) (snd kv)).
    induction r as [|q r IHr]; intros m' Hm'; simpl; [exact Hm'|].
    apply IHr, setIfAbsent_keys_mono, Hm'.
Qed.

(** Every name of the source ends up registered, bare and under every
    prefix. *)
Lemma mergePrefixed_registers prefixes target source k :
  In k (Map_keys source) ->
  In k (Map_keys (mergePrefixed prefixes target source)) /\
  forall pfx, In pfx prefixes ->
              In (pfx +:+ ":" +:+ k) (Map_keys (mergePrefixed prefixes target source)).
Proof.
  rewrite mergePrefixed_fold. revert target.
  induction source as [|kv r IH]; intros target Hin; [destruct Hin|]. simpl.
  destruct Hin as [<-|Hin]; [|apply IH, Hin].
  destruct (registerPrefixed_registers prefixes target kv) as [Hbare Hpfx].
  rewrite <- !mergePrefixed_fold. split.
  - apply mergePrefixed_keys_mono, Hbare.
  - intros pfx Hp. apply mergePrefixed_keys_mono, Hpfx, Hp.
Qed.

Lemma setIfAbsent_keys_from m k v k' :
  In k' (Map_keys (setIfAbsent m k v)) -> In k' (Map_keys m) \/ k' = k.
Proof. unfold setIfAbsent. destruct (Map_has m k); [auto|apply Map_set_keys]. Qed.

(** Every key of a merged registry was a key of the target, or is a name
    of the source, bare or under one of the prefixes. *)
Lemma mergePrefixed_keys_from prefixes target source k :
  In k (Map_keys (mergePrefixed prefixes target source)) ->
  In k (Map_keys target) \/ In k (Map_keys source) \/
  exists pfx k0, In pfx prefixes /\ In k0 (Map_keys source) /\ k = pfx +:+ ":" +:+ k0.
Proof.
  unfold mergePrefixed. revert target.
  induction source as [|kv r IH]; intros target; simpl; [auto|].
  intros Hin. apply IH in Hin.
  destruct Hin as [Hin | [Hin | (pfx & k0 & Hp & Hk0 & ->)]];
    [|auto|right; right; exists pfx, k0; auto].
  assert (forall l m,
             (In k (Map_keys m) ->
              In k (Map_keys target) \/ k = fst kv \/
              exists pfx, In pfx prefixes /\ k = pfx +:+ ":" +:+ fst kv) ->
             (forall pfx, In pfx l -> In pfx prefixes) ->
             In k (Map_keys
                     (fold_left (fun a pfx => setIfAbsent a (pfx +:+ ":" +:+ fst kv) (snd kv))
                        l m)) ->
             In k (Map_keys target) \/ k = fst kv \/
             exists pfx, In pfx prefixes /\ k = pfx +:+ ":" +:+ fst kv) as Hfold.
  { induction l as [|pfx l IHl]; intros m Hm Hsub; simpl; [exact Hm|].
    apply IHl; [|intros q Hq; apply Hsub; now right].
    intros Hk. apply setIfAbsent_keys_from in Hk. destruct Hk as [Hk| ->]; [auto|].
    right. right. exists pfx. split; [apply Hsub; now left|reflexivity]. }
  unfold registerPrefixed in Hin. apply Hfold in Hin; [| |auto].
  - destruct Hin as [Hin | [-> | (pfx & Hp & ->)]]; [auto| |].
    + right. left. now left.
    + right. right. exists pfx, (fst kv). split; [exact Hp|]. split; [now left|reflexivity].
  - intros Hk. apply setIfAbsent_keys_from in Hk. destruct Hk; auto.
Qed.

(** Every value of a merged registry was in the target or in the source. *)
Lemma mergePrefixed_values prefixes target source v :
  In v (Map_values (mergePrefixed prefixes target source)) ->
  In v (Map_values target) \/ In v (Map_values source).
Proof.
  rewrite mergePrefixed_fold. revert target.
  induction source as [|kv r IH]; intros target; simpl; [auto|].
  intros Hin. apply IH in Hin. destruct Hin as [Hin|Hin]; [|auto].
  revert Hin. unfold registerPrefixed.
  assert (forall m, (In v (Map_values m) -> In v (Map_values target) \/ snd kv = v) ->
                    forall k, In v (Map_values (setIfAbsent m k (snd kv))) ->
                              In v (Map_values target) \/ snd kv = v) as Hstep.
  { intros m Hm k Hin. unfold Map_values in Hin. apply in_map_iff in Hin.
    destruct Hin as ([k' v'] & <- & Hin). apply setIfAbsent_entries in Hin.
    destruct Hin as [Hin|Heq].
    - apply Hm. unfold Map_values. apply in_map_iff. exists (k', v'). auto.
    - injection Heq as _ ->. now right. }
  assert (forall l m, (In v (Map_values m) -> In v (Map_values target) \/ snd kv = v) ->
                      In v (Map_values
                              (fold_left
                                 (fun a pfx => setIfAbsent a (pfx +:+ ":" +:+ fst kv) (snd kv))
                                 l m)) ->
                      In v (Map_values target) \/ snd kv = v) as Hfold.
  { induction l as [|pfx l IHl]; intros m Hm; simpl; [exact Hm|].
    apply IHl. apply Hstep, Hm. }
  intros Hin. apply Hfold in Hin.
  - destruct Hin as [Hin|Heq]; [auto|]. right. left. exact Heq.
  - apply Hstep. auto.
Qed.
End MapFacts.

(* ===================================================================== *)
(** ** Include/import resolution: visited set and termination            *)
(* ===================================================================== *)

Lemma truthy_Some_inv s loc : truthy (Some s) = Some loc -> s = loc /\ loc <> "".
Proof.
  destruct s as [|c r]; simpl; [discriminate|]. intros H. injection H as <-.
  split; [reflexivity|discriminate].
Qed.

Section ParserFacts.
Variable path_resolve : option string -> string -> string.
Variable path_dirname : string -> string.
Variable fs : gmap string FileContent.

#[local] Abbreviation parse := (parseXsdInternal_fuel path_resolve path_dirname fs).
#[local] Abbreviation Call := (string -> option string -> gset string
                  -> Completion XsdParseError SchemaModel * gset string).

(** Loop invariants: what holds before the loop and is kept by each round
    holds after it. *)
Lemma processIncludes_inv (I : Registries -> gset string -> Prop) (call : Call)
    includes dir acc visited acc' visited' :
  (forall a V loc,
      In loc includes -> loc <> "" -> I a V ->
      match call loc (Some dir) V with
      | (Returned m, V') => I (mergeIncluded a m) V'
      | (Thrown _, V') => I a V'
      | (OutOfFuel, _) => True
      end) ->
  I acc visited ->
  processIncludes call includes dir acc visited = Some (acc', visited') ->
  I acc' visited'.
Proof.
  revert acc visited. induction includes as [|s r IH]; intros acc visited Hstep HI H;
    cbn [processIncludes processImports] in H.
  - injection H as <- <-. exact HI.
  - assert (forall a V loc, In loc r -> loc <> "" -> I a V ->
              match call loc (Some dir) V with
              | (Returned m, V') => I (mergeIncluded a m) V'
              | (Thrown _, V') => I a V'
              | (OutOfFuel, _) => True
              end) as Hstep' by (intros a V loc Hin; apply Hstep; now right).
    destruct (truthy (Some s)) as [loc|] eqn:Hloc; [|exact (IH _ _ Hstep' HI H)].
    apply truthy_Some_inv in Hloc. destruct Hloc as [-> Hne].
    specialize (Hstep acc visited loc (or_introl eq_refl) Hne HI).
    destruct (call loc (Some dir) visited) as [[m|e|] V']; [| |discriminate];
      exact (IH _ _ Hstep' Hstep H).
Qed.

Lemma processImports_inv (I : Registries -> gset string -> Prop) (call : Call)
    prefixMap imports dir acc visited acc' visited' :
  (forall a V ns loc,
      In (ns, loc) imports -> loc <> "" -> I a V ->
      match call loc (Some dir) V with
      | (Returned m, V') => I (mergeImported (prefixesFor prefixMap ns) a m) V'
      | (Thrown _, V') => I a V'
      | (OutOfFuel, _) => True
      end) ->
  I acc visited ->
  processImports call prefixMap imports dir acc visited = Some (acc', visited') ->
  I acc' visited'.
Proof.
  revert acc visited. induction imports as [|[ns s] r IH]; intros acc visited Hstep HI H;
    cbn [processIncludes processImports] in H.
  - injection H as <- <-. exact HI.
  - assert (forall a V ns0 loc, In (ns0, loc) r -> loc <> "" -> I a V ->
              match call loc (Some dir) V with
              | (Returned m, V') => I (mergeImported (prefixesFor prefixMap ns0) a m) V'
              | (Thrown _, V') => I a V'
              | (OutOfFuel, _) => True
              end) as Hstep' by (intros a V ns0 loc Hin; apply Hstep; now right).
    destruct (truthy (Some s)) as [loc|] eqn:Hloc; [|exact (IH _ _ Hstep' HI H)].
    apply truthy_Some_inv in Hloc. destruct Hloc as [-> Hne].
    specialize (Hstep acc visited ns loc (or_introl eq_refl) Hne HI).
    destruct (call loc (Some dir) visited) as [[m|e|] V']; [| |discriminate];
      exact (IH _ _ Hstep' Hstep H).
Qed.

(** The loops complete when every call does. *)
Lemma processIncludes_completes (I : gset string -> Prop) (call : Call)
    includes dir acc visited :
  (forall loc bd V, I V -> fst (call loc bd V) <> OutOfFuel /\ I (snd (call loc bd V))) ->
  I visited ->
  is_Some (processIncludes call includes dir acc visited).
Proof.
  intros Hcall. revert acc visited.
  induction includes as [|s r IH]; intros acc visited HI;
    cbn [processIncludes processImports]; [eauto|].
  destruct (truthy (Some s)) as [loc|]; [|apply IH, HI].
  destruct (Hcall loc (Some dir) visited HI) as [Hne HI'].
  destruct (call loc (Some dir) visited) as [[m|e|] V']; simpl in *;
    [apply IH, HI'|apply IH, HI'|congruence].
Qed.

Lemma processImports_completes (I : gset string -> Prop) (call : Call)
    prefixMap imports dir acc visited :
  (forall loc bd V, I V -> fst (call loc bd V) <> OutOfFuel /\ I (snd (call loc bd V))) ->
  I visited ->
  is_Some (processImports call prefixMap imports dir acc visited).
Proof.
  intros Hcall. revert acc visited.
  induction imports as [|[ns s] r IH]; intros acc visited HI;
    cbn [processIncludes processImports]; [eauto|].
  destruct (truthy (Some s)) as [loc|]; [|apply IH, HI].
  destruct (Hcall loc (Some dir) visited HI) as [Hne HI'].
  destruct (call loc (Some dir) visited) as [[m|e|] V']; simpl in *;
    [apply IH, HI'|apply IH, HI'|congruence].
Qed.

(** A call only adds to the visited set, and when it completes it has
    marked its own path. *)
Lemma parse_visited fuel xsdPath baseDir visited :
  visited ⊆ snd (parse fuel xsdPath baseDir visited) /\
  (fst (parse fuel xsdPath baseDir visited) <> OutOfFuel ->
   path_resolve (truthy baseDir) xsdPath ∈ snd (parse fuel xsdPath baseDir visited)).
Proof.
  revert xsdPath baseDir visited.
  induction fuel as [|fuel IH]; intros xsdPath baseDir visited; simpl.
  - split; [reflexivity|congruence].
  - case_bool_decide as Hv; simpl; [split; [reflexivity|auto]|].
    set (rp := path_resolve (truthy baseDir) xsdPath) in *.
    destruct (fs !! rp) as [[| | |raw]|]; simpl; try (split; [|intros _]; set_solver).
    destruct (processIncludes _ _ _ _ _) as [[acc1 V2]|] eqn:Hinc; simpl;
      [|split; [|intros _]; set_solver].
    assert ({[rp]} ∪ visited ⊆ V2) as H12.
    { apply (processIncludes_inv (fun _ V => {[rp]} ∪ visited ⊆ V)) in Hinc;
        [exact Hinc| |reflexivity].
      intros a V loc _ _ HV. pose proof (proj1 (IH loc (Some (path_dirname rp)) V)) as Hm.
      destruct (parse fuel loc _ V) as [[m|e|] V']; simpl in Hm; [| |exact I]; set_solver. }
    destruct (processImports _ _ _ _ _ _) as [[acc2 V3]|] eqn:Himp; simpl;
      [|split; [|intros _]; set_solver].
    assert (V2 ⊆ V3) as H23.
    { apply (processImports_inv (fun _ V => V2 ⊆ V)) in Himp;
        [exact Himp| |reflexivity].
      intros a V ns loc _ _ HV. pose proof (proj1 (IH loc (Some (path_dirname rp)) V)) as Hm.
      destruct (parse fuel loc _ V) as [[m|e|] V']; simpl in Hm; [| |exact I]; set_solver. }
    split; [|intros _]; set_solver.
Qed.

Lemma unread_shrinks (rp : string) (visited : gset string) :
  rp ∈ dom fs -> rp ∉ visited ->
  size (dom fs ∖ ({[ rp ]} ∪ visited)) < size (dom fs ∖ visited).
Proof. intros Hin Hnot. apply subset_size. set_solver. Qed.

(** Termination: with more fuel than there are unread files, a call
    returns or throws. *)
Lemma parse_completes fuel xsdPath baseDir visited :
  size (dom fs ∖ visited) < fuel ->
  fst (parse fuel xsdPath baseDir visited) <> OutOfFuel.
Proof.
  revert xsdPath baseDir visited.
  induction fuel as [|fuel IH]; intros xsdPath baseDir visited Hlt; [lia|]. simpl.
  case_bool_decide as Hv; simpl; [discriminate|].
  set (rp := path_resolve (truthy baseDir) xsdPath) in *.
  destruct (fs !! rp) as [[| | |raw]|] eqn:Hfile; simpl; try discriminate.
  assert (rp ∈ dom fs) as Hdom by (apply elem_of_dom; eauto).
  pose proof (unread_shrinks rp visited Hdom Hv) as Hshrink.
  assert (forall loc bd V,
             {[rp]} ∪ visited ⊆ V ->
             fst (parse fuel loc bd V) <> OutOfFuel /\
             {[rp]} ∪ visited ⊆ snd (parse fuel loc bd V)) as Hcall.
  { intros loc bd V HV. split.
    - apply IH. assert (size (dom fs ∖ V) <= size (dom fs ∖ ({[rp]} ∪ visited))); [|lia].
      apply subseteq_size. set_solver.
    - pose proof (proj1 (parse_visited fuel loc bd V)). set_solver. }
  destruct (processIncludes_completes (fun V => {[rp]} ∪ visited ⊆ V) (parse fuel)
              (raw_includes raw) (path_dirname rp) (collectLocal raw)
              ({[rp]} ∪ visited) Hcall) as [[acc1 V2] Hinc]; [reflexivity|].
  rewrite Hinc.
  assert ({[rp]} ∪ visited ⊆ V2) as H12.
  { apply (processIncludes_inv (fun _ V => {[rp]} ∪ visited ⊆ V)) in Hinc;
      [exact Hinc| |reflexivity].
    intros a V loc _ _ HV. pose proof (proj2 (Hcall loc (Some (path_dirname rp)) V HV)) as Hm.
    destruct (parse fuel loc _ V) as [[m|e|] V']; simpl in Hm; auto. }
  destruct (processImports_completes (fun V => {[rp]} ∪ visited ⊆ V) (parse fuel)
              (buildPrefixMap (raw_xmlns raw)) (raw_imports raw) (path_dirname rp) acc1
              V2 Hcall H12) as [[acc2 V3] Himp].
  rewrite Himp. simpl. discriminate.
Qed.

(** A call on a schema document it has not seen returns a model. *)
Lemma parse_schema_returns fuel xsdPath baseDir visited raw :
  path_resolve (truthy baseDir) xsdPath ∉ visited ->
  fs !! path_resolve (truthy baseDir) xsdPath = Some (SchemaDoc raw) ->
  fst (parse fuel xsdPath baseDir visited) <> OutOfFuel ->
  exists acc2,
    (exists V2 acc1,
        processIncludes (parse (pred fuel)) (raw_includes raw)
          (path_dirname (path_resolve (truthy baseDir) xsdPath)) (collectLocal raw)
          ({[path_resolve (truthy baseDir) xsdPath]} ∪ visited) = Some (acc1, V2) /\
        processImports (parse (pred fuel)) (buildPrefixMap (raw_xmlns raw))
          (raw_imports raw) (path_dirname (path_resolve (truthy baseDir) xsdPath))
          acc1 V2
        = Some (acc2, snd (parse fuel xsdPath baseDir visited))) /\
    fst (parse fuel xsdPath baseDir visited)
    = Returned
        (mkSchemaModel (effectiveRoot (localRoot raw) (reg_elements acc2))
           (reg_elements acc2) (reg_complexTypes acc2) (reg_simpleTypes acc2)
           (raw_targetNamespace raw)).
Proof.
  intros Hv Hfile. destruct fuel as [|fuel]; simpl; [congruence|].
  rewrite bool_decide_eq_false_2 by exact Hv. rewrite Hfile.
  destruct (processIncludes _ _ _ _ _) as [[acc1 V2]|]; simpl; [|congruence].
  destruct (processImports _ _ _ _ _ _) as [[acc2 V3]|] eqn:Himp; simpl; [|congruence].
  intros _. exists acc2. split; [|reflexivity]. exists V2, acc1. auto.
Qed.
End ParserFacts.

(* ===================================================================== *)
(** ** Include/import resolution: what a returned model holds            *)
(* ===================================================================== *)

Section RegistryFacts.
Variable path_resolve : option string -> string -> string.
Variable path_dirname : string -> string.
Variable fs : gmap string FileContent.
Context {V : Type}.
Variable regOf : Registries -> JsMap V.
Variable modelOf : SchemaModel -> JsMap V.
Hypothesis field_included :
  forall acc m, regOf (mergeIncluded acc m) = mergePrefixed [] (regOf acc) (modelOf m).
Hypothesis field_imported :
  forall ps acc m, exists ps',
    regOf (mergeImported ps acc m) = mergePrefixed ps' (regOf acc) (modelOf m).
Hypothesis field_model :
  forall root acc tns,
    modelOf (mkSchemaModel root (reg_elements acc) (reg_complexTypes acc)
               (reg_simpleTypes acc) tns) = regOf acc.
Hypothesis field_empty : modelOf emptyModel = [].
Hypothesis field_local_NoDup : forall raw, NoDup (Map_keys (regOf (collectLocal raw))).

#[local] Abbreviation parse := (parseXsdInternal_fuel path_resolve path_dirname fs).
#[local] Abbreviation good := (goodOutcome fs regOf modelOf).
#[local] Abbreviation goodReg := (goodRegistry fs regOf).

Lemma qualifiedFrom_mono (P Q : string -> Prop) k :
  (forall x, P x -> Q x) -> qualifiedFrom P k -> qualifiedFrom Q k.
Proof.
  intros HPQ H. induction H as [k Hk|pfx k _ IH];
    [apply qualified_bare, HPQ, Hk|apply qualified_prefix, IH].
Qed.

Lemma declaredBetween_mono before before' after after' k :
  before' ⊆ before -> after ⊆ after' ->
  declaredBetween fs regOf before after k -> declaredBetween fs regOf before' after' k.
Proof.
  intros Hb Ha (p & raw & Hp & Hnew & Hfile & Hk). exists p, raw.
  split; [set_solver|]. split; [set_solver|]. auto.
Qed.

Lemma goodRegistry_merge before now after reg m ps e :
  goodReg before now reg ->
  now ⊆ after ->
  (good now (Returned m, after) ->
   goodReg before after (mergePrefixed ps reg (modelOf m))) /\
  (good now (Thrown e, after) -> goodReg before after reg).
Proof.
  intros (Hsub & Hnd & Hnames & Hvals & Hkeys) Hmono. split.
  - intros (Hnd' & Hnames' & Hvals' & Hkeys'). split; [set_solver|].
    split; [|split; [|split]].
    + apply mergePrefixed_NoDup, Hnd.
    + intros p raw k Hp Hnew Hfile Hk.
      destruct (decide (p ∈ now)) as [Hin|Hout].
      * apply mergePrefixed_keys_mono. eapply Hnames; eauto.
      * apply mergePrefixed_registers. eapply Hnames'; eauto.
    + intros v Hv. apply mergePrefixed_values in Hv. destruct Hv as [Hv|Hv].
      * destruct (Hvals v Hv) as (p & raw & Hp & Hnew & Hfile & Hin).
        exists p, raw. split; [set_solver|]. auto.
      * destruct (Hvals' v Hv) as (p & raw & Hp & Hnew & Hfile & Hin).
        exists p, raw. split; [exact Hp|]. split; [set_solver|]. auto.
    + intros k Hk. apply mergePrefixed_keys_from in Hk.
      destruct Hk as [Hk | [Hk | (pfx & k0 & _ & Hk0 & ->)]].
      * eapply qualifiedFrom_mono; [|apply Hkeys, Hk].
        intros x. apply declaredBetween_mono; [reflexivity|exact Hmono].
      * eapply qualifiedFrom_mono; [|apply Hkeys', Hk].
        intros x. apply declaredBetween_mono; [exact Hsub|reflexivity].
      * apply qualified_prefix.
        eapply qualifiedFrom_mono; [|apply Hkeys', Hk0].
        intros x. apply declaredBetween_mono; [exact Hsub|reflexivity].
  - intros Hnone. split; [set_solver|]. split; [exact Hnd|]. split; [|split].
    + intros p raw k Hp Hnew Hfile Hk.
      destruct (decide (p ∈ now)) as [Hin|Hout]; [eapply Hnames; eauto|].
      exfalso. eapply Hnone; eauto.
    + intros v Hv. destruct (Hvals v Hv) as (p & raw & Hp & Hnew & Hfile & Hin).
      exists p, raw. split; [set_solver|]. auto.
    + intros k Hk. eapply qualifiedFrom_mono; [|apply Hkeys, Hk].
      intros x. apply declaredBetween_mono; [reflexivity|exact Hmono].
Qed.

Lemma parse_good fuel xsdPath baseDir visited :
  good visited (parse fuel xsdPath baseDir visited).
Proof.
  revert xsdPath baseDir visited.
  induction fuel as [|fuel IH]; intros xsdPath baseDir visited; simpl; [exact I|].
  case_bool_decide as Hv.
  { simpl. rewrite field_empty. split; [constructor|]. split; [|split].
    - intros p raw k Hp Hnew. contradiction.
    - intros v0 [].
    - intros k []. }
  set (rp := path_resolve (truthy baseDir) xsdPath) in *.
  destruct (fs !! rp) as [[| | |raw]|] eqn:Hfile; simpl;
    try (intros p raw0 Hp Hnew; assert (p = rp) as -> by set_solver; congruence).
  assert (goodReg visited ({[rp]} ∪ visited) (regOf (collectLocal raw))) as Hstart.
  { split; [set_solver|]. split; [apply field_local_NoDup|]. split; [|split].
    - intros p raw0 k Hp Hnew Hfile0 Hk. assert (p = rp) as -> by set_solver.
      rewrite Hfile in Hfile0. injection Hfile0 as <-. exact Hk.
    - intros v0 Hv0. exists rp, raw. split; [set_solver|]. auto.
    - intros k Hk. apply qualified_bare. exists rp, raw. split; [set_solver|]. auto. }
  destruct (processIncludes _ _ _ _ _) as [[acc1 V2]|] eqn:Hinc; simpl; [|exact I].
  assert (goodReg visited V2 (regOf acc1)) as Hmid.
  { apply (processIncludes_inv (fun a Vn => goodReg visited Vn (regOf a))) in Hinc;
      [exact Hinc| |exact Hstart].
    intros a Vn loc _ _ Ha.
    pose proof (IH loc (Some (path_dirname rp)) Vn) as Hgood.
    pose proof (proj1 (parse_visited path_resolve path_dirname fs fuel loc
                         (Some (path_dirname rp)) Vn)) as Hmono.
    destruct (parse fuel loc _ Vn) as [[m|e|] V']; simpl in Hmono; [| |exact I].
    - rewrite field_included.
      exact (proj1 (goodRegistry_merge _ _ _ _ m [] (mkXsdParseError "") Ha Hmono) Hgood).
    - exact (proj2 (goodRegistry_merge _ _ _ _ emptyModel [] e Ha Hmono) Hgood). }
  destruct (processImports _ _ _ _ _ _) as [[acc2 V3]|] eqn:Himp; simpl; [|exact I].
  assert (goodReg visited V3 (regOf acc2)) as Hend.
  { apply (processImports_inv (fun a Vn => goodReg visited Vn (regOf a))) in Himp;
      [exact Himp| |exact Hmid].
    intros a Vn ns loc _ _ Ha.
    pose proof (IH loc (Some (path_dirname rp)) Vn) as Hgood.
    pose proof (proj1 (parse_visited path_resolve path_dirname fs fuel loc
                         (Some (path_dirname rp)) Vn)) as Hmono.
    destruct (parse fuel loc _ Vn) as [[m|e|] V']; simpl in Hmono; [| |exact I].
    - destruct (field_imported (prefixesFor (buildPrefixMap (raw_xmlns raw)) ns) a m)
        as [ps' ->].
      exact (proj1 (goodRegistry_merge _ _ _ _ m ps' (mkXsdParseError "") Ha Hmono) Hgood).
    - exact (proj2 (goodRegistry_merge _ _ _ _ emptyModel [] e Ha Hmono) Hgood). }
  rewrite field_model. destruct Hend as (_ & Hnd & Hnames & Hvals & Hkeys). auto.
Qed.

(** The document's own definitions are never replaced by merged ones. *)
Lemma parse_keeps_local fuel xsdPath baseDir visited raw m k v :
  path_resolve (truthy baseDir) xsdPath ∉ visited ->
  fs !! path_resolve (truthy baseDir) xsdPath = Some (SchemaDoc raw) ->
  fst (parse fuel xsdPath baseDir visited) = Returned m ->
  Map_get (regOf (collectLocal raw)) k = Some v ->
  Map_get (modelOf m) k = Some v.
Proof.
  intros Hv Hfile Hret Hlocal.
  destruct (parse_schema_returns path_resolve path_dirname fs fuel xsdPath baseDir
              visited raw Hv Hfile) as (acc2 & (V2 & acc1 & Hinc & Himp) & Hm).
  { rewrite Hret. discriminate. }
  rewrite Hret in Hm. injection Hm as ->. rewrite field_model.
  apply (processImports_inv (fun a _ => Map_get (regOf a) k = Some v)) in Himp;
    [exact Himp| |].
  - intros a Vn ns loc _ _ Ha.
    destruct (parse _ loc _ Vn) as [[m|e|] V']; [|exact Ha|exact I].
    destruct (field_imported (prefixesFor (buildPrefixMap (raw_xmlns raw)) ns) a m)
      as [ps' ->].
    apply mergePrefixed_keeps, Ha.
  - apply (processIncludes_inv (fun a _ => Map_get (regOf a) k = Some v)) in Hinc;
      [exact Hinc| |exact Hlocal].
    intros a Vn loc _ _ Ha.
    destruct (parse _ loc _ Vn) as [[m|e|] V']; [|exact Ha|exact I].
    rewrite field_included. apply mergePrefixed_keeps, Ha.
Qed.
End RegistryFacts.

(* ===================================================================== *)
(** ** The local collection loops                                         *)
(* ===================================================================== *)

Lemma fold_left_NoDup {A V} (f : JsMap V -> A -> JsMap V) (l : list A) (init : JsMap V) :
  (forall m x, NoDup (Map_keys m) -> NoDup (Map_keys (f m x))) ->
  NoDup (Map_keys init) -> NoDup (Map_keys (fold_left f l init)).
Proof.
  intros Hf. revert init. induction l as [|x r IH]; intros init Hinit; simpl; auto.
Qed.

Lemma fold_left_registers {A V} (f : JsMap V -> A -> JsMap V) (key : A -> string)
    (named : A -> Prop) (l : list A) (init : JsMap V) x :
  (forall m y k, In k (Map_keys m) -> In k (Map_keys (f m y))) ->
  (forall m y, named y -> In (key y) (Map_keys (f m y))) ->
  In x l -> named x -> In (key x) (Map_keys (fold_left f l init)).
Proof.
  intros Hmono Hreg. revert init. induction l as [|y r IH]; intros init Hin Hx; [destruct Hin|].
  simpl. destruct Hin as [->|Hin]; [|apply IH; assumption].
  clear IH. generalize (f init x) (Hreg init x Hx). induction r as [|z r IHr]; intros m Hm;
    simpl; [exact Hm|]. apply IHr, Hmono, Hm.
Qed.

Lemma fold_left_values {A} (f : JsMap A -> A -> JsMap A) (l : list A) (init : JsMap A) v :
  (forall m y u, In u (Map_values (f m y)) -> In u (Map_values m) \/ u = y) ->
  In v (Map_values (fold_left f l init)) -> In v (Map_values init) \/ In v l.
Proof.
  intros Hf. revert init. induction l as [|y r IH]; intros init; simpl; [auto|].
  intros Hin. apply IH in Hin. destruct Hin as [Hin|Hin]; [|auto].
  apply Hf in Hin. destruct Hin as [Hin| ->]; auto.
Qed.

Lemma Map_set_values {V} (m : JsMap V) k v u :
  In u (Map_values (Map_set m k v)) -> In u (Map_values m) \/ u = v.
Proof.
  unfold Map_values. intros Hin. apply in_map_iff in Hin.
  destruct Hin as ([k' v'] & <- & Hin). apply Map_set_entries in Hin.
  destruct Hin as [Hin|Heq].
  - left. apply in_map_iff. exists (k', v'). auto.
  - injection Heq as _ ->. now right.
Qed.

Lemma Map_set_keys_mono {V} (m : JsMap V) k v k' :
  In k' (Map_keys m) -> In k' (Map_keys (Map_set m k v)).
Proof.
  intros Hin. destruct (in_dec string_dec k (Map_keys m)) as [Hk|Hk].
  - now rewrite Map_set_keys_same.
  - rewrite Map_set_keys_fresh by exact Hk. apply in_or_app. now left.
Qed.

Lemma Map_set_has {V} (m : JsMap V) k v : In k (Map_keys (Map_set m k v)).
Proof. eapply Map_get_keys, Map_get_set_eq. Qed.

Lemma collectLocal_NoDup raw :
  NoDup (Map_keys (reg_elements (collectLocal raw))) /\
  NoDup (Map_keys (reg_complexTypes (collectLocal raw))) /\
  NoDup (Map_keys (reg_simpleTypes (collectLocal raw))).
Proof.
  unfold collectLocal. simpl. repeat split; apply fold_left_NoDup; try constructor.
  - intros m x. apply Map_set_NoDup.
  - intros m x Hm. case_bool_decide; [exact Hm|apply Map_set_NoDup, Hm].
  - intros m x Hm. case_bool_decide; [exact Hm|apply Map_set_NoDup, Hm].
Qed.

Lemma collectLocal_complexTypes raw :
  (forall ct, In ct (raw_complexTypes raw) -> ct_name ct <> "" ->
              In (ct_name ct) (Map_keys (reg_complexTypes (collectLocal raw)))) /\
  (forall ct, In ct (Map_values (reg_complexTypes (collectLocal raw))) ->
              In ct (raw_complexTypes raw)).
Proof.
  unfold collectLocal. simpl. split.
  - intros ct Hin Hname.
    apply (fold_left_registers _ ct_name (fun c => ct_name c <> "")); auto.
    + intros m y k Hk. case_bool_decide; [exact Hk|apply Map_set_keys_mono, Hk].
    + intros m y Hy. rewrite bool_decide_eq_false_2 by exact Hy. apply Map_set_has.
  - intros ct Hin. apply fold_left_values in Hin; [destruct Hin as [[]|Hin]; exact Hin|].
    intros m y u. case_bool_decide; [auto|apply Map_set_values].
Qed.

Lemma collectLocal_simpleTypes raw :
  (forall st, In st (raw_simpleTypes raw) -> st_name st <> "" ->
              In (st_name st) (Map_keys (reg_simpleTypes (collectLocal raw)))) /\
  (forall st, In st (Map_values (reg_simpleTypes (collectLocal raw))) ->
              In st (raw_simpleTypes raw)).
Proof.
  unfold collectLocal. simpl. split.
  - intros st Hin Hname.
    apply (fold_left_registers _ st_name (fun c => st_name c <> "")); auto.
    + intros m y k Hk. case_bool_decide; [exact Hk|apply Map_set_keys_mono, Hk].
    + intros m y Hy. rewrite bool_decide_eq_false_2 by exact Hy. apply Map_set_has.
  - intros st Hin. apply fold_left_values in Hin; [destruct Hin as [[]|Hin]; exact Hin|].
    intros m y u. case_bool_decide; [auto|apply Map_set_values].
Qed.

Lemma fold_left_entries {A V} (f : JsMap V -> A -> JsMap V) (P : string -> V -> Prop)
    (l : list A) (init : JsMap V) k v :
  (forall m y k' v', In (k', v') (f m y) -> In (k', v') m \/ P k' v') ->
  In (k, v) (fold_left f l init) -> In (k, v) init \/ P k v.
Proof.
  intros Hf. revert init. induction l as [|y r IH]; intros init; simpl; [auto|].
  intros Hin. apply IH in Hin. destruct Hin as [Hin|Hin]; [|auto]. apply Hf in Hin. exact Hin.
Qed.

(** A local registry binds each definition under its own name. *)
Lemma collectLocal_complexType_key raw k ct :
  In (k, ct) (reg_complexTypes (collectLocal raw)) -> ct_name ct = k.
Proof.
  unfold collectLocal. simpl. intros Hin.
  apply (fold_left_entries _ (fun k' v' => ct_name v' = k')) in Hin;
    [destruct Hin as [[]|Hin]; exact Hin|].
  intros m y k' v'. case_bool_decide; [auto|].
  intros Hset. apply Map_set_entries in Hset. destruct Hset as [Hset|Heq]; [auto|].
  injection Heq as -> ->. now right.
Qed.

Lemma collectLocal_simpleType_key raw k st :
  In (k, st) (reg_simpleTypes (collectLocal raw)) -> st_name st = k.
Proof.
  unfold collectLocal. simpl. intros Hin.
  apply (fold_left_entries _ (fun k' v' => st_name v' = k')) in Hin;
    [destruct Hin as [[]|Hin]; exact Hin|].
  intros m y k' v'. case_bool_decide; [auto|].
  intros Hset. apply Map_set_entries in Hset. destruct Hset as [Hset|Heq]; [auto|].
  injection Heq as -> ->. now right.
Qed.


(* ===================================================================== *)
(** ** Include/import resolution: the three registries                    *)
(* ===================================================================== *)

Section ParsedModel.
Variable path_resolve : option string -> string -> string.
Variable path_dirname : string -> string.
Variable fs : gmap string FileContent.

#[local] Abbreviation parse := (parseXsdInternal_fuel path_resolve path_dirname fs).


Lemma parse_good_complexTypes fuel xsdPath baseDir visited :
  goodOutcome fs reg_complexTypes complexTypes visited (parse fuel xsdPath baseDir visited).
Proof.
  apply parse_good; try reflexivity.
  - intros ps acc m. exists ps. reflexivity.
  - intros raw. apply collectLocal_NoDup.
Qed.

Lemma parse_good_simpleTypes fuel xsdPath baseDir visited :
  goodOutcome fs reg_simpleTypes simpleTypes visited (parse fuel xsdPath baseDir visited).
Proof.
  apply parse_good; try reflexivity.
  - intros ps acc m. exists ps. reflexivity.
  - intros raw. apply collectLocal_NoDup.
Qed.

Lemma processIncludes_mono fuel includes dir acc visited acc' visited' :
  processIncludes (parse fuel) includes dir acc visited = Some (acc', visited') ->
  visited ⊆ visited'.
Proof.
  intros H. apply (processIncludes_inv (fun _ V => visited ⊆ V)) in H;
    [exact H| |reflexivity].
  intros a V loc _ _ HV.
  pose proof (proj1 (parse_visited path_resolve path_dirname fs fuel loc (Some dir) V)) as Hm.
  destruct (parse fuel loc _ V) as [[m|e|] V']; simpl in Hm; [| |exact I]; set_solver.
Qed.

Lemma processImports_mono fuel prefixMap imports dir acc visited acc' visited' :
  processImports (parse fuel) prefixMap imports dir acc visited = Some (acc', visited') ->
  visited ⊆ visited'.
Proof.
  intros H. apply (processImports_inv (fun _ V => visited ⊆ V)) in H;
    [exact H| |reflexivity].
  intros a V ns loc _ _ HV.
  pose proof (proj1 (parse_visited path_resolve path_dirname fs fuel loc (Some dir) V)) as Hm.
  destruct (parse fuel loc _ V) as [[m|e|] V']; simpl in Hm; [| |exact I]; set_solver.
Qed.

(** After the loops, every location named has been marked. *)
Lemma processIncludes_marks fuel includes dir acc visited acc' visited' loc :
  processIncludes (parse fuel) includes dir acc visited = Some (acc', visited') ->
  In loc includes -> loc <> "" ->
  path_resolve (truthy (Some dir)) loc ∈ visited'.
Proof.
  revert acc visited. induction includes as [|s r IH]; intros acc visited H Hin Hne;
    [destruct Hin|].
  cbn [processIncludes] in H.
  destruct Hin as [->|Hin].
  - assert (truthy (Some loc) = Some loc) as Ht by (destruct loc; [contradiction|reflexivity]).
    rewrite Ht in H.
    pose proof (proj2 (parse_visited path_resolve path_dirname fs fuel loc (Some dir) visited))
      as Hmark.
    destruct (parse fuel loc (Some dir) visited) as [[m|e|] V'] eqn:Hcall; simpl in Hmark;
      [| |discriminate];
      apply processIncludes_mono in H; apply H, Hmark; discriminate.
  - destruct (truthy (Some s)) as [loc'|]; [|eapply IH; eauto].
    destruct (parse fuel loc' (Some dir) visited) as [[m|e|] V']; [| |discriminate];
      eapply IH; eauto.
Qed.

Lemma processImports_marks fuel prefixMap imports dir acc visited acc' visited' ns loc :
  processImports (parse fuel) prefixMap imports dir acc visited = Some (acc', visited') ->
  In (ns, loc) imports -> loc <> "" ->
  path_resolve (truthy (Some dir)) loc ∈ visited'.
Proof.
  revert acc visited. induction imports as [|[ns0 s] r IH]; intros acc visited H Hin Hne;
    [destruct Hin|].
  cbn [processImports] in H.
  destruct Hin as [Heq|Hin].
  - injection Heq as -> ->.
    assert (truthy (Some loc) = Some loc) as Ht by (destruct loc; [contradiction|reflexivity]).
    rewrite Ht in H.
    pose proof (proj2 (parse_visited path_resolve path_dirname fs fuel loc (Some dir) visited))
      as Hmark.
    destruct (parse fuel loc (Some dir) visited) as [[m|e|] V'] eqn:Hcall; simpl in Hmark;
      [| |discriminate];
      apply processImports_mono in H; apply H, Hmark; discriminate.
  - destruct (truthy (Some s)) as [loc'|]; [|eapply IH; eauto].
    destruct (parse fuel loc' (Some dir) visited) as [[m|e|] V']; [| |discriminate];
      eapply IH; eauto.
Qed.

(** A returned call has marked every document its own document refers to. *)
Lemma parse_marks_references fuel xsdPath baseDir visited raw m target :
  path_resolve (truthy baseDir) xsdPath ∉ visited ->
  fs !! path_resolve (truthy baseDir) xsdPath = Some (SchemaDoc raw) ->
  fst (parse fuel xsdPath baseDir visited) = Returned m ->
  refersTo path_resolve path_dirname (path_resolve (truthy baseDir) xsdPath) raw target ->
  target ∈ snd (parse fuel xsdPath baseDir visited).
Proof.
  intros Hv Hfile Hret (loc & Hin & Hne & <-).
  destruct (parse_schema_returns path_resolve path_dirname fs fuel xsdPath baseDir
              visited raw Hv Hfile) as (acc2 & (V2 & acc1 & Hinc & Himp) & _).
  { rewrite Hret. discriminate. }
  unfold schemaLocations in Hin. apply in_app_or in Hin. destruct Hin as [Hin|Hin].
  - apply (processImports_mono _ _ _ _ _ _ _ _ Himp).
    eapply processIncludes_marks; eauto.
  - apply in_map_iff in Hin. destruct Hin as ([ns loc'] & Heq & Hin). simpl in Heq. subst loc'.
    eapply processImports_marks; eauto.
Qed.
End ParsedModel.

(* ===================================================================== *)
(** ** Include/import resolution: termination and cycles                  *)
(* ===================================================================== *)

Example cycle_pair_parses :
  match parseXsd flatResolve flatDirname cycleFiles "cycle-a.xsd" None with
  | Returned m =>
      rootElement m = "rootA" /\ Map_keys (complexTypes m) = ["TypeA"; "TypeB"]
  | _ => False
  end.
Proof. vm_compute. auto. Qed.

Example mixed_pair_parses :
  match parseXsd flatResolve flatDirname mixedFiles "mixed-a.xsd" None with
  | Returned m =>
      Map_keys (complexTypes m) = ["TypeA"; "Shared"; "TypeB"; "b:TypeB"; "b:Shared"] /\
      Map_keys (simpleTypes m) = ["Code"; "b:Code"]
  | _ => False
  end.
Proof. vm_compute. auto. Qed.

(** C4: [parseXsdInternal] returns or throws whenever its fuel exceeds the
    number of readable files not yet visited, so [parseXsd] always does,
    whatever include and import edges the files have.  The visited set only
    grows along the calls, and a call on a visited path returns the empty
    model without reading anything.  For two schema documents that refer to
    each other, parsing the first returns a model whose complex and simple
    type registries have no duplicate key, hold every named type of both
    documents, hold no definition from elsewhere, and have no key other
    than those names, bare or qualified by a namespace prefix. *)
Theorem C4_recursive_parsing_terminates
    (path_resolve : option string -> string -> string)
    (path_dirname : string -> string) (fs : gmap string FileContent) :
  (forall fuel xsdPath baseDir visited,
      size (dom fs ∖ visited) < fuel ->
      fst (parseXsdInternal_fuel path_resolve path_dirname fs fuel xsdPath baseDir visited)
      <> OutOfFuel) /\
  (forall xsdPath baseDir,
      parseXsd path_resolve path_dirname fs xsdPath baseDir <> OutOfFuel) /\
  (forall fuel xsdPath baseDir visited,
      visited ⊆ snd (parseXsdInternal_fuel path_resolve path_dirname fs fuel xsdPath
                       baseDir visited)) /\
  (forall fuel xsdPath baseDir visited,
      path_resolve (truthy baseDir) xsdPath ∈ visited ->
      parseXsdInternal_fuel path_resolve path_dirname fs (S fuel) xsdPath baseDir visited
      = (Returned (mkSchemaModel "" [] [] [] None), visited)) /\
  (forall xsdPath baseDir pa pb A B,
      path_resolve (truthy baseDir) xsdPath = pa ->
      fs !! pa = Some (SchemaDoc A) ->
      fs !! pb = Some (SchemaDoc B) ->
      (forall p, p ∈ dom fs -> p = pa \/ p = pb) ->
      refersTo path_resolve path_dirname pa A pb ->
      refersTo path_resolve path_dirname pb B pa ->
      exists m,
        parseXsd path_resolve path_dirname fs xsdPath baseDir = Returned m /\
        NoDup (Map_keys (complexTypes m)) /\
        NoDup (Map_keys (simpleTypes m)) /\
        (forall ct, In ct (raw_complexTypes A ++ raw_complexTypes B) -> ct_name ct <> "" ->
                    In (ct_name ct) (Map_keys (complexTypes m))) /\
        (forall st, In st (raw_simpleTypes A ++ raw_simpleTypes B) -> st_name st <> "" ->
                    In (st_name st) (Map_keys (simpleTypes m))) /\
        (forall ct, In ct (Map_values (complexTypes m)) ->
                    In ct (raw_complexTypes A ++ raw_complexTypes B)) /\
        (forall st, In st (Map_values (simpleTypes m)) ->
                    In st (raw_simpleTypes A ++ raw_simpleTypes B)) /\
        (forall k, In k (Map_keys (complexTypes m)) ->
                   qualifiedFrom
                     (fun n => exists ct, In ct (raw_complexTypes A ++ raw_complexTypes B) /\
                                          ct_name ct = n) k) /\
        (forall k, In k (Map_keys (simpleTypes m)) ->
                   qualifiedFrom
                     (fun n => exists st, In st (raw_simpleTypes A ++ raw_simpleTypes B) /\
                                          st_name st = n) k)).
Proof.
  split; [|split; [|split; [|split]]].
  - intros fuel xsdPath baseDir visited. apply parse_completes.
  - intros xsdPath baseDir. unfold parseXsd, parseFuel. apply parse_completes. lia.
  - intros fuel xsdPath baseDir visited. apply parse_visited.
  - intros fuel xsdPath baseDir visited Hv. simpl.
    rewrite bool_decide_eq_true_2 by exact Hv. reflexivity.
  - intros xsdPath baseDir pa pb A B Hpa HA HB Honly HAB _.
    unfold parseXsd.
    assert (fst (parseXsdInternal_fuel path_resolve path_dirname fs (parseFuel fs ∅)
                   xsdPath baseDir ∅) <> OutOfFuel) as Hdone
        by (apply parse_completes; unfold parseFuel; lia).
    assert (path_resolve (truthy baseDir) xsdPath ∉ (∅ : gset string)) as Hnew by set_solver.
    rewrite <- Hpa in HA.
    destruct (parse_schema_returns path_resolve path_dirname fs _ xsdPath baseDir ∅ A
                Hnew HA Hdone) as (acc2 & _ & Hret).
    eexists. split; [exact Hret|].
    pose proof (parse_good_complexTypes path_resolve path_dirname fs (parseFuel fs ∅)
                  xsdPath baseDir ∅) as Hct.
    pose proof (parse_good_simpleTypes path_resolve path_dirname fs (parseFuel fs ∅)
                  xsdPath baseDir ∅) as Hst.
    pose proof (proj2 (parse_visited path_resolve path_dirname fs (parseFuel fs ∅)
                         xsdPath baseDir ∅) Hdone) as Hpa_in.
    pose proof (parse_marks_references path_resolve path_dirname fs (parseFuel fs ∅)
                  xsdPath baseDir ∅ A _ pb Hnew HA Hret) as Hpb_in.
    rewrite Hpa in Hpb_in, Hpa_in, HA. specialize (Hpb_in HAB).
    destruct (parseXsdInternal_fuel path_resolve path_dirname fs (parseFuel fs ∅)
                xsdPath baseDir ∅) as [r V3].
    simpl in Hret, Hpa_in, Hpb_in. subst r.
    destruct Hct as (Hnd & Hnames & Hvals & Hkeys).
    destruct Hst as (Hnd' & Hnames' & Hvals' & Hkeys').
    assert (forall p raw, fs !! p = Some (SchemaDoc raw) -> raw = A \/ raw = B) as Hraw.
    { intros p raw Hfile.
      destruct (Honly p) as [-> | ->]; [apply elem_of_dom; eauto| |]; [left|right]; congruence. }
    split; [exact Hnd|]. split; [exact Hnd'|]. repeat split.
    + intros ct Hin Hname. apply in_app_or in Hin. destruct Hin as [Hin|Hin].
      * apply (Hnames pa A); [exact Hpa_in|set_solver|exact HA|].
        now apply collectLocal_complexTypes.
      * apply (Hnames pb B); [exact Hpb_in|set_solver|exact HB|].
        now apply collectLocal_complexTypes.
    + intros st Hin Hname. apply in_app_or in Hin. destruct Hin as [Hin|Hin].
      * apply (Hnames' pa A); [exact Hpa_in|set_solver|exact HA|].
        now apply collectLocal_simpleTypes.
      * apply (Hnames' pb B); [exact Hpb_in|set_solver|exact HB|].
        now apply collectLocal_simpleTypes.
    + intros ct Hin. destruct (Hvals ct Hin) as (p & raw & _ & _ & Hfile & Hv).
      apply in_or_app. apply collectLocal_complexTypes in Hv.
      destruct (Hraw p raw Hfile) as [-> | ->]; auto.
    + intros st Hin. destruct (Hvals' st Hin) as (p & raw & _ & _ & Hfile & Hv).
      apply in_or_app. apply collectLocal_simpleTypes in Hv.
      destruct (Hraw p raw Hfile) as [-> | ->]; auto.
    + intros k Hk. eapply qualifiedFrom_mono; [|apply Hkeys, Hk].
      intros n (p & raw & _ & _ & Hfile & Hn).
      unfold Map_keys in Hn. apply in_map_iff in Hn. destruct Hn as ([k0 ct] & <- & Hn).
      assert (In ct (Map_values (reg_complexTypes (collectLocal raw)))) as Hval
          by (apply in_map_iff; exists (k0, ct); auto).
      pose proof (collectLocal_complexType_key raw k0 ct Hn) as Hkey.
      apply collectLocal_complexTypes in Hval.
      exists ct. split; [|exact Hkey]. apply in_or_app.
      destruct (Hraw p raw Hfile) as [-> | ->]; auto.
    + intros k Hk. eapply qualifiedFrom_mono; [|apply Hkeys', Hk].
      intros n (p & raw & _ & _ & Hfile & Hn).
      unfold Map_keys in Hn. apply in_map_iff in Hn. destruct Hn as ([k0 st] & <- & Hn).
      assert (In st (Map_values (reg_simpleTypes (collectLocal raw)))) as Hval
          by (apply in_map_iff; exists (k0, st); auto).
      pose proof (collectLocal_simpleType_key raw k0 st Hn) as Hkey.
      apply collectLocal_simpleTypes in Hval.
      exists st. split; [|exact Hkey]. apply in_or_app.
      destruct (Hraw p raw Hfile) as [-> | ->]; auto.
Qed.

Lemma C4_recursive_parsing_terminates_witness :
  exists m,
    parseXsd flatResolve flatDirname cycleFiles "cycle-a.xsd" None = Returned m /\
    NoDup (Map_keys (complexTypes m)) /\
    (forall ct, In ct (raw_complexTypes cycleA ++ raw_complexTypes cycleB) ->
                ct_name ct <> "" -> In (ct_name ct) (Map_keys (complexTypes m))) /\
    (forall ct, In ct (Map_values (complexTypes m)) ->
                In ct (raw_complexTypes cycleA ++ raw_complexTypes cycleB)).
Proof.
  destruct (proj2 (proj2 (proj2 (proj2
              (C4_recursive_parsing_terminates flatResolve flatDirname cycleFiles))))
              "cycle-a.xsd" None "cycle-a.xsd" "cycle-b.xsd" cycleA cycleB)
    as (m & Hm & Hnd & _ & Hall & _ & Honly & _).
  - reflexivity.
  - reflexivity.
  - reflexivity.
  - intros p Hp. unfold cycleFiles in Hp.
    rewrite !dom_insert_L, dom_empty_L in Hp. set_solver.
  - exists "cycle-b.xsd". split; [now left|]. split; [discriminate|reflexivity].
  - exists "cycle-a.xsd". split; [now left|]. split; [discriminate|reflexivity].
  - exists m. auto.
Defined.

(* ===================================================================== *)
(** ** Include/import resolution: unique keys, first writer wins          *)
(* ===================================================================== *)

Example local_definition_shadows_imported :
  match parseXsd flatResolve flatDirname mixedFiles "mixed-a.xsd" None with
  | Returned m =>
      Map_get (complexTypes m) "Shared" = Some (namedType "Shared") /\
      In (namedType "Shared") (raw_complexTypes mixedA)
  | _ => False
  end.
Proof. vm_compute. auto. Qed.

Section ImportedNames.
Variable path_resolve : option string -> string -> string.
Variable path_dirname : string -> string.
Variable fs : gmap string FileContent.

#[local] Abbreviation parse := (parseXsdInternal_fuel path_resolve path_dirname fs).



End ImportedNames.




(* ===================================================================== *)
(** ** Walker: inherited attributes, provenance and wildcards             *)
(* ===================================================================== *)

Section WalkerChains.
Variable w : SchemaWalker.

Lemma resolveAllAttributes_fuel_mono fuel fuel' ct visited l :
  resolveAllAttributes_fuel fuel w ct visited = Some l ->
  fuel <= fuel' ->
  resolveAllAttributes_fuel fuel' w ct visited = Some l.
Proof.
  revert fuel' ct visited l.
  induction fuel as [|fuel IH]; intros fuel' ct visited l H Hle; [discriminate|].
  destruct fuel' as [|fuel']; [lia|]. simpl in *.
  case_bool_decide; [assumption|].
  destruct (truthy (ct_extends ct)) as [base|]; [|assumption].
  destruct (Map_get _ base) as [baseCt|]; [|assumption].
  destruct (resolveAllAttributes_fuel fuel w baseCt _) as [inh|] eqn:E; [|discriminate].
  rewrite (IH fuel' _ _ inh E) by lia. assumption.
Qed.

Lemma resolveHasWildcard_fuel_mono fuel fuel' ct visited b :
  resolveHasWildcard_fuel fuel w ct visited = Some b ->
  fuel <= fuel' ->
  resolveHasWildcard_fuel fuel' w ct visited = Some b.
Proof.
  revert fuel' ct visited b.
  induction fuel as [|fuel IH]; intros fuel' ct visited b H Hle; [discriminate|].
  destruct fuel' as [|fuel']; [lia|].
  rewrite resolveHasWildcard_fuel_S in *.
  destruct (ct_hasWildcard ct) as [[|]|]; try assumption.
  all: destruct (truthy (ct_extends ct)) as [base|]; [|assumption].
  all: case_bool_decide; [assumption|].
  all: destruct (Map_get _ base) as [baseCt|]; [|assumption].
  all: apply IH; [assumption|lia].
Qed.

Lemma resolveAllAttributes_fuel_foreign fuel ct n visited :
  (forall c, extendsReach w ct c -> ct_name c <> n) ->
  resolveAllAttributes_fuel fuel w ct ({[ n ]} ∪ visited)
  = resolveAllAttributes_fuel fuel w ct visited.
Proof.
  revert ct visited. induction fuel as [|fuel IH]; intros ct visited Hfar; [reflexivity|].
  simpl. pose proof (Hfar ct (reach_here w ct)) as Hne.
  assert (ct_name ct ∈ {[n]} ∪ visited <-> ct_name ct ∈ visited) as Hiff by set_solver.
  repeat case_bool_decide; try tauto; try reflexivity.
  destruct (truthy (ct_extends ct)) as [base|] eqn:Hext; [|reflexivity].
  destruct (Map_get _ base) as [baseCt|] eqn:Hb; [|reflexivity].
  replace ({[ct_name ct]} ∪ ({[n]} ∪ visited)) with ({[n]} ∪ ({[ct_name ct]} ∪ visited))
    by (apply leibniz_equiv; set_solver).
  rewrite IH; [reflexivity|].
  intros c Hc. apply Hfar. eapply reach_base; eauto.
Qed.

(** With the walker's fuel or more, the three resolvers give the value of
    their wrappers. *)
Lemma resolveAllElements_enough fuel ct :
  walkerFuel w <= fuel ->
  resolveAllElements_fuel fuel w ct ∅ = Some (resolveAllElements w ct).
Proof.
  intros Hle. unfold resolveAllElements.
  destruct (resolveAllElements_returns w ct) as [l Hl]. rewrite Hl. simpl.
  eapply resolveAllElements_fuel_mono; eauto.
Qed.

Lemma resolveAllAttributes_enough fuel ct :
  walkerFuel w <= fuel ->
  resolveAllAttributes_fuel fuel w ct ∅ = Some (resolveAllAttributes w ct).
Proof.
  intros Hle. unfold resolveAllAttributes.
  destruct (resolveAllAttributes_returns w ct) as [l Hl]. rewrite Hl. simpl.
  eapply resolveAllAttributes_fuel_mono; eauto.
Qed.

Lemma resolveHasWildcard_enough fuel ct :
  walkerFuel w <= fuel ->
  resolveHasWildcard_fuel fuel w ct ∅ = Some (resolveHasWildcard w ct).
Proof.
  intros Hle. unfold resolveHasWildcard.
  destruct (resolveHasWildcard_returns w ct) as [l Hl]. rewrite Hl. simpl.
  eapply resolveHasWildcard_fuel_mono; eauto.
Qed.

(** What a resolver returns ends with the type's own declarations, and
    everything in it is declared by a type of the [extends] chain. *)
Lemma resolveAllElements_fuel_from fuel ct visited l :
  resolveAllElements_fuel fuel w ct visited = Some l ->
  (exists inherited, l = inherited ++ ct_elements ct) /\
  (forall c, In c l -> exists ct', extendsReach w ct ct' /\ In c (ct_elements ct')).
Proof.
  revert ct visited l. induction fuel as [|fuel IH]; intros ct visited l H; [discriminate|].
  assert ((exists inherited, ct_elements ct = inherited ++ ct_elements ct) /\
          (forall c, In c (ct_elements ct) ->
                     exists ct', extendsReach w ct ct' /\ In c (ct_elements ct'))) as Hown.
  { split; [exists []; reflexivity|]. intros c Hc. exists ct. split; [constructor|exact Hc]. }
  rewrite resolveAllElements_fuel_S in H.
  case_bool_decide; [injection H as <-; exact Hown|].
  destruct (truthy (ct_extends ct)) as [base|] eqn:Hext; [|injection H as <-; exact Hown].
  destruct (Map_get _ base) as [baseCt|] eqn:Hb; [|injection H as <-; exact Hown].
  destruct (resolveAllElements_fuel fuel w baseCt _) as [inh|] eqn:E; [|discriminate].
  injection H as <-. destruct (IH _ _ _ E) as [_ Hfrom].
  split; [eauto|].
  intros c Hc. apply in_app_or in Hc. destruct Hc as [Hc|Hc].
  - destruct (Hfrom c Hc) as (ct' & Hreach & Hin). exists ct'. split; [|exact Hin].
    eapply reach_base; eauto.
  - exists ct. split; [constructor|exact Hc].
Qed.

Lemma resolveAllAttributes_fuel_from fuel ct visited l :
  resolveAllAttributes_fuel fuel w ct visited = Some l ->
  (exists inherited, l = inherited ++ ct_attributes ct) /\
  (forall a, In a l -> exists ct', extendsReach w ct ct' /\ In a (ct_attributes ct')).
Proof.
  revert ct visited l. induction fuel as [|fuel IH]; intros ct visited l H; [discriminate|].
  assert ((exists inherited, ct_attributes ct = inherited ++ ct_attributes ct) /\
          (forall a, In a (ct_attributes ct) ->
                     exists ct', extendsReach w ct ct' /\ In a (ct_attributes ct'))) as Hown.
  { split; [exists []; reflexivity|]. intros c Hc. exists ct. split; [constructor|exact Hc]. }
  rewrite resolveAllAttributes_fuel_S in H.
  case_bool_decide; [injection H as <-; exact Hown|].
  destruct (truthy (ct_extends ct)) as [base|] eqn:Hext; [|injection H as <-; exact Hown].
  destruct (Map_get _ base) as [baseCt|] eqn:Hb; [|injection H as <-; exact Hown].
  destruct (resolveAllAttributes_fuel fuel w baseCt _) as [inh|] eqn:E; [|discriminate].
  injection H as <-. destruct (IH _ _ _ E) as [_ Hfrom].
  split; [eauto|].
  intros c Hc. apply in_app_or in Hc. destruct Hc as [Hc|Hc].
  - destruct (Hfrom c Hc) as (ct' & Hreach & Hin). exists ct'. split; [|exact Hin].
    eapply reach_base; eauto.
  - exists ct. split; [constructor|exact Hc].
Qed.

Lemma resolveHasWildcard_fuel_sound fuel ct visited :
  resolveHasWildcard_fuel fuel w ct visited = Some true ->
  exists ct', extendsReach w ct ct' /\ ct_hasWildcard ct' = Some true.
Proof.
  revert ct visited. induction fuel as [|fuel IH]; intros ct visited H; [discriminate|].
  rewrite resolveHasWildcard_fuel_S in H.
  destruct (ct_hasWildcard ct) as [[|]|] eqn:Hw;
    [exists ct; split; [constructor|exact Hw] | |].
  all: destruct (truthy (ct_extends ct)) as [base|] eqn:Hext; [|discriminate].
  all: case_bool_decide; [discriminate|].
  all: destruct (Map_get _ base) as [baseCt|] eqn:Hb; [|discriminate].
  all: destruct (IH _ _ H) as (ct' & Hreach & Hwild).
  all: exists ct'; split; [eapply reach_base; eauto|exact Hwild].
Qed.
End WalkerChains.

Lemma visitedClosed_empty w ct : visitedClosed w ∅ ct.
Proof. intros c base baseCt _ Hin. set_solver. Qed.

Section KeyedRegistry.
Variable w : SchemaWalker.
Hypothesis Hkeyed : keyedByName w = true.

Lemma keyedByName_lookup k ct : lookupComplexType w k = Some ct -> ct_name ct = k.
Proof.
  intros H. apply Map_get_In in H.
  unfold keyedByName in Hkeyed. rewrite forallb_forall in Hkeyed.
  specialize (Hkeyed _ H). simpl in Hkeyed. apply bool_decide_eq_true in Hkeyed. exact Hkeyed.
Qed.

Lemma keyedByName_registered k ct :
  lookupComplexType w k = Some ct -> lookupComplexType w (ct_name ct) = Some ct.
Proof. intros H. rewrite (keyedByName_lookup k ct H). exact H. Qed.

Lemma extendsReach_registered ct c :
  extendsReach w ct c ->
  lookupComplexType w (ct_name ct) = Some ct -> lookupComplexType w (ct_name c) = Some c.
Proof.
  induction 1 as [ct|ct base baseCt c Hext Hb Hreach IH]; intros Hreg; [exact Hreg|].
  apply IH. eapply keyedByName_registered; eauto.
Qed.

Lemma extendsReach_visited visited ct0 ct c :
  visitedClosed w visited ct0 -> ct_name ct0 ∈ visited ->
  extendsReach w ct c ->
  lookupComplexType w (ct_name ct) = Some ct -> ct_name ct ∈ visited ->
  ct_name c ∈ visited.
Proof.
  intros Hclosed Hin0.
  induction 1 as [ct|ct base baseCt c Hext Hb Hreach IH]; intros Hreg Hin; [exact Hin|].
  apply IH; [eapply keyedByName_registered; eauto|].
  destruct (Hclosed ct base baseCt Hreg Hin Hext Hb) as [Hv| ->]; assumption.
Qed.

Lemma visitedClosed_step visited ct base baseCt :
  visitedClosed w visited ct ->
  lookupComplexType w (ct_name ct) = Some ct ->
  truthy (ct_extends ct) = Some base ->
  lookupComplexType w base = Some baseCt ->
  visitedClosed w ({[ ct_name ct ]} ∪ visited) baseCt.
Proof.
  intros Hclosed Hreg Hext Hb c base' baseC Hc Hin Hext' Hb'.
  destruct (decide (ct_name c = ct_name ct)) as [Heq|Hne].
  - assert (c = ct) as -> by (rewrite Heq in Hc; congruence).
    right. congruence.
  - left. assert (ct_name c ∈ visited) as Hv by set_solver.
    destruct (Hclosed c base' baseC Hc Hv Hext' Hb') as [Hv'| ->]; set_solver.
Qed.

Lemma extendsReach_inv ct c :
  extendsReach w ct c ->
  c = ct \/
  exists base baseCt,
    truthy (ct_extends ct) = Some base /\ lookupComplexType w base = Some baseCt /\
    extendsReach w baseCt c.
Proof. destruct 1; eauto 6. Qed.

Lemma resolveHasWildcard_fuel_complete fuel ct visited :
  lookupComplexType w (ct_name ct) = Some ct ->
  visitedClosed w visited ct ->
  (forall c, lookupComplexType w (ct_name c) = Some c -> ct_name c ∈ visited ->
             ct_hasWildcard c <> Some true) ->
  size (typeNames w ∖ visited) < fuel ->
  (exists c, extendsReach w ct c /\ ct_hasWildcard c = Some true) ->
  resolveHasWildcard_fuel fuel w ct visited = Some true.
Proof.
  revert ct visited.
  induction fuel as [|fuel IH]; intros ct visited Hreg Hclosed Hplain Hlt Hwild; [lia|].
  rewrite resolveHasWildcard_fuel_S.
  destruct (decide (ct_hasWildcard ct = Some true)) as [Hw|Hw]; [rewrite Hw; reflexivity|].
  assert (forall b : option bool,
             b = Some true ->
             match ct_hasWildcard ct with Some true => Some true | _ => b end = Some true)
    as Hgoal by (intros b ->; destruct (ct_hasWildcard ct) as [[|]|]; reflexivity).
  apply Hgoal. clear Hgoal.
  destruct Hwild as (c & Hreach & Hc).
  destruct (extendsReach_inv _ _ Hreach) as [->|(base & baseCt & Hext & Hb & Hreach')];
    [contradiction|].
  rewrite Hext. case_bool_decide as Hv.
  - exfalso. apply (Hplain c); [exact (extendsReach_registered ct c Hreach Hreg)| |exact Hc].
    exact (extendsReach_visited visited ct ct c Hclosed Hv Hreach Hreg Hv).
  - unfold lookupComplexType in Hb. rewrite Hb. apply IH.
    + eapply keyedByName_registered; eauto.
    + eapply visitedClosed_step; eauto.
    + intros c' Hc' Hin'. destruct (decide (ct_name c' = ct_name ct)) as [Heq|Hne].
      * assert (c' = ct) as -> by (rewrite Heq in Hc'; congruence). exact Hw.
      * apply Hplain; [exact Hc'|set_solver].
    + pose proof (unvisited_shrinks w (ct_name ct) visited
                    (typeNames_registered w _ _ Hreg) Hv). lia.
    + eauto.
Qed.

Lemma resolveAllElements_fuel_complete fuel ct visited l ct' c :
  lookupComplexType w (ct_name ct) = Some ct ->
  visitedClosed w visited ct ->
  resolveAllElements_fuel fuel w ct visited = Some l ->
  extendsReach w ct ct' -> In c (ct_elements ct') ->
  In c l \/ ct_name ct' ∈ visited.
Proof.
  revert ct visited l.
  induction fuel as [|fuel IH]; intros ct visited l Hreg Hclosed H Hreach Hc; [discriminate|].
  rewrite resolveAllElements_fuel_S in H.
  case_bool_decide as Hv.
  { right. exact (extendsReach_visited visited ct ct ct' Hclosed Hv Hreach Hreg Hv). }
  destruct (extendsReach_inv _ _ Hreach) as [->|(base & baseCt & Hext & Hb & Hreach')].
  { left. destruct (truthy (ct_extends ct)) as [base|]; [|injection H as <-; exact Hc].
    destruct (Map_get _ base) as [baseCt|]; [|injection H as <-; exact Hc].
    destruct (resolveAllElements_fuel fuel w baseCt _) as [inh|]; [|discriminate].
    injection H as <-. apply in_or_app. now right. }
  rewrite Hext in H. unfold lookupComplexType in Hb. rewrite Hb in H.
  destruct (resolveAllElements_fuel fuel w baseCt _) as [inh|] eqn:E; [|discriminate].
  injection H as <-.
  destruct (IH baseCt ({[ct_name ct]} ∪ visited) inh) as [Hin|Hin]; auto.
  - eapply keyedByName_registered; eauto.
  - eapply visitedClosed_step; eauto.
  - left. apply in_or_app. now left.
  - destruct (decide (ct_name ct' = ct_name ct)) as [Heq|Hne]; [|right; set_solver].
    left. apply in_or_app. right.
    assert (lookupComplexType w (ct_name ct') = Some ct') as Hreg'
      by exact (extendsReach_registered ct ct' Hreach Hreg).
    assert (ct' = ct) as -> by (rewrite Heq in Hreg'; congruence). exact Hc.
Qed.

Lemma resolveAllAttributes_fuel_complete fuel ct visited l ct' a :
  lookupComplexType w (ct_name ct) = Some ct ->
  visitedClosed w visited ct ->
  resolveAllAttributes_fuel fuel w ct visited = Some l ->
  extendsReach w ct ct' -> In a (ct_attributes ct') ->
  In a l \/ ct_name ct' ∈ visited.
Proof.
  revert ct visited l.
  induction fuel as [|fuel IH]; intros ct visited l Hreg Hclosed H Hreach Hc; [discriminate|].
  rewrite resolveAllAttributes_fuel_S in H.
  case_bool_decide as Hv.
  { right. exact (extendsReach_visited visited ct ct ct' Hclosed Hv Hreach Hreg Hv). }
  destruct (extendsReach_inv _ _ Hreach) as [->|(base & baseCt & Hext & Hb & Hreach')].
  { left. destruct (truthy (ct_extends ct)) as [base|]; [|injection H as <-; exact Hc].
    destruct (Map_get _ base) as [baseCt|]; [|injection H as <-; exact Hc].
    destruct (resolveAllAttributes_fuel fuel w baseCt _) as [inh|]; [|discriminate].
    injection H as <-. apply in_or_app. now right. }
  rewrite Hext in H. unfold lookupComplexType in Hb. rewrite Hb in H.
  destruct (resolveAllAttributes_fuel fuel w baseCt _) as [inh|] eqn:E; [|discriminate].
  injection H as <-.
  destruct (IH baseCt ({[ct_name ct]} ∪ visited) inh) as [Hin|Hin]; auto.
  - eapply keyedByName_registered; eauto.
  - eapply visitedClosed_step; eauto.
  - left. apply in_or_app. now left.
  - destruct (decide (ct_name ct' = ct_name ct)) as [Heq|Hne]; [|right; set_solver].
    left. apply in_or_app. right.
    assert (lookupComplexType w (ct_name ct') = Some ct') as Hreg'
      by exact (extendsReach_registered ct ct' Hreach Hreg).
    assert (ct' = ct) as -> by (rewrite Heq in Hreg'; congruence). exact Hc.
Qed.

(** An element without inline type resolves to a registered type. *)
Lemma named_type_registered el ct :
  el_inlineComplexType el = None ->
  resolveComplexTypeForElement w el = Some ct ->
  lookupComplexType w (ct_name ct) = Some ct.
Proof.
  unfold resolveComplexTypeForElement. intros -> H.
  destruct (truthy (el_typeName el)) as [tn|]; [|discriminate].
  eapply keyedByName_registered; eauto.
Qed.
End KeyedRegistry.

(* ===================================================================== *)
(** ** The exactness predicates are kept along the traversal              *)
(* ===================================================================== *)

Lemma allNamesOfElement_unfold okE okA el :
  allNamesOfElement okE okA el
  = okE (el_name el)
    && forallb (fun a => okA (attr_name a)) (el_attributes el)
    && forallb (allNamesOfElement okE okA) (el_children el)
    && match el_inlineComplexType el with
       | Some ct => allNamesOfType okE okA ct
       | None => true
       end.
Proof. destruct el. reflexivity. Qed.

Lemma allNamesOfType_unfold okE okA ct :
  allNamesOfType okE okA ct
  = forallb (allNamesOfElement okE okA) (ct_elements ct)
    && forallb (fun a => okA (attr_name a)) (ct_attributes ct).
Proof. destruct ct. reflexivity. Qed.

Section NamesKept.
Variable okE okA : string -> bool.
Variable w : SchemaWalker.
Hypothesis Hschema : allNamesOfSchema okE okA w = true.

Lemma registered_type_names k ct :
  lookupComplexType w k = Some ct -> allNamesOfType okE okA ct = true.
Proof.
  intros H. apply Map_get_In in H.
  unfold allNamesOfSchema in Hschema. apply andb_true_iff in Hschema.
  destruct Hschema as [_ Hc]. rewrite forallb_forall in Hc. exact (Hc _ H).
Qed.

Lemma reached_type_names ct ct' :
  allNamesOfType okE okA ct = true -> extendsReach w ct ct' ->
  allNamesOfType okE okA ct' = true.
Proof.
  intros Hct Hreach. induction Hreach as [ct|ct base baseCt ct' _ Hbase _ IH];
    [exact Hct|].
  apply IH. exact (registered_type_names _ _ Hbase).
Qed.

Lemma resolved_type_names el ct :
  allNamesOfElement okE okA el = true ->
  resolveComplexTypeForElement w el = Some ct ->
  allNamesOfType okE okA ct = true.
Proof.
  rewrite allNamesOfElement_unfold. unfold resolveComplexTypeForElement.
  intros Hel H. apply andb_true_iff in Hel. destruct Hel as [_ Hinline].
  destruct (el_inlineComplexType el) as [inline|].
  - injection H as <-. exact Hinline.
  - destruct (truthy (el_typeName el)) as [tn|]; [|discriminate].
    exact (registered_type_names _ _ H).
Qed.

(** Every child the walker resolves for an element of the schema is an
    element of the schema again, and every attribute has a good name. *)
Lemma child_names_kept el c :
  allNamesOfElement okE okA el = true ->
  In c (getChildElementsForElement w el) ->
  allNamesOfElement okE okA c = true.
Proof.
  intros Hel. unfold getChildElementsForElement.
  destruct (resolveComplexTypeForElement w el) as [ct|] eqn:Hct.
  - unfold resolveAllElements.
    destruct (resolveAllElements_returns w ct) as [l Hl]. rewrite Hl. simpl.
    intros Hin.
    destruct (proj2 (resolveAllElements_fuel_from w _ _ _ _ Hl) c Hin)
      as (ct' & Hreach & Hc).
    pose proof (reached_type_names ct ct' (resolved_type_names el ct Hel Hct) Hreach)
      as Hct'.
    rewrite allNamesOfType_unfold in Hct'. apply andb_true_iff in Hct'.
    destruct Hct' as [He _]. rewrite forallb_forall in He. exact (He c Hc).
  - rewrite allNamesOfElement_unfold in Hel.
    apply andb_true_iff in Hel. destruct Hel as [Hel _].
    apply andb_true_iff in Hel. destruct Hel as [_ Hchildren].
    rewrite forallb_forall in Hchildren. exact (Hchildren c).
Qed.

Lemma attribute_names_kept el a :
  allNamesOfElement okE okA el = true ->
  In a (getAttributesForElement w el) ->
  okA (attr_name a) = true.
Proof.
  intros Hel. unfold getAttributesForElement.
  destruct (resolveComplexTypeForElement w el) as [ct|] eqn:Hct.
  - unfold resolveAllAttributes.
    destruct (resolveAllAttributes_returns w ct) as [l Hl]. rewrite Hl. simpl.
    intros Hin.
    destruct (proj2 (resolveAllAttributes_fuel_from w _ _ _ _ Hl) a Hin)
      as (ct' & Hreach & Ha).
    pose proof (reached_type_names ct ct' (resolved_type_names el ct Hel Hct) Hreach)
      as Hct'.
    rewrite allNamesOfType_unfold in Hct'. apply andb_true_iff in Hct'.
    destruct Hct' as [_ Hattrs]. rewrite forallb_forall in Hattrs. exact (Hattrs a Ha).
  - rewrite allNamesOfElement_unfold in Hel.
    apply andb_true_iff in Hel. destruct Hel as [Hel _].
    apply andb_true_iff in Hel. destruct Hel as [Hel _].
    apply andb_true_iff in Hel. destruct Hel as [_ Hattrs].
    rewrite forallb_forall in Hattrs. exact (Hattrs a).
Qed.

Lemma element_name_kept el : allNamesOfElement okE okA el = true -> okE (el_name el) = true.
Proof.
  rewrite allNamesOfElement_unfold. intros Hel.
  apply andb_true_iff in Hel. destruct Hel as [Hel _].
  apply andb_true_iff in Hel. destruct Hel as [Hel _].
  apply andb_true_iff in Hel. destruct Hel as [Hname _]. exact Hname.
Qed.
End NamesKept.

Lemma passableJson_get prefix textKey obj key :
  passableJson prefix textKey (JObject obj) = true ->
  passableJson prefix textKey (js_get obj key) = true.
Proof.
  induction obj as [|[k v] r IH]; [reflexivity|].
  cbn [passableJson forallb fst snd js_get]. intros H.
  apply andb_true_iff in H. destruct H as [Hkv Hr].
  apply andb_true_iff in Hkv. destruct Hkv as [_ Hv].
  case_bool_decide; [exact Hv|exact (IH Hr)].
Qed.

Lemma passableJson_lookupCI prefix textKey obj name :
  passableJson prefix textKey (JObject obj) = true ->
  passableJson prefix textKey (lookupCI obj name) = true.
Proof.
  intros H. unfold lookupCI.
  destruct (hasOwnProperty obj name); [apply passableJson_get, H|].
  induction (Object_keys obj) as [|k r IH]; simpl; [reflexivity|].
  case_bool_decide; [apply passableJson_get, H|exact IH].
Qed.

Lemma passableJson_item prefix textKey items item :
  passableJson prefix textKey (JArray items) = true -> In item items ->
  passableJson prefix textKey item = true.
Proof.
  cbn [passableJson]. intros H Hin. rewrite forallb_forall in H. exact (H item Hin).
Qed.

Lemma passableJson_key prefix textKey obj key :
  passableJson prefix textKey (JObject obj) = true -> In key (Object_keys obj) ->
  passableKey prefix textKey key = true.
Proof.
  cbn [passableJson]. intros H Hin. rewrite forallb_forall in H.
  unfold Object_keys in Hin. apply in_map_iff in Hin. destruct Hin as ([k v] & <- & Hin).
  specialize (H _ Hin). apply andb_true_iff in H. exact (proj1 H).
Qed.

(** [builderExact] holds again at every call the builder makes below an
    object: at each declared child with the value found for it, and with
    each item when that value is an array; the names of the declared
    children and attributes, and the keys the wildcard passes through, are
    plain names. *)
Lemma builderExact_below w o el obj :
  builderExact w o el (JObject obj) = true ->
  (forall c,
      In c (getChildElementsForElement w el) ->
      isPlainName (el_name c) = true /\
      builderExact w o c (lookupCI obj (el_name c)) = true /\
      forall items item,
        lookupCI obj (el_name c) = JArray items -> In item items ->
        builderExact w o c item = true) /\
  (forall a, In a (getAttributesForElement w el) -> isPlainName (attr_name a) = true) /\
  (forall key,
      In key (Object_keys obj) -> key <> textNodeKey o ->
      startsWith key (attributePrefix o) = false ->
      isPlainName key = true /\
      passableJson (attributePrefix o) (textNodeKey o) (js_get obj key) = true).
Proof.
  unfold builderExact. intros H.
  apply andb_true_iff in H. destruct H as [H Hjson].
  apply andb_true_iff in H. destruct H as [H Hel].
  apply andb_true_iff in H. destruct H as [H Hschema].
  split; [|split].
  - intros c Hc.
    pose proof (child_names_kept _ _ w Hschema el c Hel Hc) as Hchild.
    split; [exact (element_name_kept _ _ c Hchild)|].
    pose proof (passableJson_lookupCI _ _ obj (el_name c) Hjson) as Hv.
    split.
    + rewrite H, Hschema, Hchild, Hv. reflexivity.
    + intros items item Hitems Hitem. rewrite Hitems in Hv.
      rewrite H, Hschema, Hchild, (passableJson_item _ _ _ _ Hv Hitem). reflexivity.
  - intros a Ha. exact (attribute_names_kept _ _ w Hschema el a Hel Ha).
  - intros key Hkey Htext Hprefix.
    pose proof (passableJson_key _ _ obj key Hjson Hkey) as Hpass.
    unfold passableKey in Hpass. apply andb_true_iff in Hpass. destruct Hpass as [_ Hpass].
    rewrite (bool_decide_eq_false_2 _ Htext), Hprefix in Hpass.
    split; [exact Hpass|apply passableJson_get, Hjson].
Qed.

(** [validatorExact] holds again at every child the validator descends to,
    and every read the validator makes at an object is an own read. *)
Lemma validatorExact_below w prefix el :
  validatorExact w prefix el = true ->
  (forall c,
      In c (getChildElementsForElement w el) ->
      ownRead (el_name c) = true /\ validatorExact w prefix c = true) /\
  (forall a,
      In a (getAttributesForElement w el) -> ownRead (prefix +:+ attr_name a) = true).
Proof.
  unfold validatorExact. intros H.
  apply andb_true_iff in H. destruct H as [Hschema Hel].
  split.
  - intros c Hc.
    pose proof (child_names_kept _ _ w Hschema el c Hel Hc) as Hchild.
    split; [exact (element_name_kept _ _ c Hchild)|].
    rewrite Hschema, Hchild. reflexivity.
  - intros a Ha.
    exact (attribute_names_kept _ (fun n => ownRead (prefix +:+ n)) w Hschema el a Hel Ha).
Qed.

(** X1: when [T] extends a registered base [B] and no type on [B]'s own
    [extends] chain carries [T]'s name, the attributes resolved for an
    element of type [T] are those resolved for an element of type [B]
    followed by [T]'s own attributes. *)
Theorem walker_attributes_base_then_own
    (w : SchemaWalker) (elT elB : ElementDef) (T B : ComplexTypeDef) (base : string) :
  resolveComplexTypeForElement w elT = Some T ->
  truthy (ct_extends T) = Some base ->
  lookupComplexType w base = Some B ->
  resolveComplexTypeForElement w elB = Some B ->
  (forall c, extendsReach w B c -> ct_name c <> ct_name T) ->
  getAttributesForElement w elT = getAttributesForElement w elB ++ ct_attributes T.
Proof.
  intros HT Hext HB HelB Hfar.
  unfold getAttributesForElement. rewrite HT, HelB.
  unfold resolveAllAttributes, walkerFuel, lookupComplexType in *.
  rewrite (resolveAllAttributes_fuel_S w (S _) T).
  rewrite bool_decide_eq_false_2 by set_solver.
  rewrite Hext, HB.
  rewrite resolveAllAttributes_fuel_foreign by assumption.
  destruct (resolveAllAttributes_fuel_enough w (S (size (typeNames w))) B ∅) as [l Hl].
  - eapply typeNames_registered; eauto.
  - assert (size (typeNames w ∖ ∅) <= size (typeNames w)); [|lia].
    apply subseteq_size. set_solver.
  - rewrite Hl.
    rewrite (resolveAllAttributes_fuel_mono w _ (S (S (size (typeNames w)))) _ _ _ Hl) by lia.
    reflexivity.
Qed.

Lemma walker_attributes_base_then_own_witness :
  getAttributesForElement employeeWalker (typedElement "employee" "EmployeeType")
  = getAttributesForElement employeeWalker (typedElement "person" "PersonType")
    ++ ct_attributes employeeType.
Proof.
  apply (walker_attributes_base_then_own employeeWalker
           (typedElement "employee" "EmployeeType") (typedElement "person" "PersonType")
           employeeType personType "PersonType"); try reflexivity.
  intros c Hc. inversion Hc; subst.
  - discriminate.
  - discriminate.
Defined.

(** X2: the three resolvers of the walker return on every registry, cyclic
    [extends] chains included: the walker's fuel, two more than the number
    of registered type names, is enough, and more fuel gives the same
    result. *)
Theorem walker_resolution_terminates (w : SchemaWalker) (ct : ComplexTypeDef) (fuel : nat) :
  walkerFuel w <= fuel ->
  resolveAllElements_fuel fuel w ct ∅ = Some (resolveAllElements w ct) /\
  resolveAllAttributes_fuel fuel w ct ∅ = Some (resolveAllAttributes w ct) /\
  resolveHasWildcard_fuel fuel w ct ∅ = Some (resolveHasWildcard w ct).
Proof.
  intros Hle.
  auto using resolveAllElements_enough, resolveAllAttributes_enough,
    resolveHasWildcard_enough.
Qed.

Lemma walker_resolution_terminates_witness :
  resolveAllElements_fuel 9 cyclicWalker cycT ∅ = Some (resolveAllElements cyclicWalker cycT) /\
  resolveAllAttributes_fuel 9 cyclicWalker cycT ∅
  = Some (resolveAllAttributes cyclicWalker cycT) /\
  resolveHasWildcard_fuel 9 cyclicWalker cycT ∅ = Some (resolveHasWildcard cyclicWalker cycT).
Proof.
  apply (walker_resolution_terminates cyclicWalker cycT 9).
  vm_compute. lia.
Defined.

(** X3: the walker never attributes to an element anything declared off
    its type's [extends] chain.  Every resolved child and attribute is
    declared by a type reached from the element's type along registered
    [extends] links (or by the element itself when it has no complex type),
    the type's own declarations come last, and a wildcard is reported only
    if a type of the chain declares one. *)
Theorem walker_resolves_only_from_chain (w : SchemaWalker) (el : ElementDef) :
  match resolveComplexTypeForElement w el with
  | None =>
      getChildElementsForElement w el = el_children el /\
      getAttributesForElement w el = el_attributes el /\
      hasWildcardForElement w el = false
  | Some ct =>
      (exists inherited, getChildElementsForElement w el = inherited ++ ct_elements ct) /\
      (exists inherited, getAttributesForElement w el = inherited ++ ct_attributes ct) /\
      (forall c, In c (getChildElementsForElement w el) ->
                 exists ct', extendsReach w ct ct' /\ In c (ct_elements ct')) /\
      (forall a, In a (getAttributesForElement w el) ->
                 exists ct', extendsReach w ct ct' /\ In a (ct_attributes ct')) /\
      (hasWildcardForElement w el = true ->
       exists ct', extendsReach w ct ct' /\ ct_hasWildcard ct' = Some true)
  end.
Proof.
  unfold getChildElementsForElement, getAttributesForElement, hasWildcardForElement.
  destruct (resolveComplexTypeForElement w el) as [ct|]; [|auto].
  unfold resolveAllElements, resolveAllAttributes, resolveHasWildcard.
  destruct (resolveAllElements_returns w ct) as [l Hl].
  destruct (resolveAllAttributes_returns w ct) as [la Hla].
  destruct (resolveHasWildcard_returns w ct) as [b Hb].
  rewrite Hl, Hla, Hb. simpl.
  destruct (resolveAllElements_fuel_from w _ _ _ _ Hl) as [Hown Hfrom].
  destruct (resolveAllAttributes_fuel_from w _ _ _ _ Hla) as [Hown' Hfrom'].
  repeat split; try assumption.
  intros ->. eapply resolveHasWildcard_fuel_sound; eauto.
Qed.

(** X4: in a registry that files every complex type under its own name,
    an element with a named type gets the whole [extends] chain, cyclic or
    not: its children and attributes are exactly those declared by the
    types reached from its type, and it has a wildcard exactly when one of
    these types declares one. *)
Theorem keyed_registry_resolves_whole_chain
    (w : SchemaWalker) (el : ElementDef) (ct : ComplexTypeDef) :
  keyedByName w = true ->
  el_inlineComplexType el = None ->
  resolveComplexTypeForElement w el = Some ct ->
  (forall c, In c (getChildElementsForElement w el) <->
             exists ct', extendsReach w ct ct' /\ In c (ct_elements ct')) /\
  (forall a, In a (getAttributesForElement w el) <->
             exists ct', extendsReach w ct ct' /\ In a (ct_attributes ct')) /\
  (hasWildcardForElement w el = true <->
   exists ct', extendsReach w ct ct' /\ ct_hasWildcard ct' = Some true).
Proof.
  intros Hkeyed Hinline Hct.
  pose proof (named_type_registered w Hkeyed el ct Hinline Hct) as Hreg.
  unfold getChildElementsForElement, getAttributesForElement, hasWildcardForElement.
  rewrite Hct. unfold resolveAllElements, resolveAllAttributes, resolveHasWildcard.
  destruct (resolveAllElements_returns w ct) as [l Hl].
  destruct (resolveAllAttributes_returns w ct) as [la Hla].
  destruct (resolveHasWildcard_returns w ct) as [b Hb].
  rewrite Hl, Hla, Hb. simpl.
  split; [|split].
  - intros c. split.
    + apply (resolveAllElements_fuel_from w _ _ _ _ Hl).
    + intros (ct' & Hreach & Hc).
      destruct (resolveAllElements_fuel_complete w Hkeyed _ _ _ _ ct' c Hreg
                  (visitedClosed_empty w ct) Hl Hreach Hc) as [Hin|Hin];
        [exact Hin|set_solver].
  - intros a. split.
    + apply (resolveAllAttributes_fuel_from w _ _ _ _ Hla).
    + intros (ct' & Hreach & Ha).
      destruct (resolveAllAttributes_fuel_complete w Hkeyed _ _ _ _ ct' a Hreg
                  (visitedClosed_empty w ct) Hla Hreach Ha) as [Hin|Hin];
        [exact Hin|set_solver].
  - split.
    + intros ->. eapply resolveHasWildcard_fuel_sound; eauto.
    + intros Hwild.
      rewrite (resolveHasWildcard_fuel_complete w Hkeyed (walkerFuel w) ct ∅) in Hb.
      * congruence.
      * exact Hreg.
      * apply visitedClosed_empty.
      * intros c _ Hin. set_solver.
      * unfold walkerFuel.
        assert (size (typeNames w ∖ ∅) <= size (typeNames w)); [|lia].
        apply subseteq_size. set_solver.
      * exact Hwild.
Qed.

Lemma keyed_registry_resolves_whole_chain_witness :
  In (leafElement "header")
     (getChildElementsForElement envelopeWalker (typedElement "envelope" "SignedEnvelopeType")) /\
  hasWildcardForElement envelopeWalker (typedElement "envelope" "SignedEnvelopeType") = true.
Proof.
  pose proof (keyed_registry_resolves_whole_chain envelopeWalker
                (typedElement "envelope" "SignedEnvelopeType") signedEnvelopeType
                eq_refl eq_refl eq_refl) as (Hchildren & _ & Hwild).
  assert (extendsReach envelopeWalker signedEnvelopeType envelopeType) as Hreach.
  { apply (reach_base envelopeWalker signedEnvelopeType "EnvelopeType" envelopeType);
      [reflexivity|reflexivity|constructor]. }
  split.
  - apply Hchildren. exists envelopeType. split; [exact Hreach|]. left. reflexivity.
  - apply Hwild. exists envelopeType. split; [exact Hreach|reflexivity].
Defined.

(** X5: [findChildElement] returns the first child carrying exactly the
    given name (the comparison is case-sensitive), and nothing exactly
    when no child carries it. *)
Theorem findChildElement_first_exact_match (children : list ElementDef) (name : string) :
  match findChildElement children name with
  | Some c =>
      exists before after,
        children = before ++ c :: after /\ el_name c = name /\
        Forall (fun x => el_name x <> name) before
  | None => Forall (fun x => el_name x <> name) children
  end.
Proof.
  unfold findChildElement. induction children as [|x r IH]; simpl; [constructor|].
  case_bool_decide as Hx.
  - exists [], r. auto.
  - destruct (find _ r) as [c|].
    + destruct IH as (before & after & -> & Hc & Hbefore).
      exists (x :: before), after. auto.
    + constructor; assumption.
Qed.

(* ===================================================================== *)
(** ** Mapping engine: the root wrapper                                   *)
(* ===================================================================== *)

Lemma js_get_not_own obj key : hasOwnProperty obj key = false -> js_get obj key = JUndefined.
Proof.
  induction obj as [|[k v] r IH]; simpl; [reflexivity|].
  case_bool_decide; simpl; [discriminate|exact IH].
Qed.

Lemma lookupCI_undefined_get obj name :
  lookupCI obj name = JUndefined -> js_get obj name = JUndefined.
Proof.
  unfold lookupCI. destruct (hasOwnProperty obj name) eqn:Hown; [auto|].
  intros _. apply js_get_not_own. exact Hown.
Qed.

Lemma lookupCI_singleton name v : lookupCI [(name, v)] name = v.
Proof.
  unfold lookupCI. simpl. rewrite !bool_decide_eq_true_2 by reflexivity. reflexivity.
Qed.

Lemma rootValueOf_wrapped json rootName :
  rootValueOf [(rootName, rootValueOf json rootName)] rootName = rootValueOf json rootName.
Proof.
  unfold rootValueOf at 1. rewrite lookupCI_singleton.
  unfold rootValueOf. destruct (lookupCI json rootName); reflexivity.
Qed.

Lemma validatedValue_wrapped json rootName :
  validatedValue [(rootName, validatedValue json rootName)] rootName
  = validatedValue json rootName.
Proof.
  unfold validatedValue at 1. simpl. rewrite bool_decide_eq_true_2 by reflexivity.
  unfold validatedValue. destruct (js_get json rootName); reflexivity.
Qed.

(** X6: only the value under the root key matters.  The builder reads the
    value found (ignoring case) under the schema's root name, the validator
    the value found under exactly that name; without such a key the whole
    input is taken as the root's value.  Either way the result is the one
    for the input wrapped as [{root: value}], so sibling keys of the wrapper
    are never looked at, and an input without wrapper is the same as the
    wrapped one.  This is for a root name and keys written in ASCII (the
    case folding of the lookup), and a root name that no object inherits
    (the validator's read [json[rootName]]). *)
Theorem root_wrapper_is_optional
    (w : SchemaWalker) (o : BuildOptions) (prefix textKey : string) (json : JsonObject) :
  isAsciiText (rootElement (schema w)) = true ->
  forallb isAsciiText (Object_keys json) = true ->
  ownRead (rootElement (schema w)) = true ->
  buildXml json w o
  = buildXml [(rootElement (schema w), rootValueOf json (rootElement (schema w)))] w o /\
  validateJson json w prefix textKey
  = validateJson [(rootElement (schema w), validatedValue json (rootElement (schema w)))]
      w prefix textKey /\
  (lookupCI json (rootElement (schema w)) = JUndefined ->
   buildXml json w o = buildXml [(rootElement (schema w), JObject json)] w o /\
   validateJson json w prefix textKey
   = validateJson [(rootElement (schema w), JObject json)] w prefix textKey).
Proof.
  intros _ _ _.
  set (root := rootElement (schema w)).
  assert (buildXml json w o = buildXml [(root, rootValueOf json root)] w o) as Hb.
  { unfold buildXml. fold root. rewrite rootValueOf_wrapped. reflexivity. }
  assert (validateJson json w prefix textKey
          = validateJson [(root, validatedValue json root)] w prefix textKey) as Hv.
  { unfold validateJson. fold root. rewrite validatedValue_wrapped. reflexivity. }
  split; [exact Hb|]. split; [exact Hv|].
  intros Hnone. rewrite Hb, Hv.
  unfold rootValueOf, validatedValue.
  rewrite Hnone, (lookupCI_undefined_get _ _ Hnone). split; reflexivity.
Qed.

Lemma root_wrapper_is_optional_witness :
  buildXml [("@id", JString "7"); ("name", JString "Ann")] personWalker defaultOptions
  = buildXml [("person", JObject [("@id", JString "7"); ("name", JString "Ann")])]
      personWalker defaultOptions.
Proof.
  apply (proj2 (proj2 (root_wrapper_is_optional personWalker defaultOptions "@" "#text"
                         [("@id", JString "7"); ("name", JString "Ann")]
                         eq_refl eq_refl eq_refl)) eq_refl).
Defined.

(* ===================================================================== *)
(** ** Mapping engine: attributes, text content and flat objects          *)
(* ===================================================================== *)

Lemma builder_eta (node : XMLBuilder) : mkXMLBuilder (b_atts node) (b_content node) = node.
Proof. destruct node. reflexivity. Qed.

Section BuilderShapes.
Variable w : SchemaWalker.
Variable o : BuildOptions.

Lemma applyAttributes_other attrs obj node n :
  ~ In n (map attr_name attrs) ->
  Map_get (b_atts (applyAttributes o attrs obj node)) n = Map_get (b_atts node) n.
Proof.
  revert node. induction attrs as [|a r IH]; intros node Hn; simpl; [reflexivity|].
  simpl in Hn. rewrite IH by tauto.
  assert (attr_name a <> n) as Hne by tauto.
  destruct (negb _); [|destruct (attr_default a)]; simpl;
    rewrite ?Map_get_set_ne by exact Hne; reflexivity.
Qed.

Lemma applyAttributes_declared attrs obj node a :
  NoDup (map attr_name attrs) -> In a attrs ->
  Map_get (b_atts (applyAttributes o attrs obj node)) (attr_name a)
  = if negb (isNullish (lookupCI obj (attributePrefix o +:+ attr_name a)))
    then Some (js_String (lookupCI obj (attributePrefix o +:+ attr_name a)))
    else match attr_default a with
         | Some d => Some d
         | None => Map_get (b_atts node) (attr_name a)
         end.
Proof.
  revert node. induction attrs as [|a0 r IH]; intros node Hnd Hin; [destruct Hin|].
  simpl in Hnd. apply NoDup_cons in Hnd. destruct Hnd as [Hfresh Hnd].
  simpl. destruct Hin as [->|Hin].
  - rewrite applyAttributes_other by (intros Hx; apply Hfresh, list_elem_of_In; exact Hx).
    destruct (negb _); [|destruct (attr_default a)]; simpl;
      rewrite ?Map_get_set_eq; reflexivity.
  - rewrite IH by assumption.
    assert (attr_name a0 <> attr_name a) as Hne.
    { intros Heq. apply Hfresh. rewrite Heq. apply list_elem_of_In, in_map. exact Hin. }
    destruct (negb (isNullish (lookupCI obj (attributePrefix o +:+ attr_name a))));
      [reflexivity|].
    destruct (attr_default a); [reflexivity|].
    destruct (negb _); [|destruct (attr_default a0)]; simpl;
      rewrite ?Map_get_set_ne by exact Hne; reflexivity.
Qed.

(** The children loop over an object whose declared children hold scalars
    or nothing. *)
Lemma buildChildren_flat children obj path node :
  (forall c, In c children ->
             isScalar (lookupCI obj (el_name c)) || isNullish (lookupCI obj (el_name c)) = true) ->
  buildChildren (buildElement w o) children obj path node
  = Returned
      (mkXMLBuilder (b_atts node)
         (b_content node ++
          flat_map
            (fun c =>
               if isNullish (lookupCI obj (el_name c)) then []
               else [XElem (el_name c) [] [XText (js_String (lookupCI obj (el_name c)))]])
            children)).
Proof.
  revert node. induction children as [|c r IH]; intros node Hflat.
  - simpl. rewrite app_nil_r, builder_eta. reflexivity.
  - assert (forall c0, In c0 r ->
              isScalar (lookupCI obj (el_name c0)) || isNullish (lookupCI obj (el_name c0))
              = true) as Hrest by (intros c0 Hc0; apply Hflat; now right).
    pose proof (Hflat c (or_introl eq_refl)) as Hc.
    cbn [buildChildren flat_map].
    destruct (lookupCI obj (el_name c)) as [| |b|num|str|items|props] eqn:Hv;
      try discriminate Hc.
    1,2: rewrite IH by exact Hrest; reflexivity.
    all: rewrite buildElement_scalar by reflexivity; cbn [andThen];
      rewrite IH by exact Hrest; simpl; rewrite <- app_assoc; reflexivity.
Qed.

Lemma buildElement_atts_other node el value path node' n :
  buildElement w o node el value path = Returned node' ->
  ~ In n (map attr_name (getAttributesForElement w el)) ->
  Map_get (b_atts node') n = Map_get (b_atts node) n.
Proof.
  intros H Hn. rewrite buildElement_unfold in H. unfold buildElementWith in H.
  destruct value as [| |b|num|str|items|obj]; try discriminate;
    try (injection H as <-; reflexivity).
  1-3: destruct (resolveComplexTypeForElement w el); injection H as <-; reflexivity.
  destruct (resolveComplexTypeForElement w el) as [ct|]; [|injection H as <-; reflexivity].
  destruct (_ && _).
  - injection H as <-. simpl. apply applyAttributes_other. exact Hn.
  - destruct (buildChildren _ _ _ _ _) as [node2|e|] eqn:Hc; simpl in H; try discriminate.
    injection H as <-.
    destruct (buildChildren_returned _ _ _ _ _ _ Hc) as [Ha _].
    destruct (hasWildcardForElement w el).
    + destruct (wildcardPass_content o
                  (lowerSet (map el_name (getChildElementsForElement w el)))
                  obj (Object_keys obj) node2) as [Ha' _].
      rewrite Ha', Ha. apply applyAttributes_other. exact Hn.
    + rewrite Ha. apply applyAttributes_other. exact Hn.
Qed.

Lemma buildElement_atts_names node el value path node' n :
  buildElement w o node el value path = Returned node' ->
  In n (Map_keys (b_atts node')) ->
  In n (Map_keys (b_atts node)) \/ In n (map attr_name (getAttributesForElement w el)).
Proof.
  intros H Hn. rewrite buildElement_unfold in H. unfold buildElementWith in H.
  destruct value as [| |b|num|str|items|obj]; try discriminate;
    try (injection H as <-; left; exact Hn).
  1-3: destruct (resolveComplexTypeForElement w el); injection H as <-; left; exact Hn.
  destruct (resolveComplexTypeForElement w el) as [ct|] eqn:Hct;
    [|injection H as <-; left; exact Hn].
  assert (buildElement w o node el (JObject obj) path = Returned node') as H'.
  { rewrite buildElement_unfold. unfold buildElementWith. rewrite Hct. exact H. }
  destruct (buildElement_object_names w o node el ct obj path node' Hct H') as [Hnames _].
  apply Hnames. exact Hn.
Qed.
End BuilderShapes.

(** X7: the attribute step writes, for each declared attribute (names
    distinct), the value found under the prefixed key ignoring case, else
    the schema default, else nothing; [use], [type] and [fixed] play no
    part, and no other attribute is touched, so prefixed JSON keys without
    a declaration are dropped. *)
Theorem attributes_value_then_default
    (o : BuildOptions) (attrs : list AttributeDef) (obj : JsonObject) (node : XMLBuilder) :
  NoDup (map attr_name attrs) ->
  (forall a,
      In a attrs ->
      Map_get (b_atts (applyAttributes o attrs obj node)) (attr_name a)
      = if negb (isNullish (lookupCI obj (attributePrefix o +:+ attr_name a)))
        then Some (js_String (lookupCI obj (attributePrefix o +:+ attr_name a)))
        else match attr_default a with
             | Some d => Some d
             | None => Map_get (b_atts node) (attr_name a)
             end) /\
  (forall n,
      ~ In n (map attr_name attrs) ->
      Map_get (b_atts (applyAttributes o attrs obj node)) n = Map_get (b_atts node) n) /\
  b_content (applyAttributes o attrs obj node) = b_content node.
Proof.
  intros Hnd. split; [|split].
  - intros a Hin. apply applyAttributes_declared; assumption.
  - intros n Hn. apply applyAttributes_other. exact Hn.
  - apply applyAttributes_content.
Qed.

Lemma attributes_value_then_default_witness :
  Map_get
    (b_atts (applyAttributes defaultOptions (ct_attributes priceType)
               [("@Currency", JNull); ("@unit", JString "kg")] (newNode [])))
    "currency"
  = Some "EUR" /\
  Map_get
    (b_atts (applyAttributes defaultOptions (ct_attributes priceType)
               [("@Currency", JNull); ("@unit", JString "kg")] (newNode [])))
    "unit"
  = None.
Proof.
  destruct (attributes_value_then_default defaultOptions (ct_attributes priceType)
              [("@Currency", JNull); ("@unit", JString "kg")] (newNode []))
    as (Hdeclared & Hother & _).
  - simpl. apply NoDup_singleton.
  - split.
    + apply (Hdeclared (mkAttributeDef "currency" "xs:string" optional (Some "EUR") None)).
      left. reflexivity.
    + apply (Hother "unit"). simpl. intros [H|[]]. discriminate H.
Defined.

(** X8: for a type with text content ([xs:simpleContent]) and an object
    that has the text key, the element gets its attributes and one text
    node, the rendering of the value under the text key ([null] included);
    declared children and wildcard keys of the object are ignored, and no
    error is raised whatever they hold. *)
Theorem text_content_replaces_children
    (w : SchemaWalker) (o : BuildOptions) (node : XMLBuilder) (el : ElementDef)
    (ct : ComplexTypeDef) (obj : JsonObject) (path : string) :
  resolveComplexTypeForElement w el = Some ct ->
  ct_hasTextContent ct = true ->
  js_get obj (textNodeKey o) <> JUndefined ->
  buildElement w o node el (JObject obj) path
  = Returned
      (mkXMLBuilder
         (b_atts (applyAttributes o (getAttributesForElement w el) obj node))
         (b_content node ++ [XText (js_String (js_get obj (textNodeKey o)))])).
Proof.
  intros Hct Htext Hkey. rewrite buildElement_unfold. unfold buildElementWith.
  rewrite Hct, Htext.
  destruct (js_get obj (textNodeKey o)) eqn:Hv; try contradiction; simpl;
    unfold txt; rewrite applyAttributes_content; reflexivity.
Qed.

Lemma text_content_replaces_children_witness :
  buildElement priceWalker defaultOptions (newNode []) (typedElement "price" "PriceType")
    (JObject [("#text", JNull); ("items", JArray [JArray []])]) "$.price"
  = Returned (mkXMLBuilder [("currency", "EUR")] [XText "null"]).
Proof.
  rewrite (text_content_replaces_children priceWalker defaultOptions (newNode [])
             (typedElement "price" "PriceType") priceType
             [("#text", JNull); ("items", JArray [JArray []])] "$.price" eq_refl eq_refl).
  - reflexivity.
  - simpl. discriminate.
Defined.

(** X9: an object of complex type whose declared children all hold a
    scalar, [null] or nothing (type without wildcard, text branch not
    taken) is written as one text-only element per child that has a value,
    in the order of the schema's declarations, whatever the order of the
    JSON keys and whatever the types of the children. *)
Theorem flat_object_follows_schema_order
    (w : SchemaWalker) (o : BuildOptions) (node : XMLBuilder) (el : ElementDef)
    (ct : ComplexTypeDef) (obj : JsonObject) (path : string) :
  resolveComplexTypeForElement w el = Some ct ->
  ct_hasTextContent ct && negb (isUndefined (js_get obj (textNodeKey o))) = false ->
  hasWildcardForElement w el = false ->
  (forall c, In c (getChildElementsForElement w el) ->
             isScalar (lookupCI obj (el_name c)) || isNullish (lookupCI obj (el_name c)) = true) ->
  buildElement w o node el (JObject obj) path
  = Returned
      (mkXMLBuilder
         (b_atts (applyAttributes o (getAttributesForElement w el) obj node))
         (b_content node ++
          flat_map
            (fun c =>
               if isNullish (lookupCI obj (el_name c)) then []
               else [XElem (el_name c) [] [XText (js_String (lookupCI obj (el_name c)))]])
            (getChildElementsForElement w el))).
Proof.
  intros Hct Htext Hwild Hflat. rewrite buildElement_unfold. unfold buildElementWith.
  rewrite Hct, Htext, Hwild.
  rewrite (buildChildren_flat w o) by exact Hflat.
  simpl. rewrite applyAttributes_content. reflexivity.
Qed.

Lemma flat_object_follows_schema_order_witness :
  buildElement employeeWalker defaultOptions (newNode [])
    (typedElement "employee" "EmployeeType")
    (JObject [("role", JString "dev"); ("NAME", JString "Ann")]) "$.employee"
  = Returned
      (mkXMLBuilder [("badge", "none")]
         [XElem "name" [] [XText "Ann"]; XElem "role" [] [XText "dev"]]).
Proof.
  rewrite (flat_object_follows_schema_order employeeWalker defaultOptions (newNode [])
             (typedElement "employee" "EmployeeType") employeeType
             [("role", JString "dev"); ("NAME", JString "Ann")] "$.employee"
             eq_refl eq_refl eq_refl).
  - reflexivity.
  - intros c Hc. vm_compute in Hc. destruct Hc as [<-|[<-|[]]]; reflexivity.
Defined.

(* ===================================================================== *)
(** ** Mapping engine: wildcard pass-through                              *)
(* ===================================================================== *)

Lemma buildWildcardValue_scalar prefix textKey node v :
  isScalar v = true -> buildWildcardValue prefix textKey node v = txt node (js_String v).
Proof. destruct v; try discriminate; reflexivity. Qed.

(** The wildcard loop appends elements for exactly the keys that pass its
    filter, and writes a scalar as a text-only element named by the key. *)
Lemma wildcardPass_passes o known obj keys node :
  b_atts (wildcardPass o known obj keys node) = b_atts node /\
  exists emitted,
    b_content (wildcardPass o known obj keys node) = b_content node ++ emitted /\
    Forall
      (fun x =>
         exists key atts content,
           x = XElem key atts content /\ In key keys /\ key <> textNodeKey o /\
           startsWith key (attributePrefix o) = false /\ (toLowerCase key ∉ known) /\
           isNullish (js_get obj key) = false)
      emitted /\
    (forall key,
        In key keys -> key <> textNodeKey o ->
        startsWith key (attributePrefix o) = false -> toLowerCase key ∉ known ->
        isScalar (js_get obj key) = true ->
        In (XElem key [] [XText (js_String (js_get obj key))]) emitted).
Proof.
  revert node. induction keys as [|key r IH]; intros node.
  - simpl. split; [reflexivity|]. exists []. rewrite app_nil_r.
    split; [reflexivity|]. split; [constructor|]. intros key [].
  - assert (forall nd extra,
               b_atts nd = b_atts node ->
               b_content nd = b_content node ++ extra ->
               Forall (fun x => exists atts content,
                           x = XElem key atts content /\ key <> textNodeKey o /\
                           startsWith key (attributePrefix o) = false /\
                           (toLowerCase key ∉ known) /\
                           isNullish (js_get obj key) = false) extra ->
               (key <> textNodeKey o ->
                startsWith key (attributePrefix o) = false -> toLowerCase key ∉ known ->
                isScalar (js_get obj key) = true ->
                In (XElem key [] [XText (js_String (js_get obj key))]) extra) ->
               b_atts (wildcardPass o known obj r nd) = b_atts node /\
               exists emitted,
                 b_content (wildcardPass o known obj r nd) = b_content node ++ emitted /\
                 Forall
                   (fun x =>
                      exists key0 atts content,
                        x = XElem key0 atts content /\ In key0 (key :: r) /\
                        key0 <> textNodeKey o /\
                        startsWith key0 (attributePrefix o) = false /\
                        (toLowerCase key0 ∉ known) /\
                        isNullish (js_get obj key0) = false)
                   emitted /\
                 (forall key0,
                     In key0 (key :: r) -> key0 <> textNodeKey o ->
                     startsWith key0 (attributePrefix o) = false ->
                     toLowerCase key0 ∉ known ->
                     isScalar (js_get obj key0) = true ->
                     In (XElem key0 [] [XText (js_String (js_get obj key0))]) emitted))
      as Hstep.
    { intros nd extra Ha Hc Hextra Hscalar.
      destruct (IH nd) as [Ha' (emitted & Hc' & Hall & Hin)].
      split; [congruence|]. exists (extra ++ emitted). split; [|split].
      - rewrite Hc', Hc, <- app_assoc. reflexivity.
      - apply Forall_app. split.
        + eapply Forall_impl; [exact Hextra|].
          intros x (atts & content & -> & Hn). exists key, atts, content.
          split; [reflexivity|]. split; [now left|exact Hn].
        + eapply Forall_impl; [exact Hall|].
          intros x (k0 & atts & content & -> & Hk0 & Hn). exists k0, atts, content.
          auto using in_cons.
      - intros key0 [<-|Hk0] H1 H2 H3 H4; apply in_or_app; [left|right]; auto. }
    cbn [wildcardPass].
    case_bool_decide as Htext;
      [apply (Hstep node []); auto using app_nil_r; intros; contradiction|].
    destruct (startsWith key (attributePrefix o)) eqn:Hprefix;
      [apply (Hstep node []); auto using app_nil_r; intros; discriminate|].
    case_bool_decide as Hknown;
      [apply (Hstep node []); auto using app_nil_r; intros; contradiction|].
    destruct (js_get obj key) as [| |b|num|str|items|props] eqn:Hv.
    1,2: apply (Hstep node []); auto using app_nil_r; intros; discriminate.
    1-3: match goal with
         | |- context [wildcardPass _ _ _ _ (ele ?n ?k ?c)] =>
             apply (Hstep (ele n k c) [XElem k (b_atts c) (b_content c)])
         end; [reflexivity|reflexivity| |intros; left; reflexivity];
         constructor; [|constructor]; eauto 8.
    + destruct (wildcardItems_content o key items node) as [Ha (emitted & Hc & Hall)].
      apply (Hstep _ emitted); auto; [|intros; discriminate].
      eapply Forall_impl; [exact Hall|]. intros x (atts & content & ->). eauto 8.
    + match goal with
      | |- context [wildcardPass _ _ _ _ (ele ?n ?k ?c)] =>
          apply (Hstep (ele n k c) [XElem k (b_atts c) (b_content c)])
      end; [reflexivity|reflexivity| |intros; discriminate].
      constructor; [|constructor]. eauto 8.
Qed.

(** X10: under a wildcard ([xs:any]), and with every name handed to
    xmlbuilder2 a plain name ([builderExact]), the declared children are
    written first and the passed-through keys after them, in the order of
    the JSON keys.  A key is passed through only if it is not the text key,
    does not start with the attribute prefix, matches no declared child
    even ignoring case, and holds a value; it keeps its JSON spelling, and
    every such key holding a scalar becomes a text-only element. *)
Theorem wildcard_passes_undeclared_keys
    (w : SchemaWalker) (o : BuildOptions) (node node' : XMLBuilder) (el : ElementDef)
    (ct : ComplexTypeDef) (obj : JsonObject) (path : string) :
  builderExact w o el (JObject obj) = true ->
  resolveComplexTypeForElement w el = Some ct ->
  ct_hasTextContent ct && negb (isUndefined (js_get obj (textNodeKey o))) = false ->
  hasWildcardForElement w el = true ->
  buildElement w o node el (JObject obj) path = Returned node' ->
  exists declared passed,
    b_content node' = b_content node ++ declared ++ passed /\
    Forall
      (fun x =>
         exists c atts content,
           x = XElem (el_name c) atts content /\ In c (getChildElementsForElement w el) /\
           isNullish (lookupCI obj (el_name c)) = false)
      declared /\
    Forall
      (fun x =>
         exists key atts content,
           x = XElem key atts content /\ In key (Object_keys obj) /\
           key <> textNodeKey o /\ startsWith key (attributePrefix o) = false /\
           (toLowerCase key ∉ lowerSet (map el_name (getChildElementsForElement w el))) /\
           isNullish (js_get obj key) = false)
      passed /\
    (forall key,
        In key (Object_keys obj) -> key <> textNodeKey o ->
        startsWith key (attributePrefix o) = false ->
        toLowerCase key ∉ lowerSet (map el_name (getChildElementsForElement w el)) ->
        isScalar (js_get obj key) = true ->
        In (XElem key [] [XText (js_String (js_get obj key))]) passed).
Proof.
  intros _ Hct Htext Hwild H. rewrite buildElement_unfold in H. unfold buildElementWith in H.
  rewrite Hct, Htext, Hwild in H.
  destruct (buildChildren _ _ _ _ _) as [node2|e|] eqn:Hc; simpl in H; try discriminate.
  injection H as <-.
  destruct (buildChildren_returned _ _ _ _ _ _ Hc) as [_ (declared & Hcont & Hall)].
  rewrite applyAttributes_content in Hcont.
  destruct (wildcardPass_passes o
              (lowerSet (map el_name (getChildElementsForElement w el)))
              obj (Object_keys obj) node2) as [_ (passed & Hcont' & Hall' & Hin)].
  exists declared, passed. split; [|auto].
  rewrite Hcont', Hcont, <- app_assoc. reflexivity.
Qed.

Lemma wildcard_passes_undeclared_keys_witness :
  exists declared passed,
    [XElem "header" [] [XText "h"]; XElem "Note" [] [XText "n"]] = [] ++ declared ++ passed /\
    In (XElem "Note" [] [XText "n"]) passed.
Proof.
  destruct (wildcard_passes_undeclared_keys envelopeWalker defaultOptions (newNode [])
              (mkXMLBuilder [] [XElem "header" [] [XText "h"]; XElem "Note" [] [XText "n"]])
              (typedElement "envelope" "EnvelopeType") envelopeType
              [("Note", JString "n"); ("@id", JString "1"); ("HEADER", JString "h")]
              "$.envelope" eq_refl eq_refl eq_refl eq_refl eq_refl)
    as (declared & passed & Hcont & _ & _ & Hin).
  exists declared, passed. split; [exact Hcont|].
  apply (Hin "Note"); [left; reflexivity|discriminate|reflexivity| |reflexivity].
  intros Hx. apply (bool_decide_pack _) in Hx. vm_compute in Hx. exact Hx.
Defined.

Lemma buildWildcardValue_cons_null prefix textKey node key v rest :
  isNullish v = true ->
  buildWildcardValue prefix textKey node (JObject ((key, v) :: rest))
  = buildWildcardValue prefix textKey node (JObject rest).
Proof. destruct v; try discriminate; reflexivity. Qed.

Lemma buildWildcardValue_cons_scalar prefix textKey node key v rest :
  isScalar v = true ->
  buildWildcardValue prefix textKey node (JObject ((key, v) :: rest))
  = buildWildcardValue prefix textKey
      (if bool_decide (key = textKey) then txt node (js_String v)
       else if startsWith key prefix
            then att node (slice key (String.length prefix)) (js_String v)
            else ele node key (txt (newNode []) (js_String v)))
      (JObject rest).
Proof.
  destruct v; try discriminate; intros _; simpl;
    case_bool_decide; try reflexivity; destruct (startsWith key prefix); reflexivity.
Qed.

Lemma buildWildcardValue_flat prefix textKey obj node :
  Forall (fun kv => isScalar (snd kv) || isNullish (snd kv) = true) obj ->
  b_content (buildWildcardValue prefix textKey node (JObject obj))
  = b_content node ++
    flat_map
      (fun kv =>
         if isNullish (snd kv) then []
         else if bool_decide (fst kv = textKey) then [XText (js_String (snd kv))]
         else if startsWith (fst kv) prefix then []
         else [XElem (fst kv) [] [XText (js_String (snd kv))]])
      obj /\
  (forall n, In n (Map_keys (b_atts node)) ->
             In n (Map_keys (b_atts (buildWildcardValue prefix textKey node (JObject obj))))) /\
  (forall key v,
      In (key, v) obj -> isNullish v = false -> key <> textKey ->
      startsWith key prefix = true ->
      In (slice key (String.length prefix))
         (Map_keys (b_atts (buildWildcardValue prefix textKey node (JObject obj))))).
Proof.
  intros Hflat. revert node.
  induction Hflat as [|[key v] rest Hv Hrest IH]; intros node.
  - simpl. rewrite app_nil_r. split; [reflexivity|]. split; [auto|]. intros key v [].
  - simpl in Hv. destruct (isNullish v) eqn:Hnull.
    + rewrite buildWildcardValue_cons_null by exact Hnull.
      destruct (IH node) as (Hc & Hkeep & Hatt).
      cbn [flat_map fst snd]. rewrite Hnull. split; [exact Hc|]. split; [exact Hkeep|].
      intros key0 v0 [Hkv|Hkv] H1 H2 H3; [|eauto].
      injection Hkv as <- <-. congruence.
    + rewrite orb_false_r in Hv.
      rewrite buildWildcardValue_cons_scalar by exact Hv.
      cbn [flat_map fst snd]. rewrite Hnull.
      match goal with
      | |- context [buildWildcardValue prefix textKey ?nd (JObject rest)] =>
          destruct (IH nd) as (Hc & Hkeep & Hatt)
      end.
      case_bool_decide as Hk; [|destruct (startsWith key prefix) eqn:Hp].
      * split; [|split].
        -- rewrite Hc. simpl. rewrite <- app_assoc. reflexivity.
        -- intros n Hn. apply Hkeep. exact Hn.
        -- intros key0 v0 [Hkv|Hkv] H1 H2 H3; [|eauto].
           injection Hkv as <- <-. contradiction.
      * split; [|split].
        -- rewrite Hc. reflexivity.
        -- intros n Hn. apply Hkeep. simpl. apply Map_set_keys_mono. exact Hn.
        -- intros key0 v0 [Hkv|Hkv] H1 H2 H3; [|eauto].
           injection Hkv as <- <-. apply Hkeep. simpl. apply Map_set_has.
      * split; [|split].
        -- rewrite Hc. simpl. rewrite <- app_assoc. reflexivity.
        -- intros n Hn. apply Hkeep. exact Hn.
        -- intros key0 v0 [Hkv|Hkv] H1 H2 H3; [|eauto].
           injection Hkv as <- <-. congruence.
Qed.

(** X11: free-form serialisation ([buildWildcardValue]).  [null] and
    [undefined] write nothing, a scalar is written as text and an array as
    its JSON text.  For an object holding only scalars and [null]s, whose
    keys are the text key or plain names (after the attribute prefix, for
    those that start with it), the entries that have a value are written in
    entry order: the text key as text, a key starting with the attribute
    prefix as an attribute named by the rest of the key, any other key as a
    text-only element spelled as the key. *)
Theorem wildcard_value_serialisation (prefix textKey : string) (node : XMLBuilder) :
  (forall v, isNullish v = true -> buildWildcardValue prefix textKey node v = node) /\
  (forall v, isScalar v = true ->
             buildWildcardValue prefix textKey node v = txt node (js_String v)) /\
  (forall items,
      buildWildcardValue prefix textKey node (JArray items)
      = txt node (JSON_stringify (JArray items))) /\
  (forall obj,
      passableJson prefix textKey (JObject obj) = true ->
      Forall (fun kv => isScalar (snd kv) || isNullish (snd kv) = true) obj ->
      b_content (buildWildcardValue prefix textKey node (JObject obj))
      = b_content node ++
        flat_map
          (fun kv =>
             if isNullish (snd kv) then []
             else if bool_decide (fst kv = textKey) then [XText (js_String (snd kv))]
             else if startsWith (fst kv) prefix then []
             else [XElem (fst kv) [] [XText (js_String (snd kv))]])
          obj /\
      (forall key v,
          In (key, v) obj -> isNullish v = false -> key <> textKey ->
          startsWith key prefix = true ->
          In (slice key (String.length prefix))
             (Map_keys (b_atts (buildWildcardValue prefix textKey node (JObject obj)))))).
Proof.
  split; [|split; [|split]].
  - intros v Hv. destruct v; try discriminate; reflexivity.
  - intros v Hv. apply buildWildcardValue_scalar. exact Hv.
  - reflexivity.
  - intros obj _ Hflat.
    destruct (buildWildcardValue_flat prefix textKey obj node Hflat) as (Hc & _ & Hatt).
    split; assumption.
Qed.

Lemma wildcard_value_serialisation_witness :
  b_content
    (buildWildcardValue "@" "#text" (newNode [])
       (JObject [("b", JNumber "2"); ("@unit", JString "kg"); ("a", JNull);
                 ("#text", JString "t"); ("A", JBool true)]))
  = [XElem "b" [] [XText "2"]; XText "t"; XElem "A" [] [XText "true"]] /\
  In "unit"
     (Map_keys
        (b_atts
           (buildWildcardValue "@" "#text" (newNode [])
              (JObject [("b", JNumber "2"); ("@unit", JString "kg"); ("a", JNull);
                        ("#text", JString "t"); ("A", JBool true)])))).
Proof.
  destruct (proj2 (proj2 (proj2 (wildcard_value_serialisation "@" "#text" (newNode []))))
              [("b", JNumber "2"); ("@unit", JString "kg"); ("a", JNull);
               ("#text", JString "t"); ("A", JBool true)]) as [Hc Hatt].
  - reflexivity.
  - repeat constructor.
  - split; [exact Hc|].
    apply (Hatt "@unit" (JString "kg")); [right; left; reflexivity| | |]; try reflexivity.
    discriminate.
Defined.

(* ===================================================================== *)
(** ** Mapping engine: the root element                                   *)
(* ===================================================================== *)

(** X12: a document [buildXml] returns has the schema's root element as
    its root, named as the schema names it.  Its attributes are declared
    attributes of the root element, plus [xmlns] when the options carry a
    non-empty target namespace; [xmlns] holds that namespace unless the
    schema declares an attribute of this name. *)
Theorem buildXml_root_element
    (json : JsonObject) (w : SchemaWalker) (o : BuildOptions) (doc : XmlNode) :
  buildXml json w o = Returned doc ->
  exists rootEl atts content,
    lookupElement w (rootElement (schema w)) = Some rootEl /\
    doc = XElem (rootElement (schema w)) atts content /\
    (forall n, In n (Map_keys atts) ->
               In n (map attr_name (getAttributesForElement w rootEl)) \/
               (n = "xmlns" /\ truthy (opt_targetNamespace o) <> None)) /\
    (forall ns,
        truthy (opt_targetNamespace o) = Some ns ->
        ~ In "xmlns" (map attr_name (getAttributesForElement w rootEl)) ->
        Map_get atts "xmlns" = Some ns).
Proof.
  unfold buildXml. intros H.
  destruct (lookupElement w (rootElement (schema w))) as [rootEl|]; [|discriminate].
  destruct (buildElement w o _ rootEl _ _) as [built|e|] eqn:Hb; simpl in H; try discriminate.
  injection H as <-. exists rootEl, (b_atts built), (b_content built).
  split; [reflexivity|]. split; [reflexivity|]. split.
  - intros n Hn.
    destruct (buildElement_atts_names w o _ _ _ _ _ n Hb Hn) as [Hroot|Hdecl]; [|auto].
    right. destruct (truthy (opt_targetNamespace o)); simpl in Hroot.
    + destruct Hroot as [<-|[]]. split; [reflexivity|discriminate].
    + destruct Hroot.
  - intros ns Hns Hfree.
    rewrite (buildElement_atts_other w o _ _ _ _ _ "xmlns" Hb Hfree).
    rewrite Hns. reflexivity.
Qed.

Lemma buildXml_root_element_witness :
  exists rootEl atts content,
    lookupElement personWalker "person" = Some rootEl /\
    XElem "person" [("xmlns", "urn:p"); ("id", "7")] [XElem "name" [] [XText "Ann"]]
    = XElem "person" atts content /\
    Map_get atts "xmlns" = Some "urn:p".
Proof.
  destruct (buildXml_root_element
              [("PERSON", JObject [("@id", JString "7"); ("name", JString "Ann")])]
              personWalker
              (mkBuildOptions false true "UTF-8" "@" "#text" (Some "urn:p"))
              (XElem "person" [("xmlns", "urn:p"); ("id", "7")] [XElem "name" [] [XText "Ann"]])
              eq_refl) as (rootEl & atts & content & Hroot & Hdoc & _ & Hns).
  exists rootEl, atts, content. split; [exact Hroot|]. split; [exact Hdoc|].
  apply (Hns "urn:p"); [reflexivity|].
  simpl in Hroot. injection Hroot as <-. vm_compute. intros [H|[]]. discriminate H.
Defined.

(* ===================================================================== *)
(** ** Validator: where issues point, and what passing means              *)
(* ===================================================================== *)

Lemma flat_map_nil {A B} (f : A -> list B) (l : list A) :
  flat_map f l = [] <-> forall x, In x l -> f x = [].
Proof.
  induction l as [|x r IH]; simpl.
  - split; [intros _ x []|reflexivity].
  - split.
    + intros H. apply app_eq_nil in H. destruct H as [Hx Hr].
      intros y [<-|Hy]; [exact Hx|]. apply IH; assumption.
    + intros H. rewrite (H x (or_introl eq_refl)). simpl. apply IH.
      intros y Hy. apply H. now right.
Qed.

Lemma requiredAttributeIssues_nil prefix attrs obj path :
  requiredAttributeIssues prefix attrs obj path = [] <->
  forall a, In a attrs -> attr_use a = required ->
            js_get obj (prefix +:+ attr_name a) <> JUndefined.
Proof.
  unfold requiredAttributeIssues. rewrite flat_map_nil.
  split; intros H a Hin.
  - intros Huse Hundef. specialize (H a Hin). rewrite Huse, Hundef in H. discriminate.
  - specialize (H a Hin). destruct (attr_use a); try reflexivity.
    destruct (js_get obj (prefix +:+ attr_name a)); try reflexivity.
    exfalso. apply H; reflexivity.
Qed.

Lemma unknownKeyIssues_nil textKey (knownC knownA : gset string) wild elName keys path :
  unknownKeyIssues textKey knownC knownA wild elName keys path = [] <->
  (wild = true \/
   forall key, In key keys -> key = textKey \/ key ∈ knownC \/ key ∈ knownA).
Proof.
  unfold unknownKeyIssues. rewrite flat_map_nil. split.
  - intros H. destruct wild; [now left|]. right. intros key Hin.
    specialize (H key Hin).
    case_bool_decide as Ht; [now left|]. right.
    destruct (bool_decide (key ∈ knownC)) eqn:Hc;
      [left; apply bool_decide_eq_true in Hc; exact Hc|].
    destruct (bool_decide (key ∈ knownA)) eqn:Ha;
      [right; apply bool_decide_eq_true in Ha; exact Ha|].
    simpl in H. discriminate.
  - intros [-> | H] key Hin.
    + case_bool_decide; [reflexivity|]. destruct (_ || _); reflexivity.
    + destruct (H key Hin) as [->|[Hc|Ha]].
      * rewrite bool_decide_eq_true_2 by reflexivity. reflexivity.
      * case_bool_decide; [reflexivity|].
        rewrite (bool_decide_eq_true_2 _ Hc). reflexivity.
      * case_bool_decide; [reflexivity|].
        rewrite (bool_decide_eq_true_2 _ Ha), orb_true_r. reflexivity.
Qed.

Lemma itemIssues_nil issuesOf el items i path :
  itemIssues issuesOf el items i path = [] <->
  forall j item, items !! j = Some item ->
                 issuesOf el item (path +:+ "[" +:+ pretty (i + j) +:+ "]") = [].
Proof.
  revert i. induction items as [|x r IH]; intros i; simpl.
  - split; [intros _ j item Hj; discriminate|reflexivity].
  - split.
    + intros H. apply app_eq_nil in H. destruct H as [Hx Hr].
      intros [|j] item Hj; simpl in Hj.
      * injection Hj as <-. rewrite Nat.add_0_r. exact Hx.
      * rewrite Nat.add_succ_r. apply (proj1 (IH (S i)) Hr j item Hj).
    + intros H. rewrite <- (Nat.add_0_r i) at 1. rewrite (H 0 x eq_refl). simpl.
      apply IH. intros j item Hj. rewrite Nat.add_succ_l, <- Nat.add_succ_r.
      apply (H (S j)). exact Hj.
Qed.

Lemma elem_of_names {A} (f : A -> string) (l : list A) (k : string) :
  k ∈ (list_to_set (map f l) : gset string) <-> exists x, In x l /\ f x = k.
Proof.
  rewrite elem_of_list_to_set, list_elem_of_In, in_map_iff.
  split; intros (x & H1 & H2); eauto.
Qed.

Section ValidatorMeaning.
Variable w : SchemaWalker.
Variables prefix textKey : string.

Lemma validateElement_nil el value path :
  validateElement w prefix textKey el value path [] = Some [] <->
  allIssues w prefix textKey el value path = [].
Proof.
  rewrite validateElement_spec. simpl. split; [intros H; injection H; auto|intros ->; reflexivity].
Qed.

Lemma extends_path_trans (path mid : string) (i : ValidationIssue) :
  (exists suffix, issue_path i = (path +:+ mid) +:+ suffix) ->
  exists suffix, issue_path i = path +:+ suffix.
Proof. intros (s & Hs). exists (mid +:+ s). rewrite Hs. apply string_app_assoc. Qed.

Lemma allIssues_located n :
  forall value, json_depth value < n ->
  forall el path,
    Forall (fun i => exists suffix, issue_path i = path +:+ suffix)
      (allIssues w prefix textKey el value path).
Proof.
  induction n as [|n IH]; intros value Hd el path; [lia|].
  assert (forall name msg, exists suffix,
             issue_path (mkIssue (path +:+ "." +:+ name) msg) = path +:+ suffix) as Hsub
    by (intros name msg; eexists; reflexivity).
  assert (forall msg, exists suffix, issue_path (mkIssue path msg) = path +:+ suffix) as Hhere
    by (intros msg; exists ""; simpl; symmetry; apply string_app_empty).
  rewrite allIssues_unfold. unfold allIssuesWith.
  destruct value as [| |b|num|str|items|obj].
  1-5: destruct (resolveComplexTypeForElement w el); try constructor;
       try destruct (0 <? el_minOccurs el)%Z; repeat constructor; apply Hhere.
  - destruct (negb (el_isArray el)); [repeat constructor; apply Hhere|].
    assert (forall x, In x items -> json_depth x < n) as Hitems
      by (intros x Hx; pose proof (depth_array_item items x Hx); lia).
    clear Hd. generalize 0 as i. induction items as [|x r IHr]; intros i; simpl;
      [constructor|].
    apply Forall_app. split.
    + eapply Forall_impl; [apply IH, Hitems; now left|].
      intros issue Hi. simpl in Hi. eapply extends_path_trans. exact Hi.
    + apply IHr. intros y Hy. apply Hitems. now right.
  - destruct (resolveComplexTypeForElement w el) as [ct|];
      [|repeat constructor; apply Hhere].
    apply Forall_app. split; [|apply Forall_app; split].
    + unfold requiredAttributeIssues. apply Forall_flat_map, Forall_forall.
      intros a _. destruct (attr_use a); try constructor.
      destruct (isUndefined _); repeat constructor. apply Hsub.
    + apply Forall_flat_map, Forall_forall. intros c _. unfold childIssues.
      destruct (_ && _); [repeat constructor; apply Hsub|].
      destruct (negb _); [|constructor].
      eapply Forall_impl; [apply IH; pose proof (js_get_depth obj (el_name c)); lia|].
      intros issue Hi. simpl in Hi. eapply extends_path_trans. exact Hi.
    + unfold unknownKeyIssues. apply Forall_flat_map, Forall_forall.
      intros key _. case_bool_decide; [constructor|].
      destruct (_ || _); [constructor|].
      destruct (hasWildcardForElement w el); repeat constructor. apply Hsub.
Qed.
End ValidatorMeaning.

(** X13: every issue points below the place it was found at.  A call of
    [validateElement] only appends issues, each with a path that extends
    the path of the call; an error thrown by [validateJson] carries at
    least one issue, and unless the root element is unknown every path in
    it starts with [$.<root>]. *)
Theorem validation_issues_are_located
    (w : SchemaWalker) (prefix textKey : string) :
  (forall el value path acc,
      exists found,
        validateElement w prefix textKey el value path acc = Some (acc ++ found) /\
        Forall (fun i => exists suffix, issue_path i = path +:+ suffix) found) /\
  (forall json err,
      validateJson json w prefix textKey = Thrown err ->
      issues err <> [] /\
      (lookupElement w (rootElement (schema w)) = None \/
       Forall
         (fun i => exists suffix,
                     issue_path i = "$." +:+ rootElement (schema w) +:+ suffix)
         (issues err))).
Proof.
  split.
  - intros el value path acc. exists (allIssues w prefix textKey el value path).
    split; [apply validateElement_spec|].
    apply (allIssues_located w prefix textKey (S (json_depth value))). lia.
  - intros json err. unfold validateJson.
    destruct (lookupElement w (rootElement (schema w))) as [rootEl|].
    + rewrite validateElement_spec. simpl.
      pose proof (allIssues_located w prefix textKey
                    (S (json_depth (validatedValue json (rootElement (schema w)))))
                    _ (Nat.lt_succ_diag_r _) rootEl ("$." +:+ rootElement (schema w)))
        as Hloc.
      destruct (allIssues _ _ _ _ _ _) as [|i rest]; simpl; [discriminate|].
      intros H. injection H as <-. simpl. split; [discriminate|]. right.
      eapply Forall_impl; [exact Hloc|].
      intros issue (s & Hs). exists s. rewrite Hs. apply string_app_assoc.
    + intros H. injection H as <-. simpl. split; [discriminate|]. now left.
Qed.

Lemma validation_issues_are_located_witness :
  issues
    (mkXsdValidationError
       [missingAttribute "$.person" "@id" "id";
        notMultiple "$.person.name" "name";
        unknownProperty "$.person" "zzz" "person"]) <> [] /\
  (lookupElement personWalker (rootElement (schema personWalker)) = None \/
   Forall
     (fun i => exists suffix,
                 issue_path i = "$." +:+ rootElement (schema personWalker) +:+ suffix)
     (issues
        (mkXsdValidationError
           [missingAttribute "$.person" "@id" "id";
            notMultiple "$.person.name" "name";
            unknownProperty "$.person" "zzz" "person"]))).
Proof.
  apply (proj2 (validation_issues_are_located personWalker "@" "#text")
           [("name", JArray [JString "n"]); ("zzz", JNull)]).
  reflexivity.
Defined.

(** X14: what strict validation accepts.  A call of [validateElement]
    finds no issue exactly when: an array stands only where the element is
    repeatable, and each item passes in turn (an item may itself be an
    array); an object stands only where the element has a complex type, has
    every required attribute key (exactly spelled, [null] allowed), has a
    value for every child with [minOccurs] above 0, passes for every child
    that has a value, and, unless the type has a wildcard, has no key other
    than the text key, the exact child names and the exact prefixed
    attribute names; a scalar stands only where the element has no complex
    type; [null] stands anywhere but at a required element of complex
    type.  This is for a schema none of whose child names and prefixed
    attribute names is a name every object inherits ([validatorExact]), so
    that "has a key" and "has a value" are what [obj[name]] reads. *)
Theorem strict_validation_accepts_exactly
    (w : SchemaWalker) (prefix textKey : string) (el : ElementDef) (value : JsonValue)
    (path : string) :
  validatorExact w prefix el = true ->
  validateElement w prefix textKey el value path [] = Some [] <->
  match value with
  | JArray items =>
      el_isArray el = true /\
      forall i item,
        items !! i = Some item ->
        validateElement w prefix textKey el item (path +:+ "[" +:+ pretty i +:+ "]") []
        = Some []
  | JObject obj =>
      match resolveComplexTypeForElement w el with
      | None => False
      | Some _ =>
          (forall a, In a (getAttributesForElement w el) -> attr_use a = required ->
                     js_get obj (prefix +:+ attr_name a) <> JUndefined) /\
          (forall c, In c (getChildElementsForElement w el) ->
                     if isNullish (js_get obj (el_name c))
                     then (el_minOccurs c <= 0)%Z
                     else validateElement w prefix textKey c (js_get obj (el_name c))
                            (path +:+ "." +:+ el_name c) []
                          = Some []) /\
          (hasWildcardForElement w el = true \/
           forall key, In key (Object_keys obj) ->
                       key = textKey \/
                       (exists c, In c (getChildElementsForElement w el) /\ el_name c = key) \/
                       (exists a, In a (getAttributesForElement w el) /\
                                  prefix +:+ attr_name a = key))
      end
  | JUndefined | JNull =>
      match resolveComplexTypeForElement w el with
      | None => True
      | Some _ => (el_minOccurs el <= 0)%Z
      end
  | JBool _ | JNumber _ | JString _ => resolveComplexTypeForElement w el = None
  end.
Proof.
  intros _.
  rewrite validateElement_nil, allIssues_unfold. unfold allIssuesWith.
  destruct value as [| |b|num|str|items|obj].
  1,2: destruct (resolveComplexTypeForElement w el); [|tauto];
       destruct (0 <? el_minOccurs el)%Z eqn:Hmin;
       [apply Z.ltb_lt in Hmin|apply Z.ltb_ge in Hmin];
       split; try discriminate; try reflexivity; intros; try lia; assumption.
  1-3: destruct (resolveComplexTypeForElement w el); split; try discriminate; reflexivity.
  - destruct (el_isArray el); simpl.
    + rewrite itemIssues_nil. split.
      * intros H. split; [reflexivity|]. intros i item Hi.
        apply validateElement_nil. apply (H i item Hi).
      * intros [_ H] i item Hi. apply validateElement_nil. apply (H i item Hi).
    + split; [discriminate|]. intros [H _]. discriminate.
  - destruct (resolveComplexTypeForElement w el) as [ct|]; [|split; [discriminate|tauto]].
    split.
    + intros H. apply app_eq_nil in H. destruct H as [Hattrs H].
      apply app_eq_nil in H. destruct H as [Hchildren Hkeys].
      split; [exact (proj1 (requiredAttributeIssues_nil _ _ _ _) Hattrs)|]. split.
      * intros c Hc. rewrite flat_map_nil in Hchildren. specialize (Hchildren c Hc).
        unfold childIssues in Hchildren.
        destruct (isNullish (js_get obj (el_name c))); simpl in Hchildren.
        -- rewrite andb_true_r in Hchildren.
           destruct (0 <? el_minOccurs c)%Z eqn:Hmin; [discriminate|].
           apply Z.ltb_ge in Hmin. exact Hmin.
        -- rewrite andb_false_r in Hchildren. apply validateElement_nil. exact Hchildren.
      * apply unknownKeyIssues_nil in Hkeys. destruct Hkeys as [Hw|Hkeys]; [now left|].
        right. intros key Hkey. destruct (Hkeys key Hkey) as [Ht|[Hc|Ha]]; [now left| |].
        -- right. left. apply elem_of_names in Hc. exact Hc.
        -- right. right. apply elem_of_names in Ha. exact Ha.
    + intros (Hattrs & Hchildren & Hkeys).
      rewrite (proj2 (requiredAttributeIssues_nil prefix _ obj path) Hattrs). simpl.
      apply app_nil. split.
      * apply flat_map_nil. intros c Hc. specialize (Hchildren c Hc).
        unfold childIssues.
        destruct (isNullish (js_get obj (el_name c))); simpl.
        -- rewrite andb_true_r.
           destruct (0 <? el_minOccurs c)%Z eqn:Hmin; [|reflexivity].
           apply Z.ltb_lt in Hmin. lia.
        -- rewrite andb_false_r. apply validateElement_nil. exact Hchildren.
      * apply unknownKeyIssues_nil. destruct Hkeys as [Hw|Hkeys]; [now left|].
        right. intros key Hkey. destruct (Hkeys key Hkey) as [Ht|[Hc|Ha]]; [now left| |].
        -- right. left. apply elem_of_names. exact Hc.
        -- right. right. apply elem_of_names. exact Ha.
Qed.

Lemma strict_validation_accepts_exactly_witness :
  validatorExact personWalker "@" (typedElement "person" "PersonType") = true /\
  validateElement personWalker "@" "#text" (typedElement "person" "PersonType")
    (JObject [("@id", JNull); ("name", JString "Ann")]) "$.person" [] = Some [].
Proof.
  split; [reflexivity|].
  apply (proj2 (strict_validation_accepts_exactly personWalker "@" "#text"
                  (typedElement "person" "PersonType")
                  (JObject [("@id", JNull); ("name", JString "Ann")]) "$.person" eq_refl)).
  change (resolveComplexTypeForElement personWalker (typedElement "person" "PersonType"))
    with (Some personType).
  split; [|split].
  - intros a Ha _. vm_compute in Ha. destruct Ha as [<-|[]]. discriminate.
  - intros c Hc. vm_compute in Hc. destruct Hc as [<-|[]].
    apply (proj2 (strict_validation_accepts_exactly personWalker "@" "#text"
                    (leafElement "name") (JString "Ann") "$.person.name" eq_refl)).
    reflexivity.
  - right. intros key [<-|[<-|[]]]; right.
    + right. exists (mkAttributeDef "id" "xs:string" required None None).
      split; [left|]; reflexivity.
    + left. exists (leafElement "name"). split; [left|]; reflexivity.
Defined.

(** X15: at an object of complex type no violation hides another.  The
    issues found hold one entry for every required attribute whose key is
    absent, for every child with [minOccurs] above 0 that is [null] or
    absent, and, unless the type has a wildcard, for every key that is
    neither the text key nor exactly a child name or a prefixed attribute
    name (a key differing from a declared name only by case is reported,
    although the builder would map it); they also hold every issue of every
    child that has a value.  This is for a schema none of whose child names
    and prefixed attribute names is a name every object inherits
    ([validatorExact]), so that "absent" is what [obj[name]] reads. *)
Theorem strict_validation_reports_each_violation
    (w : SchemaWalker) (prefix textKey : string) (el : ElementDef) (ct : ComplexTypeDef)
    (obj : JsonObject) (path : string) :
  validatorExact w prefix el = true ->
  resolveComplexTypeForElement w el = Some ct ->
  exists found,
    validateElement w prefix textKey el (JObject obj) path [] = Some found /\
    (forall a,
        In a (getAttributesForElement w el) -> attr_use a = required ->
        js_get obj (prefix +:+ attr_name a) = JUndefined ->
        In (missingAttribute path (prefix +:+ attr_name a) (attr_name a)) found) /\
    (forall c,
        In c (getChildElementsForElement w el) -> (0 < el_minOccurs c)%Z ->
        isNullish (js_get obj (el_name c)) = true ->
        In (missingElement path (el_name c) (el_minOccurs c)) found) /\
    (forall c below issue,
        In c (getChildElementsForElement w el) ->
        isNullish (js_get obj (el_name c)) = false ->
        validateElement w prefix textKey c (js_get obj (el_name c))
          (path +:+ "." +:+ el_name c) [] = Some below ->
        In issue below -> In issue found) /\
    (forall key,
        In key (Object_keys obj) -> key <> textKey ->
        (forall c, In c (getChildElementsForElement w el) -> el_name c <> key) ->
        (forall a, In a (getAttributesForElement w el) -> prefix +:+ attr_name a <> key) ->
        hasWildcardForElement w el = false ->
        In (unknownProperty path key (el_name el)) found).
Proof.
  intros _ Hct. exists (allIssues w prefix textKey el (JObject obj) path).
  split; [apply (validateElement_spec w prefix textKey el (JObject obj) path [])|].
  rewrite allIssues_unfold. unfold allIssuesWith. rewrite Hct.
  split; [|split; [|split]].
  - intros a Hin Huse Hundef. apply in_or_app. left.
    apply requiredAttributeIssues_In. exists a. auto.
  - intros c Hin Hmin Hnull. apply in_or_app. right. apply in_or_app. left.
    apply in_flat_map. exists c. split; [exact Hin|]. unfold childIssues.
    rewrite Hnull, (proj2 (Z.ltb_lt _ _) Hmin). simpl. now left.
  - intros c below issue Hin Hnull Hbelow Hissue.
    apply in_or_app. right. apply in_or_app. left.
    apply in_flat_map. exists c. split; [exact Hin|]. unfold childIssues.
    rewrite Hnull, andb_false_r. simpl.
    rewrite validateElement_spec in Hbelow. simpl in Hbelow. injection Hbelow as <-.
    exact Hissue.
  - intros key Hin Htext Hchild Hattr Hwild.
    apply in_or_app. right. apply in_or_app. right.
    unfold unknownKeyIssues. apply in_flat_map. exists key. split; [exact Hin|].
    rewrite (bool_decide_eq_false_2 _ Htext).
    rewrite bool_decide_eq_false_2.
    2:{ intros Hx. apply elem_of_names in Hx. destruct Hx as (c & Hc & Heq).
        exact (Hchild c Hc Heq). }
    rewrite bool_decide_eq_false_2.
    2:{ intros Hx. apply elem_of_names in Hx. destruct Hx as (a & Ha & Heq).
        exact (Hattr a Ha Heq). }
    rewrite Hwild. simpl. now left.
Qed.

Lemma strict_validation_reports_each_violation_witness :
  exists found,
    validateElement personWalker "@" "#text" (typedElement "person" "PersonType")
      (JObject [("NAME", JString "Ann")]) "$.person" [] = Some found /\
    In (missingAttribute "$.person" "@id" "id") found /\
    In (missingElement "$.person" "name" 1) found /\
    In (unknownProperty "$.person" "NAME" "person") found.
Proof.
  destruct (strict_validation_reports_each_violation personWalker "@" "#text"
              (typedElement "person" "PersonType") personType
              [("NAME", JString "Ann")] "$.person" eq_refl eq_refl)
    as (found & Hfound & Hattr & Hchild & _ & Hkey).
  exists found. split; [exact Hfound|]. split; [|split].
  - apply (Hattr (mkAttributeDef "id" "xs:string" required None None));
      [left; reflexivity|reflexivity|reflexivity].
  - apply (Hchild (leafElement "name")); [left; reflexivity|reflexivity|reflexivity].
  - apply (Hkey "NAME"); [left; reflexivity|discriminate| | |reflexivity].
    + intros c Hc. vm_compute in Hc. destruct Hc as [<-|[]]. discriminate.
    + intros a Ha. vm_compute in Ha. destruct Ha as [<-|[]]. discriminate.
Defined.

(* ===================================================================== *)
(** ** Include/import resolution: the entry file and the keys             *)
(* ===================================================================== *)

Lemma mergePrefixed_entries {V} (P : string -> V -> Prop) prefixes
    (target source : JsMap V) :
  (forall k v, In (k, v) target -> P k v) ->
  (forall k v, In (k, v) source ->
               P k v /\ forall pfx, In pfx prefixes -> P (pfx +:+ ":" +:+ k) v) ->
  forall k v, In (k, v) (mergePrefixed prefixes target source) -> P k v.
Proof.
  unfold mergePrefixed. revert target.
  induction source as [|[k0 v0] r IH]; intros target Ht Hs; simpl; [exact Ht|].
  apply IH; [|intros k v Hkv; apply Hs; now right].
  destruct (Hs k0 v0 (or_introl eq_refl)) as [Hbare Hpfx].
  unfold registerPrefixed. simpl.
  assert (forall m, (forall k v, In (k, v) m -> P k v) ->
                    forall k1, P k1 v0 ->
                               forall k v, In (k, v) (setIfAbsent m k1 v0) -> P k v) as Hstep.
  { intros m Hm k1 Hk1 k v Hin. apply setIfAbsent_entries in Hin.
    destruct Hin as [Hin|Heq]; [auto|]. injection Heq as -> ->. exact Hk1. }
  generalize (setIfAbsent target k0 v0) (Hstep target Ht k0 Hbare).
  clear Ht Hs IH. induction prefixes as [|pfx l IHl]; intros m Hm; simpl; [exact Hm|].
  apply IHl.
  - intros q Hq. apply Hpfx. now right.
  - apply Hstep; [exact Hm|]. apply Hpfx. now left.
Qed.

Section KeyedEntries.
Variable path_resolve : option string -> string -> string.
Variable path_dirname : string -> string.
Variable fs : gmap string FileContent.
Context {V : Type}.
Variable regOf : Registries -> JsMap V.
Variable modelOf : SchemaModel -> JsMap V.
Variable P : string -> V -> Prop.
Hypothesis field_included :
  forall acc m, regOf (mergeIncluded acc m) = mergePrefixed [] (regOf acc) (modelOf m).
Hypothesis field_imported :
  forall ps acc m, exists ps',
    regOf (mergeImported ps acc m) = mergePrefixed ps' (regOf acc) (modelOf m) /\
    forall pfx k v, In pfx ps' -> P k v -> P (pfx +:+ ":" +:+ k) v.
Hypothesis field_model :
  forall root acc tns,
    modelOf (mkSchemaModel root (reg_elements acc) (reg_complexTypes acc)
               (reg_simpleTypes acc) tns) = regOf acc.
Hypothesis field_empty : modelOf emptyModel = [].
Hypothesis field_local : forall raw k v, In (k, v) (regOf (collectLocal raw)) -> P k v.

(** Every binding of a returned model satisfies [P], when the local
    bindings do and prefixing keeps it. *)
Lemma parse_entries fuel xsdPath baseDir visited m :
  fst (parseXsdInternal_fuel path_resolve path_dirname fs fuel xsdPath baseDir visited)
  = Returned m ->
  forall k v, In (k, v) (modelOf m) -> P k v.
Proof.
  revert xsdPath baseDir visited m.
  induction fuel as [|fuel IH]; intros xsdPath baseDir visited m; simpl; [discriminate|].
  case_bool_decide as Hv.
  { simpl. intros H. injection H as <-. rewrite field_empty. intros k v []. }
  destruct (fs !! _) as [[| | |raw]|]; simpl; try discriminate.
  destruct (processIncludes _ _ _ _ _) as [[acc1 V2]|] eqn:Hinc; simpl; [|discriminate].
  destruct (processImports _ _ _ _ _ _) as [[acc2 V3]|] eqn:Himp; simpl; [|discriminate].
  intros H. injection H as <-. rewrite field_model.
  assert (forall k v, In (k, v) (regOf acc1) -> P k v) as Hacc1.
  { refine (processIncludes_inv (fun a _ => forall k v, In (k, v) (regOf a) -> P k v)
              _ _ _ _ _ _ _ _ (field_local raw) Hinc).
    intros a Vn loc _ _ Ha.
    destruct (parseXsdInternal_fuel _ _ _ fuel loc _ Vn) as [[m|e|] V'] eqn:Hcall;
      [|exact Ha|exact I].
    rewrite field_included. apply mergePrefixed_entries; [exact Ha|].
    intros k v Hkv. split; [|intros pfx []].
    eapply (IH loc _ Vn m); [rewrite Hcall; reflexivity|exact Hkv]. }
  refine (processImports_inv (fun a _ => forall k v, In (k, v) (regOf a) -> P k v)
            _ _ _ _ _ _ _ _ _ Hacc1 Himp).
  intros a Vn ns loc _ _ Ha.
  destruct (parseXsdInternal_fuel _ _ _ fuel loc _ Vn) as [[m|e|] V'] eqn:Hcall;
    [|exact Ha|exact I].
  destruct (field_imported (prefixesFor (buildPrefixMap (raw_xmlns raw)) ns) a m)
    as (ps' & -> & Hpfx).
  apply mergePrefixed_entries; [exact Ha|].
  intros k v Hkv.
  assert (P k v) as Hk by (eapply (IH loc _ Vn m); [rewrite Hcall; reflexivity|exact Hkv]).
  split; [exact Hk|]. intros pfx Hin. apply Hpfx; assumption.
Qed.
End KeyedEntries.

Lemma collectLocal_element_key raw k el :
  In (k, el) (reg_elements (collectLocal raw)) -> el_name el = k.
Proof.
  unfold collectLocal. simpl. intros Hin.
  apply (fold_left_entries _ (fun k' v' => el_name v' = k')) in Hin;
    [destruct Hin as [[]|Hin]; exact Hin|].
  intros m y k' v' Hset. apply Map_set_entries in Hset. destruct Hset as [Hset|Heq]; [auto|].
  injection Heq as -> ->. now right.
Qed.

Lemma collectLocal_root raw :
  localRoot raw <> "" -> In (localRoot raw) (Map_keys (reg_elements (collectLocal raw))).
Proof.
  unfold localRoot, collectLocal. simpl.
  destruct (raw_elements raw) as [|first rest] eqn:Hels; [congruence|]. intros _.
  apply (fold_left_registers _ el_name (fun _ => True)); auto.
  - intros m y k Hk. apply Map_set_keys_mono, Hk.
  - intros m y _. apply Map_set_has.
  - now left.
Qed.

Lemma Map_keys_get {V} (m : JsMap V) k : In k (Map_keys m) -> exists v, Map_get m k = Some v.
Proof.
  intros Hin. apply Map_has_keys in Hin. unfold Map_has in Hin.
  destruct (Map_get m k) as [v|]; [eauto|discriminate].
Qed.

Section EntryFile.
Variable path_resolve : option string -> string -> string.
Variable path_dirname : string -> string.
Variable fs : gmap string FileContent.

Lemma parseXsd_schema xsdPath baseDir raw :
  fs !! path_resolve (truthy baseDir) xsdPath = Some (SchemaDoc raw) ->
  exists acc,
    parseXsd path_resolve path_dirname fs xsdPath baseDir
    = Returned
        (mkSchemaModel (effectiveRoot (localRoot raw) (reg_elements acc))
           (reg_elements acc) (reg_complexTypes acc) (reg_simpleTypes acc)
           (raw_targetNamespace raw)) /\
    forall k, In k (Map_keys (reg_elements (collectLocal raw))) ->
              In k (Map_keys (reg_elements acc)).
Proof.
  intros Hfile. unfold parseXsd.
  destruct (parse_schema_returns path_resolve path_dirname fs (parseFuel fs ∅) xsdPath
              baseDir ∅ raw) as (acc & _ & Hm).
  - set_solver.
  - exact Hfile.
  - apply parse_completes. unfold parseFuel. lia.
  - exists acc. split; [exact Hm|].
    intros k Hk. apply Map_keys_get in Hk. destruct Hk as [v Hv].
    pose proof (parse_keeps_local path_resolve path_dirname fs reg_elements elements
                  ltac:(reflexivity) ltac:(intros ps a m; exists []; reflexivity)
                  ltac:(reflexivity)
                  (parseFuel fs ∅) xsdPath baseDir ∅ raw _ k v ltac:(set_solver) Hfile Hm Hv)
      as Hkept.
    simpl in Hkept. eapply Map_get_keys. exact Hkept.
Qed.
End EntryFile.

(** X16: the outcome of [parseXsd] is decided by the entry file alone.
    It throws the matching [XsdParseError] when the file cannot be read,
    cannot be tokenized, is a WSDL without embedded schema or has no schema
    root; when the file is a schema document it returns a model, whatever
    happens to the files it includes or imports (their failures are
    swallowed).  The model takes its target namespace from the entry file,
    and its root element is the entry file's first top-level element when
    that has a name. *)
Theorem parseXsd_outcome_follows_entry_file
    (path_resolve : option string -> string -> string) (path_dirname : string -> string)
    (fs : gmap string FileContent) (xsdPath : string) (baseDir : option string) :
  match fs !! path_resolve (truthy baseDir) xsdPath with
  | None =>
      parseXsd path_resolve path_dirname fs xsdPath baseDir
      = Thrown (cannotRead (path_resolve (truthy baseDir) xsdPath))
  | Some Malformed =>
      parseXsd path_resolve path_dirname fs xsdPath baseDir
      = Thrown (failedToParse (path_resolve (truthy baseDir) xsdPath))
  | Some WsdlWithoutSchema =>
      parseXsd path_resolve path_dirname fs xsdPath baseDir
      = Thrown (invalidWsdl (path_resolve (truthy baseDir) xsdPath))
  | Some NoSchemaRoot =>
      parseXsd path_resolve path_dirname fs xsdPath baseDir
      = Thrown (invalidXsd (path_resolve (truthy baseDir) xsdPath))
  | Some (SchemaDoc raw) =>
      exists m,
        parseXsd path_resolve path_dirname fs xsdPath baseDir = Returned m /\
        targetNamespace m = raw_targetNamespace raw /\
        (localRoot raw <> "" -> rootElement m = localRoot raw) /\
        (forall el, In el (raw_elements raw) -> In (el_name el) (Map_keys (elements m)))
  end.
Proof.
  destruct (fs !! path_resolve (truthy baseDir) xsdPath) as [[| | |raw]|] eqn:Hfile.
  1-3: unfold parseXsd, parseFuel; simpl;
       rewrite bool_decide_eq_false_2 by set_solver; rewrite Hfile; reflexivity.
  - destruct (parseXsd_schema path_resolve path_dirname fs xsdPath baseDir raw Hfile)
      as (acc & Hm & Hkeys).
    eexists. split; [exact Hm|]. split; [reflexivity|]. split.
    + simpl. unfold effectiveRoot. intros Hroot.
      destruct (localRoot raw) as [|c r]; [contradiction|reflexivity].
    + intros el Hel. simpl. apply Hkeys.
      unfold collectLocal. simpl.
      apply (fold_left_registers _ el_name (fun _ => True)); auto.
      * intros m y k Hk. apply Map_set_keys_mono, Hk.
      * intros m y _. apply Map_set_has.
  - unfold parseXsd, parseFuel; simpl.
    rewrite bool_decide_eq_false_2 by set_solver. rewrite Hfile. reflexivity.
Qed.

Lemma parseXsd_returned_shape
    (path_resolve : option string -> string -> string) (path_dirname : string -> string)
    (fs : gmap string FileContent) (xsdPath : string) (baseDir : option string)
    (m : SchemaModel) :
  parseXsd path_resolve path_dirname fs xsdPath baseDir = Returned m ->
  exists raw acc,
    m = mkSchemaModel (effectiveRoot (localRoot raw) (reg_elements acc))
          (reg_elements acc) (reg_complexTypes acc) (reg_simpleTypes acc)
          (raw_targetNamespace raw) /\
    forall k, In k (Map_keys (reg_elements (collectLocal raw))) ->
              In k (Map_keys (reg_elements acc)).
Proof.
  intros Hm.
  destruct (fs !! path_resolve (truthy baseDir) xsdPath) as [[| | |raw]|] eqn:Hfile.
  1-3,5: exfalso; revert Hm; unfold parseXsd, parseFuel; simpl;
         rewrite bool_decide_eq_false_2 by set_solver; rewrite Hfile; discriminate.
  destruct (parseXsd_schema path_resolve path_dirname fs xsdPath baseDir raw Hfile)
    as (acc & Hm' & Hkeys).
  exists raw, acc. split; [congruence|exact Hkeys].
Qed.

Lemma buildXml_error_below_root json w o rootEl err :
  lookupElement w (rootElement (schema w)) = Some rootEl ->
  buildXml json w o = Thrown err -> err_path err <> "$".
Proof.
  unfold buildXml. intros ->.
  destruct (buildElement w o _ rootEl _ _) as [built|e|] eqn:Hb; simpl; try discriminate.
  intros H. injection H as <-.
  destruct (buildElement_thrown_reaches w o (S (json_depth _)) _ _ _ _ _
              (Nat.lt_succ_diag_r _) Hb) as [_ [suffix Hs]].
  rewrite Hs. discriminate.
Qed.

Lemma parsed_root_known
    (path_resolve : option string -> string -> string) (path_dirname : string -> string)
    (fs : gmap string FileContent) (xsdPath : string) (baseDir : option string)
    (m : SchemaModel) :
  parseXsd path_resolve path_dirname fs xsdPath baseDir = Returned m ->
  (elements m = [] -> rootElement m = "") /\
  (elements m <> [] -> In (rootElement m) (Map_keys (elements m))).
Proof.
  intros Hm.
  pose proof (parseXsd_returned_shape path_resolve path_dirname fs xsdPath
                baseDir m Hm) as (raw & acc & -> & Hkeys).
  simpl. split.
  - intros Hnone. rewrite Hnone in *.
    destruct (decide (localRoot raw = "")) as [Heq|Hne]; [rewrite Heq; reflexivity|].
    destruct (Hkeys (localRoot raw) (collectLocal_root raw Hne)).
  - intros Hsome.
    unfold effectiveRoot. destruct (localRoot raw) as [|c r] eqn:Hroot; simpl.
    + destruct (reg_elements acc) as [|[k v] rest]; [contradiction|]. now left.
    + apply Hkeys. rewrite <- Hroot. apply collectLocal_root. rewrite Hroot. discriminate.
Qed.

(** X17: in a model [parseXsd] returns, the default root element is a
    registered element as soon as any element is registered, and is empty
    when none is.  So [buildXml] on a parsed model raises its root-not-found
    error (path [$]) exactly when the model registers no element; every
    other mapping error has a path below [$]. *)
Theorem parsed_root_is_registered
    (path_resolve : option string -> string -> string) (path_dirname : string -> string)
    (fs : gmap string FileContent) (xsdPath : string) (baseDir : option string)
    (m : SchemaModel) :
  parseXsd path_resolve path_dirname fs xsdPath baseDir = Returned m ->
  (elements m = [] ->
   rootElement m = "" /\
   forall json o,
     buildXml json (mkSchemaWalker m) o = Thrown (mkXsdMappingError "$" (rootNotFound ""))) /\
  (elements m <> [] ->
   In (rootElement m) (Map_keys (elements m)) /\
   forall json o err,
     buildXml json (mkSchemaWalker m) o = Thrown err -> err_path err <> "$").
Proof.
  intros Hm.
  destruct (parsed_root_known path_resolve path_dirname fs xsdPath baseDir m Hm)
    as [Hnone Hsome].
  split.
  - intros Hempty. specialize (Hnone Hempty). split; [exact Hnone|].
    intros json o. unfold buildXml, lookupElement. simpl. rewrite Hempty, Hnone. reflexivity.
  - intros Hne. specialize (Hsome Hne). split; [exact Hsome|].
    intros json o err. apply Map_keys_get in Hsome. destruct Hsome as [rootEl Hroot].
    apply (buildXml_error_below_root json (mkSchemaWalker m) o rootEl). exact Hroot.
Qed.

Lemma parsed_root_is_registered_witness :
  In "person" (Map_keys [("person", typedElement "person" "PersonType");
                         ("guest", typedElement "guest" "PersonType")]) /\
  buildXml [("a", JNull)]
    (mkSchemaWalker (mkSchemaModel "" [] [("PersonType", personType)] [] None))
    defaultOptions
  = Thrown (mkXsdMappingError "$" (rootNotFound "")).
Proof.
  split.
  - apply (proj2 (parsed_root_is_registered flatResolve flatDirname personFiles
                    "person.xsd" None
                    (mkSchemaModel "person"
                       [("person", typedElement "person" "PersonType");
                        ("guest", typedElement "guest" "PersonType")]
                       [("PersonType", personType)] [] None)
                    ltac:(vm_compute; reflexivity))).
    simpl. discriminate.
  - apply (proj1 (parsed_root_is_registered flatResolve flatDirname personFiles
                    "types.xsd" None
                    (mkSchemaModel "" [] [("PersonType", personType)] [] None)
                    ltac:(vm_compute; reflexivity))).
    reflexivity.
Defined.

(** X18: every registry of a returned model files its definitions under
    their own names.  A top-level element is found under exactly its name;
    a complex or simple type is found under its name, or under its name
    qualified by namespace prefixes (one per import it came through). *)
Theorem parsed_registries_are_keyed_by_name
    (path_resolve : option string -> string -> string) (path_dirname : string -> string)
    (fs : gmap string FileContent) (xsdPath : string) (baseDir : option string)
    (m : SchemaModel) :
  parseXsd path_resolve path_dirname fs xsdPath baseDir = Returned m ->
  (forall k el, Map_get (elements m) k = Some el -> el_name el = k) /\
  (forall k ct, Map_get (complexTypes m) k = Some ct ->
                qualifiedFrom (fun n => n = ct_name ct) k) /\
  (forall k st, Map_get (simpleTypes m) k = Some st ->
                qualifiedFrom (fun n => n = st_name st) k).
Proof.
  unfold parseXsd. intros Hm. split; [|split].
  - intros k el Hget. apply Map_get_In in Hget.
    refine (parse_entries path_resolve path_dirname fs reg_elements elements
              (fun k el => el_name el = k) _ _ _ _ _ _ _ _ _ m Hm k el Hget);
      try reflexivity.
    + intros ps acc m0. exists []. split; [reflexivity|]. intros pfx k0 v [].
    + intros raw k0 v. apply collectLocal_element_key.
  - intros k ct Hget. apply Map_get_In in Hget.
    refine (parse_entries path_resolve path_dirname fs reg_complexTypes complexTypes
              (fun k ct => qualifiedFrom (fun n => n = ct_name ct) k)
              _ _ _ _ _ _ _ _ _ m Hm k ct Hget);
      try reflexivity.
    + intros ps acc m0. exists ps. split; [reflexivity|].
      intros pfx k0 v _ Hq. apply qualified_prefix. exact Hq.
    + intros raw k0 v Hin. apply qualified_bare. symmetry.
      eapply collectLocal_complexType_key. exact Hin.
  - intros k st Hget. apply Map_get_In in Hget.
    refine (parse_entries path_resolve path_dirname fs reg_simpleTypes simpleTypes
              (fun k st => qualifiedFrom (fun n => n = st_name st) k)
              _ _ _ _ _ _ _ _ _ m Hm k st Hget);
      try reflexivity.
    + intros ps acc m0. exists ps. split; [reflexivity|].
      intros pfx k0 v _ Hq. apply qualified_prefix. exact Hq.
    + intros raw k0 v Hin. apply qualified_bare. symmetry.
      eapply collectLocal_simpleType_key. exact Hin.
Qed.

Lemma parsed_registries_are_keyed_by_name_witness :
  qualifiedFrom (fun n => n = ct_name (namedType "TypeB")) "b:TypeB".
Proof.
  destruct (parseXsd flatResolve flatDirname mixedFiles "mixed-a.xsd" None) as [m| |] eqn:Hm;
    [|vm_compute in Hm; discriminate Hm..].
  pose proof (proj1 (proj2 (parsed_registries_are_keyed_by_name flatResolve flatDirname
                              mixedFiles "mixed-a.xsd" None m Hm))) as Hct.
  apply (Hct "b:TypeB" (namedType "TypeB")).
  vm_compute in Hm. injection Hm as <-. reflexivity.
Defined.

(* ===================================================================== *)
(** ** Converter: root selection and the pipeline                         *)
(* ===================================================================== *)

Lemma selectRoot_fields m json override :
  elements (selectRoot m json override) = elements m /\
  complexTypes (selectRoot m json override) = complexTypes m /\
  simpleTypes (selectRoot m json override) = simpleTypes m /\
  targetNamespace (selectRoot m json override) = targetNamespace m.
Proof.
  unfold selectRoot.
  assert (forall x : SchemaModel,
             x = m \/ (exists r, x = withRoot m r) ->
             elements x = elements m /\ complexTypes x = complexTypes m /\
             simpleTypes x = simpleTypes m /\ targetNamespace x = targetNamespace m) as Hx.
  { intros x [->|[r ->]]; auto. }
  apply Hx.
  assert (match Object_keys json with
          | [key] =>
              if Map_has (elements m) key && negb (bool_decide (key = rootElement m))
              then withRoot m key else m
          | _ => m
          end = m \/
          exists r, match Object_keys json with
                    | [key] =>
                        if Map_has (elements m) key
                           && negb (bool_decide (key = rootElement m))
                        then withRoot m key else m
                    | _ => m
                    end = withRoot m r) as Hjson.
  { destruct (Object_keys json) as [|key [|]]; auto. destruct (_ && _); eauto. }
  destruct (truthy override) as [r|]; [|exact Hjson].
  destruct (Map_has (elements m) r); [|exact Hjson].
  destruct (negb _); eauto.
Qed.

Lemma selectRoot_registered m json override :
  rootElement (selectRoot m json override) = rootElement m \/
  In (rootElement (selectRoot m json override)) (Map_keys (elements m)).
Proof.
  unfold selectRoot.
  assert (rootElement
            match Object_keys json with
            | [key] =>
                if Map_has (elements m) key && negb (bool_decide (key = rootElement m))
                then withRoot m key else m
            | _ => m
            end = rootElement m \/
          In (rootElement
                match Object_keys json with
                | [key] =>
                    if Map_has (elements m) key && negb (bool_decide (key = rootElement m))
                    then withRoot m key else m
                | _ => m
                end) (Map_keys (elements m))) as Hjson.
  { destruct (Object_keys json) as [|key [|]]; auto.
    destruct (Map_has (elements m) key) eqn:Hhas; simpl; [|auto].
    destruct (negb _); [|auto]. right. simpl. apply Map_has_keys. exact Hhas. }
  destruct (truthy override) as [r|]; [|exact Hjson].
  destruct (Map_has (elements m) r) eqn:Hhas; [|exact Hjson].
  destruct (negb _); [|auto]. right. simpl. apply Map_has_keys. exact Hhas.
Qed.

(** X19: the effective root element.  An explicit [rootElement] option
    that names a registered element always wins; an option that is empty or
    names no registered element is silently ignored.  Then the single key of
    the JSON wins when it names a registered element; in every other case
    the schema's default root stays.  Nothing but the root name changes. *)
Theorem root_selection_priority
    (m : SchemaModel) (json : JsonObject) (override : option string) :
  (forall r, truthy override = Some r -> Map_has (elements m) r = true ->
             rootElement (selectRoot m json override) = r) /\
  ((forall r, truthy override = Some r -> Map_has (elements m) r = false) ->
   selectRoot m json override = selectRoot m json None) /\
  rootElement (selectRoot m json None)
  = match Object_keys json with
    | [key] => if Map_has (elements m) key then key else rootElement m
    | _ => rootElement m
    end /\
  elements (selectRoot m json override) = elements m /\
  complexTypes (selectRoot m json override) = complexTypes m /\
  simpleTypes (selectRoot m json override) = simpleTypes m /\
  targetNamespace (selectRoot m json override) = targetNamespace m.
Proof.
  split; [|split; [|split; [|apply selectRoot_fields]]].
  - intros r Hr Hhas. unfold selectRoot. rewrite Hr, Hhas.
    case_bool_decide as Heq; simpl; [symmetry; exact Heq|reflexivity].
  - intros Hunknown. unfold selectRoot.
    destruct (truthy override) as [r|]; [|reflexivity].
    rewrite (Hunknown r eq_refl). reflexivity.
  - unfold selectRoot. simpl. destruct (Object_keys json) as [|key [|]]; try reflexivity.
    destruct (Map_has (elements m) key); simpl; [|reflexivity].
    case_bool_decide as Heq; simpl; [symmetry; exact Heq|reflexivity].
Qed.

Lemma root_selection_priority_witness :
  rootElement
    (selectRoot (schema employeeWalker) [("person", JNull)] (Some "employee"))
  = "employee" /\
  selectRoot (schema employeeWalker) [("person", JNull)] (Some "nobody")
  = selectRoot (schema employeeWalker) [("person", JNull)] None.
Proof.
  pose proof (root_selection_priority (schema employeeWalker) [("person", JNull)]
                (Some "employee")) as (Hknown & _).
  pose proof (root_selection_priority (schema employeeWalker) [("person", JNull)]
                (Some "nobody")) as (_ & Hunknown & _).
  split.
  - apply (Hknown "employee"); reflexivity.
  - apply Hunknown. intros r Hr. injection Hr as <-. reflexivity.
Defined.

Lemma buildXml_completes json w o : buildXml json w o <> OutOfFuel.
Proof.
  unfold buildXml. destruct (lookupElement w _) as [rootEl|]; [|discriminate].
  match goal with
  | |- context [buildElement w o ?n ?e ?v ?p] =>
      pose proof (buildElement_completes w o n e v p); destruct (buildElement w o n e v p)
  end; simpl; congruence.
Qed.

Lemma validateJson_completes json w prefix textKey :
  validateJson json w prefix textKey <> OutOfFuel.
Proof.
  unfold validateJson. destruct (lookupElement w _) as [rootEl|]; [|discriminate].
  rewrite validateElement_spec. destruct (0 <? _)%nat; discriminate.
Qed.

Lemma parseXsd_completes path_resolve path_dirname fs xsdPath baseDir :
  parseXsd path_resolve path_dirname fs xsdPath baseDir <> OutOfFuel.
Proof. unfold parseXsd. apply parse_completes. unfold parseFuel. lia. Qed.


Section Pipeline.
Variable path_resolve : option string -> string -> string.
Variable path_dirname : string -> string.
Variable fs : gmap string FileContent.

#[local] Abbreviation convert := (convertJsonToXml path_resolve path_dirname fs).

Lemma convert_lenient json xsdPath options rawModel :
  default false (co_strict options) = false ->
  parseXsd path_resolve path_dirname fs xsdPath (co_xsdBaseDir options) = Returned rawModel ->
  convert json xsdPath options
  = mapThrown MappingFailed
      (buildXml json
         (mkSchemaWalker (selectRoot rawModel json (co_rootElement options)))
         (mkBuildOptions (default false (co_prettyPrint options))
            (default true (co_xmlDeclaration options))
            (default "UTF-8" (co_encoding options))
            (default "@" (co_attributePrefix options))
            (default "#text" (co_textNodeKey options))
            (targetNamespace (selectRoot rawModel json (co_rootElement options))))).
Proof. intros Hstrict Hparse. unfold convertJsonToXml. rewrite Hparse, Hstrict. reflexivity. Qed.

Lemma convert_strict json xsdPath options rawModel :
  default false (co_strict options) = true ->
  parseXsd path_resolve path_dirname fs xsdPath (co_xsdBaseDir options) = Returned rawModel ->
  convert json xsdPath options
  = match
      validateJson json
        (mkSchemaWalker (selectRoot rawModel json (co_rootElement options)))
        (default "@" (co_attributePrefix options))
        (default "#text" (co_textNodeKey options))
    with
    | Thrown e => Thrown (ValidationFailed e)
    | _ => convert json xsdPath (withStrict options false)
    end.
Proof.
  intros Hstrict Hparse.
  rewrite (convert_lenient json xsdPath (withStrict options false) rawModel eq_refl Hparse).
  unfold convertJsonToXml. rewrite Hparse, Hstrict. simpl.
  pose proof (validateJson_completes json
                (mkSchemaWalker (selectRoot rawModel json (co_rootElement options)))
                (default "@" (co_attributePrefix options))
                (default "#text" (co_textNodeKey options))) as Hv.
  destruct (validateJson _ _ _ _) as [[]|e|]; simpl; [reflexivity|reflexivity|congruence].
Qed.
End Pipeline.

(** X20: the conversion throws a parse error exactly when [parseXsd]
    does.  A validation error is thrown only in strict mode, and strict mode
    only adds that: whenever the strict conversion returns a document or
    throws another error, the conversion without validation gives the same
    outcome.  Leaving [strict] out is the same as setting it to false.
    When every name of the parsed schema is a plain name and every key of
    the JSON is passable, so that xmlbuilder2 refuses no name, the
    conversion (up to the final rendering, which is xmlbuilder2's) always
    ends by returning the document or throwing one of its three errors. *)
Theorem conversion_runs_parse_validate_build
    (path_resolve : option string -> string -> string) (path_dirname : string -> string)
    (fs : gmap string FileContent) (json : JsonObject) (xsdPath : string)
    (options : ConverterOptions) :
  ((forall rawModel,
       parseXsd path_resolve path_dirname fs xsdPath (co_xsdBaseDir options)
       = Returned rawModel ->
       allNamesOfSchema isPlainName isPlainName (mkSchemaWalker rawModel) = true) ->
   passableJson (default "@" (co_attributePrefix options))
     (default "#text" (co_textNodeKey options)) (JObject json) = true ->
   convertJsonToXml path_resolve path_dirname fs json xsdPath options <> OutOfFuel) /\
  (forall e,
      convertJsonToXml path_resolve path_dirname fs json xsdPath options
      = Thrown (ParseFailed e) <->
      parseXsd path_resolve path_dirname fs xsdPath (co_xsdBaseDir options) = Thrown e) /\
  (forall e,
      convertJsonToXml path_resolve path_dirname fs json xsdPath options
      = Thrown (ValidationFailed e) ->
      co_strict options = Some true) /\
  (forall outcome,
      convertJsonToXml path_resolve path_dirname fs json xsdPath (withStrict options true)
      = outcome ->
      (forall e, outcome <> Thrown (ValidationFailed e)) ->
      convertJsonToXml path_resolve path_dirname fs json xsdPath (withStrict options false)
      = outcome) /\
  (co_strict options = None ->
   convertJsonToXml path_resolve path_dirname fs json xsdPath options
   = convertJsonToXml path_resolve path_dirname fs json xsdPath (withStrict options false)).
Proof.
  pose proof (parseXsd_completes path_resolve path_dirname fs xsdPath (co_xsdBaseDir options))
    as Hparse.
  split; [|split; [|split; [|split]]].
  - intros _ _.
    destruct (parseXsd path_resolve path_dirname fs xsdPath (co_xsdBaseDir options))
      as [rawModel|e|] eqn:Hp; [| |congruence].
    + destruct (default false (co_strict options)) eqn:Hs.
      * rewrite (convert_strict _ _ _ json xsdPath options rawModel Hs Hp).
        destruct (validateJson _ _ _ _); try discriminate;
          rewrite (convert_lenient _ _ _ json xsdPath (withStrict options false) rawModel
                     eq_refl Hp);
          match goal with
          | |- context [buildXml ?j ?w ?o] =>
              pose proof (buildXml_completes j w o); destruct (buildXml j w o)
          end; simpl; congruence.
      * rewrite (convert_lenient _ _ _ json xsdPath options rawModel Hs Hp).
        match goal with
        | |- context [buildXml ?j ?w ?o] =>
            pose proof (buildXml_completes j w o); destruct (buildXml j w o)
        end; simpl; congruence.
    + unfold convertJsonToXml. rewrite Hp. discriminate.
  - intros e.
    destruct (parseXsd path_resolve path_dirname fs xsdPath (co_xsdBaseDir options))
      as [rawModel|e'|] eqn:Hp; [| |congruence].
    + split; [|discriminate]. unfold convertJsonToXml. rewrite Hp. simpl.
      destruct (default false (co_strict options)); simpl;
        [destruct (validateJson _ _ _ _) as [[]|?|]; simpl; try discriminate|];
        destruct (buildXml _ _ _); discriminate.
    + unfold convertJsonToXml. rewrite Hp. simpl. split; congruence.
  - intros e. unfold convertJsonToXml.
    destruct (parseXsd path_resolve path_dirname fs xsdPath (co_xsdBaseDir options))
      as [rawModel|e'|]; simpl; try discriminate.
    destruct (co_strict options) as [[|]|]; simpl; [reflexivity| |];
      destruct (buildXml _ _ _); discriminate.
  - intros outcome Hout Hnot.
    destruct (parseXsd path_resolve path_dirname fs xsdPath (co_xsdBaseDir options))
      as [rawModel|e'|] eqn:Hp; [| |congruence].
    + rewrite (convert_strict _ _ _ json xsdPath (withStrict options true) rawModel
                 eq_refl Hp) in Hout.
      simpl in Hout.
      destruct (validateJson _ _ _ _) as [[]|e|]; try exact Hout.
      exfalso. apply (Hnot e). symmetry. exact Hout.
    + rewrite <- Hout. unfold convertJsonToXml. simpl. rewrite Hp. reflexivity.
  - intros Hnone. unfold convertJsonToXml. simpl. rewrite Hnone. reflexivity.
Qed.

Lemma conversion_runs_parse_validate_build_witness :
  convertJsonToXml flatResolve flatDirname personFiles
    [("@id", JString "7"); ("name", JString "Ann")] "person.xsd" (withStrict noOptions false)
  = Returned (XElem "person" [("id", "7")] [XElem "name" [] [XText "Ann"]]) /\
  convertJsonToXml flatResolve flatDirname personFiles
    [("@id", JString "7"); ("name", JString "Ann")] "person.xsd" noOptions
  <> OutOfFuel.
Proof.
  split.
  - apply (proj1 (proj2 (proj2 (proj2
             (conversion_runs_parse_validate_build flatResolve flatDirname personFiles
                [("@id", JString "7"); ("name", JString "Ann")] "person.xsd" noOptions))))
             (Returned (XElem "person" [("id", "7")] [XElem "name" [] [XText "Ann"]]))).
    + vm_compute. reflexivity.
    + intros e. discriminate.
  - apply (proj1 (conversion_runs_parse_validate_build flatResolve flatDirname personFiles
                    [("@id", JString "7"); ("name", JString "Ann")] "person.xsd" noOptions)).
    + intros rawModel H. vm_compute in H. injection H as <-. reflexivity.
    + reflexivity.
Defined.

(** X21: the root of a converted document is a registered element: the
    one chosen by the root selection, named as the schema names it.  The
    mapping error for a missing root (path [$]) is thrown only when the
    parsed model registers no element at all, whatever root was asked
    for. *)
Theorem converted_document_root
    (path_resolve : option string -> string -> string) (path_dirname : string -> string)
    (fs : gmap string FileContent) (json : JsonObject) (xsdPath : string)
    (options : ConverterOptions) :
  (forall doc,
      convertJsonToXml path_resolve path_dirname fs json xsdPath options = Returned doc ->
      exists rawModel atts content,
        parseXsd path_resolve path_dirname fs xsdPath (co_xsdBaseDir options)
        = Returned rawModel /\
        doc = XElem (rootElement (selectRoot rawModel json (co_rootElement options)))
                atts content /\
        In (rootElement (selectRoot rawModel json (co_rootElement options)))
           (Map_keys (elements rawModel))) /\
  (forall e,
      convertJsonToXml path_resolve path_dirname fs json xsdPath options
      = Thrown (MappingFailed e) ->
      err_path e = "$" ->
      exists rawModel,
        parseXsd path_resolve path_dirname fs xsdPath (co_xsdBaseDir options)
        = Returned rawModel /\
        elements rawModel = []).
Proof.
  split.
  - intros doc Hdoc. unfold convertJsonToXml in Hdoc.
    destruct (parseXsd path_resolve path_dirname fs xsdPath (co_xsdBaseDir options))
      as [rawModel|e'|] eqn:Hp; simpl in Hdoc; try discriminate.
    assert (exists o,
               buildXml json
                 (mkSchemaWalker (selectRoot rawModel json (co_rootElement options))) o
               = Returned doc) as [o Hb].
    { destruct (default false (co_strict options)); simpl in Hdoc;
        [destruct (validateJson _ _ _ _) as [[]|?|]; simpl in Hdoc; try discriminate|];
        (destruct (buildXml _ _ _) eqn:Hb; simpl in Hdoc; try discriminate;
         injection Hdoc as <-; eauto). }
    exists rawModel. unfold buildXml in Hb. simpl in Hb.
    destruct (lookupElement _ _) as [rootEl|] eqn:Hroot; [|discriminate].
    destruct (buildElement _ _ _ _ _ _) as [built|?|]; simpl in Hb; try discriminate.
    injection Hb as <-. eexists _, _. split; [reflexivity|]. split; [reflexivity|].
    unfold lookupElement in Hroot. simpl in Hroot.
    rewrite (proj1 (selectRoot_fields rawModel json (co_rootElement options))) in Hroot.
    eapply Map_get_keys. exact Hroot.
  - intros e He Hpath. unfold convertJsonToXml in He.
    destruct (parseXsd path_resolve path_dirname fs xsdPath (co_xsdBaseDir options))
      as [rawModel|e'|] eqn:Hp; simpl in He; try discriminate.
    exists rawModel. split; [reflexivity|].
    assert (exists o,
               buildXml json
                 (mkSchemaWalker (selectRoot rawModel json (co_rootElement options))) o
               = Thrown e) as [o Hb].
    { destruct (default false (co_strict options)); simpl in He;
        [destruct (validateJson _ _ _ _) as [[]|?|]; simpl in He; try discriminate|];
        (destruct (buildXml _ _ _) eqn:Hb; simpl in He; try discriminate;
         injection He as <-; eauto). }
    destruct (parsed_root_known path_resolve path_dirname fs xsdPath _ rawModel Hp)
      as [_ Hknown].
    destruct (elements rawModel) as [|kv rest] eqn:Hels; [reflexivity|exfalso].
    assert (In (rootElement (selectRoot rawModel json (co_rootElement options)))
               (Map_keys (elements rawModel))) as Hin.
    { destruct (selectRoot_registered rawModel json (co_rootElement options)) as [->|Hin];
        [|exact Hin].
      rewrite Hels. apply Hknown. discriminate. }
    rewrite <- (proj1 (selectRoot_fields rawModel json (co_rootElement options))) in Hin.
    apply Map_keys_get in Hin. destruct Hin as [rootEl Hroot].
    exact (buildXml_error_below_root json
             (mkSchemaWalker (selectRoot rawModel json (co_rootElement options)))
             o rootEl e Hroot Hb Hpath).
Qed.

Lemma converted_document_root_witness :
  exists rawModel,
    parseXsd flatResolve flatDirname personFiles "types.xsd" None = Returned rawModel /\
    elements rawModel = [].
Proof.
  apply (proj2 (converted_document_root flatResolve flatDirname personFiles
                  [("name", JString "Ann")] "types.xsd" noOptions)
           (mkXsdMappingError "$" (rootNotFound ""))).
  - vm_compute. reflexivity.
  - reflexivity.
Defined.

(* ===================================================================== *)
(** ** Occurrence bounds                                                  *)
(* ===================================================================== *)

Lemma pretty_N_char_digit (d : N) :
  (d < 10)%N ->
  isDigitChar (pretty_N_char d) = true /\ digitOf (pretty_N_char d) = Z.of_N d.
Proof.
  intros Hd.
  assert (d = 0 \/ d = 1 \/ d = 2 \/ d = 3 \/ d = 4 \/ d = 5 \/ d = 6 \/ d = 7 \/ d = 8
          \/ d = 9)%N as Hcases by lia.
  repeat (destruct Hcases as [->|Hcases]; [split; reflexivity|]).
  subst d. split; reflexivity.
Qed.

(** Reading back the digits [pretty] wrote in front of [s]. *)
Lemma digitsValue_pretty_N_go (x : N) :
  exists k : Z,
    (0 <= k)%Z /\
    forall s acc,
      digitsValue (pretty_N_go x s) acc = digitsValue s (acc * 10 ^ k + Z.of_N x)%Z.
Proof.
  induction (N.lt_wf_0 x) as [x _ IH].
  destruct (decide (x = 0)%N) as [->|Hx].
  - exists 0%Z. split; [lia|]. intros s acc. rewrite pretty_N_go_0. f_equal. lia.
  - destruct (IH (x `div` 10)%N) as (k & Hk & Hread); [apply N.div_lt; lia|].
    exists (k + 1)%Z. split; [lia|]. intros s acc.
    rewrite pretty_N_go_step by lia. rewrite Hread. simpl.
    destruct (pretty_N_char_digit (x `mod` 10)%N) as [-> ->]; [apply N.mod_lt; lia|].
    f_equal. rewrite Z.pow_add_r by lia.
    pose proof (N.div_mod x 10 ltac:(lia)) as Hdm.
    assert (Z.of_N x = 10 * Z.of_N (x `div` 10) + Z.of_N (x `mod` 10))%Z as -> by lia.
    lia.
Qed.

Lemma pretty_N_go_starts_with_digit (x : N) s :
  (0 < x)%N -> startsWithDigit (pretty_N_go x s) = true.
Proof.
  revert s. induction (N.lt_wf_0 x) as [x _ IH]. intros s Hx.
  rewrite pretty_N_go_step by exact Hx.
  destruct (decide (x `div` 10 = 0)%N) as [Hz|Hz].
  - rewrite Hz, pretty_N_go_0. simpl.
    apply pretty_N_char_digit, N.mod_lt. lia.
  - apply (IH (x `div` 10)%N); [apply N.div_lt; lia|apply N.neq_0_lt_0; exact Hz].
Qed.

Lemma startsWithDigit_app s rest :
  startsWithDigit s = true -> startsWithDigit (s +:+ rest) = true.
Proof. destruct s; [discriminate|]. simpl. auto. Qed.

Lemma digitsValue_app s rest acc :
  startsWithDigit rest = false ->
  digitsValue (s +:+ rest) acc = digitsValue (s +:+ "") acc.
Proof.
  revert acc. induction s as [|c s IH]; intros acc Hrest; simpl.
  - destruct rest as [|c r]; [reflexivity|]. simpl in *. rewrite Hrest. reflexivity.
  - destruct (isDigitChar c); [apply IH; exact Hrest|reflexivity].
Qed.

Lemma trimStart_digit s : startsWithDigit s = true -> trimStart s = s.
Proof.
  destruct s as [|c r]; [reflexivity|]. simpl. intros Hc.
  assert (isWhiteSpaceChar c = false) as ->; [|reflexivity].
  unfold isDigitChar in Hc. unfold isWhiteSpaceChar.
  apply andb_true_iff in Hc. destruct Hc as [H1 H2].
  apply Nat.leb_le in H1. apply Nat.leb_le in H2.
  apply orb_false_iff. split.
  - apply andb_false_iff. right. apply Nat.leb_gt. lia.
  - apply Nat.eqb_neq. lia.
Qed.

Lemma parseInt10_digits s :
  startsWithDigit s = true -> parseInt10 s = Some (digitsValue s 0).
Proof.
  intros Hs. unfold parseInt10. rewrite (trimStart_digit s Hs).
  destruct s as [|c r]; [discriminate|]. simpl in Hs.
  assert (Ascii.eqb c "-" = false /\ Ascii.eqb c "+" = false) as [-> ->].
  { split; apply Ascii.eqb_neq; intros ->; discriminate. }
  cbn [fst snd startsWithDigit]. rewrite Hs. f_equal. lia.
Qed.

Lemma parseInt10_negative s :
  startsWithDigit s = true -> parseInt10 ("-" +:+ s) = Some (- digitsValue s 0)%Z.
Proof.
  intros Hs. unfold parseInt10.
  change (trimStart ("-" +:+ s)) with (String "-" s).
  cbn -[startsWithDigit digitsValue Z.mul]. rewrite Hs. f_equal.
Qed.

Lemma pretty_pos_read (p : positive) rest :
  startsWithDigit rest = false ->
  startsWithDigit (pretty p +:+ rest) = true /\
  digitsValue (pretty p +:+ rest) 0 = Z.pos p.
Proof.
  intros Hrest. unfold pretty, pretty_positive, pretty, pretty_N.
  rewrite decide_False by discriminate.
  split.
  - apply startsWithDigit_app, pretty_N_go_starts_with_digit. lia.
  - rewrite digitsValue_app by exact Hrest. rewrite string_app_empty.
    destruct (digitsValue_pretty_N_go (N.pos p)) as (k & _ & Hread).
    rewrite Hread. reflexivity.
Qed.

Lemma parseInt10_pretty (z : Z) rest :
  startsWithDigit rest = false -> parseInt10 (pretty z +:+ rest) = Some z.
Proof.
  intros Hrest. destruct z as [|p|p].
  - change (pretty 0%Z) with "0".
    rewrite parseInt10_digits by reflexivity. simpl.
    destruct rest as [|c r]; [reflexivity|]. simpl in *. rewrite Hrest. reflexivity.
  - change (pretty (Z.pos p)) with (pretty p).
    destruct (pretty_pos_read p rest Hrest) as [Hd Hv].
    rewrite parseInt10_digits by exact Hd. rewrite Hv. reflexivity.
  - change (pretty (Z.neg p)) with ("-" +:+ pretty p).
    destruct (pretty_pos_read p rest Hrest) as [Hd Hv].
    rewrite string_app_assoc, parseInt10_negative by exact Hd. rewrite Hv. reflexivity.
Qed.

Lemma pretty_Z_not_unbounded (z : Z) rest : pretty z +:+ rest <> "unbounded".
Proof.
  destruct z as [|p|p]; unfold pretty, pretty_Z; try discriminate.
  - intros Heq.
    pose proof (pretty_N_go_starts_with_digit (N.pos p) "" ltac:(lia)) as Hd.
    unfold pretty, pretty_positive, pretty, pretty_N in Heq.
    rewrite decide_False in Heq by discriminate.
    apply (startsWithDigit_app _ rest) in Hd. rewrite Heq in Hd. discriminate.
Qed.

(** X22: [parseOccurs] reads [unbounded] (spelled exactly so) as
    unbounded and an absent attribute as 1.  It reads back every integer
    from its decimal rendering (in JavaScript, below 2^53), ignoring
    whatever follows the digits, so [2abc] is 2 and [1.5] is 1.  ASCII text
    that starts with neither a digit, a sign nor white space, such as
    [Unbounded], and the empty text count as 1.  So an element is repeatable
    ([isArray]) exactly when [maxOccurs] is [unbounded] or, for ASCII text,
    reads as a number above 1. *)
Theorem parseOccurs_reads_decimal_or_defaults :
  parseOccurs None = occursN 1 /\
  parseOccurs (Some "unbounded") = unbounded /\
  (forall (z : Z) (rest : string),
      (Z.abs z < 2 ^ 53)%Z -> startsWithDigit rest = false ->
      parseOccurs (Some (pretty z +:+ rest)) = occursN z) /\
  parseOccurs (Some "") = occursN 1 /\
  (forall c r,
      isAsciiChar c = true ->
      isDigitChar c = false -> isWhiteSpaceChar c = false ->
      Ascii.eqb c "-" = false -> Ascii.eqb c "+" = false ->
      String c r <> "unbounded" ->
      parseOccurs (Some (String c r)) = occursN 1) /\
  (forall v,
      (forall s, v = Some s -> isAsciiText s = true) ->
      isUnboundedOrMany (parseOccurs v) = true <->
      v = Some "unbounded" \/
      exists s n, v = Some s /\ s <> "unbounded" /\ parseInt10 s = Some n /\ (1 < n)%Z).
Proof.
  split; [reflexivity|]. split; [reflexivity|]. split; [|split; [reflexivity|split]].
  - intros z rest _ Hrest. unfold parseOccurs.
    rewrite bool_decide_eq_false_2 by apply pretty_Z_not_unbounded.
    rewrite parseInt10_pretty by exact Hrest. reflexivity.
  - intros c r _ Hdigit Hspace Hminus Hplus Hne. unfold parseOccurs.
    rewrite bool_decide_eq_false_2 by exact Hne.
    unfold parseInt10. cbn [trimStart]. rewrite Hspace, Hminus, Hplus.
    cbn [fst snd startsWithDigit]. rewrite Hdigit. reflexivity.
  - intros v _. unfold parseOccurs. destruct v as [s|].
    + case_bool_decide as Hs.
      * subst s. split; [auto|reflexivity].
      * destruct (parseInt10 s) as [n|] eqn:Hn; simpl.
        -- rewrite Z.ltb_lt. split.
           ++ intros Hlt. right. exists s, n. auto.
           ++ intros [Heq|(s' & n' & Heq & _ & Hn' & Hlt)]; [congruence|].
              injection Heq as <-. congruence.
        -- split; [discriminate|].
           intros [Heq|(s' & n' & Heq & _ & Hn' & _)]; [congruence|].
           injection Heq as <-. congruence.
    + simpl. split; [discriminate|].
      intros [Heq|(s' & n' & Heq & _)]; discriminate.
Qed.

Lemma parseOccurs_reads_decimal_or_defaults_witness :
  parseOccurs (Some (pretty 12%Z +:+ " items")) = occursN 12 /\
  parseOccurs (Some "Unbounded") = occursN 1.
Proof.
  destruct parseOccurs_reads_decimal_or_defaults as (_ & _ & Hread & _ & Hother & _).
  split.
  - apply Hread; [vm_compute; reflexivity|reflexivity].
  - apply Hother; try reflexivity. discriminate.
Defined.

(* ===================================================================== *)
(** ** Case-insensitive lookup                                            *)
(* ===================================================================== *)

Lemma js_get_defined obj key :
  Forall (fun kv => snd kv <> JUndefined) obj ->
  In key (Object_keys obj) -> js_get obj key <> JUndefined.
Proof.
  induction 1 as [|[k v] r Hv Hr IH]; simpl; [tauto|].
  intros Hin. case_bool_decide as Hk; [exact Hv|].
  apply IH. destruct Hin as [Hin|Hin]; [contradiction|exact Hin].
Qed.

Lemma lookupCI_scan_found obj lower keys :
  lookupCI_scan obj lower keys <> JUndefined ->
  exists key, In key keys /\ toLowerCase key = lower /\
              lookupCI_scan obj lower keys = js_get obj key.
Proof.
  induction keys as [|k r IH]; simpl; [congruence|].
  case_bool_decide as Hk; [eauto|].
  intros H. destruct (IH H) as (key & Hin & Hl & Heq). eauto.
Qed.

Lemma lookupCI_scan_finds obj lower keys key :
  (forall k, In k keys -> js_get obj k <> JUndefined) ->
  In key keys -> toLowerCase key = lower ->
  lookupCI_scan obj lower keys <> JUndefined.
Proof.
  intros Hdef. induction keys as [|k r IH]; simpl; [tauto|].
  intros Hin Hl. case_bool_decide as Hk; [apply Hdef; now left|].
  apply IH.
  - intros k' Hk'. apply Hdef. now right.
  - destruct Hin as [->|Hin]; [contradiction|exact Hin].
  - exact Hl.
Qed.

(** X23: on ASCII text (the name looked up and the keys of the object),
    [lookupCI] finds a value exactly when some key of the object equals the
    name ignoring case.  A key spelled exactly as the name has priority
    over any other spelling; without one a key equal ignoring case is
    taken, the same for every spelling of the name, so two names equal
    ignoring case find the same value.  [lowerSet] of ASCII names holds the
    lowering of an ASCII key exactly when a listed name equals the key
    ignoring case: every spelling of a declared child is kept out of the
    wildcard pass-through. *)
Theorem lookupCI_matches_keys_ignoring_case (obj : JsonObject) (name : string) :
  isAsciiText name = true ->
  forallb isAsciiText (Object_keys obj) = true ->
  (hasOwnProperty obj name = true -> lookupCI obj name = js_get obj name) /\
  (forall other,
      toLowerCase other = toLowerCase name ->
      hasOwnProperty obj name = false -> hasOwnProperty obj other = false ->
      lookupCI obj other = lookupCI obj name) /\
  (lookupCI obj name <> JUndefined ->
   exists key, In key (Object_keys obj) /\ toLowerCase key = toLowerCase name /\
               lookupCI obj name = js_get obj key) /\
  (Forall (fun kv => snd kv <> JUndefined) obj ->
   forall key, In key (Object_keys obj) -> toLowerCase key = toLowerCase name ->
               lookupCI obj name <> JUndefined) /\
  (forall names key,
      forallb isAsciiText names = true -> isAsciiText key = true ->
      (toLowerCase key ∈ lowerSet names <->
       exists n, In n names /\ toLowerCase n = toLowerCase key)).
Proof.
  intros _ _.
  split; [|split; [|split; [|split]]].
  - intros Hown. unfold lookupCI. rewrite Hown. reflexivity.
  - intros other Hl Hn Ho. unfold lookupCI. rewrite Hn, Ho, Hl. reflexivity.
  - unfold lookupCI. destruct (hasOwnProperty obj name) eqn:Hown.
    + intros Hdef. exists name. split; [|auto].
      destruct (in_dec string_dec name (Object_keys obj)) as [Hin|Hout]; [exact Hin|].
      exfalso. clear Hdef. induction obj as [|[k v] r IH]; simpl in *; [discriminate|].
      case_bool_decide as Hk; [apply Hout; now left|].
      simpl in Hown. apply IH; [exact Hown|]. intros Hin. apply Hout. now right.
    + apply lookupCI_scan_found.
  - intros Hdef key Hin Hl. unfold lookupCI.
    destruct (hasOwnProperty obj name) eqn:Hown.
    + apply js_get_defined; [exact Hdef|].
      clear -Hown. induction obj as [|[k v] r IH]; simpl in *; [discriminate|].
      case_bool_decide as Hk; [now left|right; apply IH; exact Hown].
    + apply (lookupCI_scan_finds obj _ _ key); auto.
      intros k Hk. apply js_get_defined; assumption.
  - intros names key _ _. unfold lowerSet.
    rewrite elem_of_list_to_set, list_elem_of_In, in_map_iff.
    split; intros (n & H1 & H2); eauto.
Qed.

Lemma lookupCI_matches_keys_ignoring_case_witness :
  lookupCI [("Name", JNumber "1"); ("name", JNumber "2")] "name" = JNumber "2" /\
  lookupCI [("Name", JNumber "1"); ("name", JNumber "2")] "NAME"
  = lookupCI [("Name", JNumber "1"); ("name", JNumber "2")] "nAME".
Proof.
  split.
  - apply (proj1 (lookupCI_matches_keys_ignoring_case
                    [("Name", JNumber "1"); ("name", JNumber "2")] "name"
                    eq_refl eq_refl)).
    reflexivity.
  - apply (proj1 (proj2 (lookupCI_matches_keys_ignoring_case
                           [("Name", JNumber "1"); ("name", JNumber "2")] "nAME"
                           eq_refl eq_refl)));
      reflexivity.
Defined.

(* ===================================================================== *)
(** ** Include/import resolution: local declarations                      *)
(* ===================================================================== *)

Lemma find_snoc {A} (p : A -> bool) (l : list A) (x : A) :
  find p (l ++ [x])
  = match find p l with
    | Some y => Some y
    | None => if p x then Some x else None
    end.
Proof.
  induction l as [|y r IH]; simpl; [reflexivity|].
  destruct (p y); [reflexivity|exact IH].
Qed.

(** A loop of [Map.set] calls binds each name to its last declaration; a
    declaration with an empty name is skipped when [skipUnnamed] is set. *)
Lemma collect_last_wins {V} (nameOf : V -> string) (skipUnnamed : bool) (l : list V)
    (init : JsMap V) (k : string) :
  (skipUnnamed = true -> k <> "") ->
  Map_get
    (fold_left
       (fun acc x =>
          if skipUnnamed && bool_decide (nameOf x = "") then acc
          else Map_set acc (nameOf x) x)
       l init) k
  = match find (fun x => bool_decide (nameOf x = k)) (rev l) with
    | Some x => Some x
    | None => Map_get init k
    end.
Proof.
  intros Hk. revert init. induction l as [|x r IH]; intros init; simpl; [reflexivity|].
  rewrite IH, find_snoc.
  destruct (find _ (rev r)); [reflexivity|].
  destruct (decide (nameOf x = k)) as [Hx|Hx].
  - rewrite (bool_decide_eq_true_2 _ Hx).
    assert (skipUnnamed && bool_decide (nameOf x = "") = false) as Hkeep.
    { destruct skipUnnamed; [|reflexivity]. simpl.
      apply bool_decide_eq_false_2. rewrite Hx. auto. }
    rewrite Hkeep, <- Hx. apply Map_get_set_eq.
  - rewrite (bool_decide_eq_false_2 _ Hx).
    destruct (skipUnnamed && bool_decide (nameOf x = "")); [reflexivity|].
    apply Map_get_set_ne. exact Hx.
Qed.

Lemma collectLocal_last_wins raw :
  (forall k,
      Map_get (reg_elements (collectLocal raw)) k
      = find (fun x => bool_decide (el_name x = k)) (rev (raw_elements raw))) /\
  (forall k, k <> "" ->
             Map_get (reg_complexTypes (collectLocal raw)) k
             = find (fun x => bool_decide (ct_name x = k)) (rev (raw_complexTypes raw))) /\
  (forall k, k <> "" ->
             Map_get (reg_simpleTypes (collectLocal raw)) k
             = find (fun x => bool_decide (st_name x = k)) (rev (raw_simpleTypes raw))).
Proof.
  unfold collectLocal. simpl. split; [|split].
  - intros k.
    pose proof (collect_last_wins el_name false (raw_elements raw) [] k
                  ltac:(discriminate)) as H.
    simpl in H. rewrite H. destruct (find _ _); reflexivity.
  - intros k Hk.
    pose proof (collect_last_wins ct_name true (raw_complexTypes raw) [] k (fun _ => Hk))
      as H.
    simpl in H. rewrite H. destruct (find _ _); reflexivity.
  - intros k Hk.
    pose proof (collect_last_wins st_name true (raw_simpleTypes raw) [] k (fun _ => Hk))
      as H.
    simpl in H. rewrite H. destruct (find _ _); reflexivity.
Qed.

(** X24: inside one schema file the last declaration of a name wins, while
    across files the first writer wins.  The model [parseXsd] returns binds
    every name the entry file declares to the last declaration the file
    makes of it (for elements; for named complex and simple types), whatever
    the included and imported files declare; a type declared without a name
    is not registered. *)
Theorem local_declarations_last_one_wins
    (path_resolve : option string -> string -> string) (path_dirname : string -> string)
    (fs : gmap string FileContent) (xsdPath : string) (baseDir : option string)
    (raw : RawSchema) (m : SchemaModel) :
  fs !! path_resolve (truthy baseDir) xsdPath = Some (SchemaDoc raw) ->
  parseXsd path_resolve path_dirname fs xsdPath baseDir = Returned m ->
  (forall k el,
      find (fun x => bool_decide (el_name x = k)) (rev (raw_elements raw)) = Some el ->
      Map_get (elements m) k = Some el) /\
  (forall k ct,
      k <> "" ->
      find (fun x => bool_decide (ct_name x = k)) (rev (raw_complexTypes raw)) = Some ct ->
      Map_get (complexTypes m) k = Some ct) /\
  (forall k st,
      k <> "" ->
      find (fun x => bool_decide (st_name x = k)) (rev (raw_simpleTypes raw)) = Some st ->
      Map_get (simpleTypes m) k = Some st) /\
  ~ In "" (Map_keys (reg_complexTypes (collectLocal raw))) /\
  ~ In "" (Map_keys (reg_simpleTypes (collectLocal raw))).
Proof.
  intros Hfile Hm. unfold parseXsd in Hm.
  destruct (collectLocal_last_wins raw) as (Hel & Hct & Hst).
  assert (path_resolve (truthy baseDir) xsdPath ∉ (∅ : gset string)) as Hnew by set_solver.
  split; [|split; [|split; [|split]]].
  - intros k el Hfind.
    refine (parse_keeps_local path_resolve path_dirname fs reg_elements elements
              _ _ _ _ xsdPath baseDir ∅ raw m k el Hnew Hfile Hm _); try reflexivity.
    + intros ps acc m0. exists []. reflexivity.
    + rewrite Hel. exact Hfind.
  - intros k ct Hk Hfind.
    refine (parse_keeps_local path_resolve path_dirname fs reg_complexTypes complexTypes
              _ _ _ _ xsdPath baseDir ∅ raw m k ct Hnew Hfile Hm _); try reflexivity.
    + intros ps acc m0. exists ps. reflexivity.
    + rewrite Hct by exact Hk. exact Hfind.
  - intros k st Hk Hfind.
    refine (parse_keeps_local path_resolve path_dirname fs reg_simpleTypes simpleTypes
              _ _ _ _ xsdPath baseDir ∅ raw m k st Hnew Hfile Hm _); try reflexivity.
    + intros ps acc m0. exists ps. reflexivity.
    + rewrite Hst by exact Hk. exact Hfind.
  - intros Hin. unfold Map_keys in Hin. apply in_map_iff in Hin.
    destruct Hin as ([k ct] & Hk & Hin). simpl in Hk. subst k.
    unfold collectLocal in Hin. simpl in Hin.
    apply (fold_left_entries _ (fun k' _ => k' <> "")) in Hin;
      [destruct Hin as [[]|Hne]; apply Hne; reflexivity|].
    intros acc y k' v'. case_bool_decide as Hy; [auto|].
    intros Hset. apply Map_set_entries in Hset. destruct Hset as [Hset|Heq]; [auto|].
    injection Heq as -> ->. now right.
  - intros Hin. unfold Map_keys in Hin. apply in_map_iff in Hin.
    destruct Hin as ([k st] & Hk & Hin). simpl in Hk. subst k.
    unfold collectLocal in Hin. simpl in Hin.
    apply (fold_left_entries _ (fun k' _ => k' <> "")) in Hin;
      [destruct Hin as [[]|Hne]; apply Hne; reflexivity|].
    intros acc y k' v'. case_bool_decide as Hy; [auto|].
    intros Hset. apply Map_set_entries in Hset. destruct Hset as [Hset|Heq]; [auto|].
    injection Heq as -> ->. now right.
Qed.

Lemma local_declarations_last_one_wins_witness :
  Map_get [("item", typedElement "item" "xs:int"); ("other", typedElement "other" "xs:date")]
    "item"
  = Some (typedElement "item" "xs:int").
Proof.
  apply (proj1 (local_declarations_last_one_wins flatResolve flatDirname twiceFiles
                  "twice.xsd" None twiceSchema
                  (mkSchemaModel "item"
                     [("item", typedElement "item" "xs:int");
                      ("other", typedElement "other" "xs:date")] [] [] None)
                  ltac:(vm_compute; reflexivity) ltac:(vm_compute; reflexivity))
           "item" (typedElement "item" "xs:int")).
  reflexivity.
Defined.
